(** * The imputation benchmark harness of datawig (experiments/benchmarks.py)

    A shallow embedding of the harness: the hyperparameter search
    [fancyimpute_hpo], the missingness-mask generator
    [generate_missing_mask], the dataset provider [get_data] and the
    orchestrating loop [experiment], followed by the properties the
    specification states about them.

    Conventions of the embedding.
    - A numpy array of two dimensions is a record of its shape and its
      row-major buffer ([ndarray]).
    - Ground-truth values and imputed values are exact rationals ([Q]);
      the not-a-number sentinel is the extra constructor [NaN] of
      [number].  Rounding, overflow and underflow of binary floating
      point are outside these values: of the error measure only what
      binary floating point keeps is stated (its sign, the 0 of agreeing
      cells, the not-a-number of an empty selection), and [binary64]
      runs line 35 on one cell of binary64 floats.
    - Python exceptions are the [Raise] branch of [result].
    - The process-wide generator [np.random] is a tape of raw draws and a
      cursor ([rng_state]); every draw reads one cell and advances the
      cursor, so quantifying over tapes quantifies over executions.
    - A computation is a function from the generator state to an outcome,
      the new generator state and the list of events it emitted ([M]).
      Events record the calls and the printed lines the properties are
      about. *)

From Stdlib Require Import String.
From Stdlib Require Import List Arith ZArith QArith Lia Lqa Bool Permutation Sorted.
From Stdlib Require Finite.
From Stdlib Require SpecFloat.
Import ListNotations.
Open Scope nat_scope.

(* ------------------------------------------------------------------ *)
(** ** Values, exceptions and arrays *)

(** A float as the harness sees it: a value or the missing sentinel. *)
Inductive number : Type :=
| Num (q : Q)
| NaN.

Inductive exn : Type :=
| ValueError
| IndexError
| TypeError
| AttributeError
| UnboundLocalError
| External (code : nat).

Inductive result (A : Type) : Type :=
| Ok (a : A)
| Raise (e : exn).
Arguments Ok {A} a.
Arguments Raise {A} e.

Record ndarray (A : Type) : Type := mk_ndarray {
  nrows : nat;
  ncols : nat;
  data : list A
}.
Arguments mk_ndarray {A} nrows ncols data.
Arguments nrows {A} n.
Arguments ncols {A} n.
Arguments data {A} n.

(** [np.prod(a.shape)] *)
Definition size {A} (a : ndarray A) : nat := nrows a * ncols a.

(** The buffer holds one cell per index: the invariant of every numpy array. *)
Definition well_formed {A} (a : ndarray A) : Prop := length (data a) = size a.

Definition same_shape {A B} (a : ndarray A) (b : ndarray B) : bool :=
  (nrows a =? nrows b) && (ncols a =? ncols b).

Definition Qlt_bool (x y : Q) : bool := negb (Qle_bool y x).

Module np.

(** [l[i] = v] on a flat buffer; an index out of range raises. *)
Fixpoint list_set {A} (l : list A) (i : nat) (v : A) : list A :=
  match l, i with
  | [], _ => []
  | _ :: t, O => v :: t
  | h :: t, S j => h :: list_set t j v
  end.

Definition setitem {A} (l : list A) (i : nat) (v : A) : result (list A) :=
  if i <? length l then Ok (list_set l i v) else Raise IndexError.

(** [l[idx] = v] for an index array [idx]. *)
Fixpoint setitems {A} (l : list A) (idx : list nat) (v : A) : result (list A) :=
  match idx with
  | [] => Ok l
  | i :: rest =>
      match setitem l i v with
      | Ok l' => setitems l' rest v
      | Raise e => Raise e
      end
  end.

(** [l[idx]] for an index array [idx]. *)
Fixpoint getitems {A} (l : list A) (idx : list nat) : result (list A) :=
  match idx with
  | [] => Ok []
  | i :: rest =>
      match nth_error l i, getitems l rest with
      | Some x, Ok xs => Ok (x :: xs)
      | None, _ => Raise IndexError
      | _, Raise e => Raise e
      end
  end.

Definition zeros (r c : nat) : ndarray Q := mk_ndarray r c (repeat 0%Q (r * c)).

(** [a.reshape(n)]: the flat buffer, when the sizes agree. *)
Definition reshape_flat {A} (a : ndarray A) (n : nat) : result (list A) :=
  if size a =? n then Ok (data a) else Raise ValueError.

(** [l.reshape((r, c))] of a flat buffer. *)
Definition reshape_2d {A} (l : list A) (r c : nat) : result (ndarray A) :=
  if length l =? r * c then Ok (mk_ndarray r c l) else Raise ValueError.

(** [l.nonzero()[0]]: the positions holding [true], in increasing order. *)
Fixpoint nonzero_from (i : nat) (l : list bool) : list nat :=
  match l with
  | [] => []
  | b :: t => if b then i :: nonzero_from (S i) t else nonzero_from (S i) t
  end.
Definition nonzero (l : list bool) : list nat := nonzero_from 0 l.

(** [a == False] *)
Definition eq_False (l : list bool) : list bool := map negb l.

(** [a > 0] *)
Definition gt0 (a : ndarray Q) : ndarray bool :=
  mk_ndarray (nrows a) (ncols a) (map (fun v => Qlt_bool 0 v) (data a)).

Fixpoint map2 {A B C} (f : A -> B -> C) (la : list A) (lb : list B) : list C :=
  match la, lb with
  | a :: ta, b :: tb => f a b :: map2 f ta tb
  | _, _ => []
  end.

(** [a[i, j]] *)
Definition cell {A} (a : ndarray A) (i j : nat) (d : A) : A :=
  nth (i * ncols a + j) (data a) d.

(** The extent two extents broadcast to: the common extent, or the
    other one when one of them is 1; other extents do not combine. *)
Definition broadcast_dim (n m : nat) : option nat :=
  if n =? m then Some n
  else if n =? 1 then Some m
  else if m =? 1 then Some n
  else None.

(** The buffer of [a] broadcast to [r] rows and [c] columns: along an
    extent of 1 the one row, or the one column, is repeated. *)
Definition broadcast_to {A} (a : ndarray A) (r c : nat) (d : A) : list A :=
  flat_map
    (fun i => map (fun j => cell a (if nrows a =? 1 then 0 else i)
                                   (if ncols a =? 1 then 0 else j) d)
                  (seq 0 c))
    (seq 0 r).

(** [a | b] on boolean arrays.  Operands of one shape are combined cell
    by cell; operands of unequal shapes are broadcast against each
    other, and refused when an extent of one is neither the extent of
    the other nor 1. *)
Definition logical_or (a b : ndarray bool) : result (ndarray bool) :=
  if same_shape a b
  then Ok (mk_ndarray (nrows a) (ncols a) (map2 orb (data a) (data b)))
  else
    match broadcast_dim (nrows a) (nrows b), broadcast_dim (ncols a) (ncols b) with
    | Some r, Some c =>
        Ok (mk_ndarray r c
              (map2 orb (broadcast_to a r c false) (broadcast_to b r c false)))
    | _, _ => Raise ValueError
    end.

(** [X.copy()] seen as an array of floats. *)
Definition copy (X : ndarray Q) : ndarray number :=
  mk_ndarray (nrows X) (ncols X) (map Num (data X)).

(** [a[mask] = v] with a boolean mask: its shape must be the shape of [a]. *)
Definition setitem_mask {A} (a : ndarray A) (mask : ndarray bool) (v : A)
  : result (ndarray A) :=
  if same_shape a mask
  then Ok (mk_ndarray (nrows a) (ncols a)
             (map2 (fun x (b : bool) => if b then v else x) (data a) (data mask)))
  else Raise IndexError.

(** The cells of a buffer selected by a boolean buffer. *)
Fixpoint select {A} (l : list A) (m : list bool) : list A :=
  match l, m with
  | x :: tl, b :: tm => if b then x :: select tl tm else select tl tm
  | _, _ => []
  end.

(** [a[mask]] with a boolean mask of the shape of [a]. *)
Definition getitem_mask {A} (a : ndarray A) (mask : ndarray bool) : result (list A) :=
  if same_shape a mask then Ok (select (data a) (data mask)) else Raise IndexError.

Definition Qsum (l : list Q) : Q := fold_right Qplus 0%Q l.

(** [l.mean()]; the mean of no value is not-a-number. *)
Definition mean (l : list Q) : number :=
  match l with
  | [] => NaN
  | _ => Num (Qsum l / inject_Z (Z.of_nat (length l)))
  end.

(** The scan of numpy's argmin over floats: a later cell replaces the
    current minimum when it is not greater or equal (smaller, or NaN),
    and the scan stops at the first NaN. *)
Fixpoint argmin_scan (mp : Q) (min_ind i : nat) (l : list number) : nat :=
  match l with
  | [] => min_ind
  | NaN :: _ => i
  | Num x :: rest =>
      if Qlt_bool x mp then argmin_scan x i (S i) rest
      else argmin_scan mp min_ind (S i) rest
  end.

(** [np.array(l).argmin()] *)
Definition argmin (l : list number) : result nat :=
  match l with
  | [] => Raise ValueError
  | NaN :: _ => Ok 0
  | Num x :: rest => Ok (argmin_scan x 0 1 rest)
  end.

(** [X[:, j]] *)
Definition getitem_col (X : ndarray Q) (j : nat) : result (list Q) :=
  if j <? ncols X
  then Ok (map (fun i => cell X i j 0%Q) (seq 0 (nrows X)))
  else Raise IndexError.

(** [mask[rows, j] = v] for an index array [rows] and a column [j]. *)
Fixpoint setitem_rows_col {A} (a : ndarray A) (rows : list nat) (j : nat) (v : A)
  : result (ndarray A) :=
  match rows with
  | [] => if j <? ncols a then Ok a else Raise IndexError
  | i :: rest =>
      if (i <? nrows a) && (j <? ncols a)
      then setitem_rows_col
             (mk_ndarray (nrows a) (ncols a) (list_set (data a) (i * ncols a + j) v))
             rest j v
      else Raise IndexError
  end.

(** [a[i]]: the row [i] of a matrix. *)
Definition row {A} (a : ndarray A) (i : nat) : list A :=
  firstn (ncols a) (skipn (i * ncols a) (data a)).

(** [np.vstack([X.T, t]).T] for a matrix [X] and a vector [t]: [t]
    appended to [X] as one more column. *)
Fixpoint append_column_rows (c : nat) (buf : list Q) (t : list Q) : list Q :=
  match t with
  | [] => []
  | x :: rest => firstn c buf ++ [x] ++ append_column_rows c (skipn c buf) rest
  end.

Definition append_column (X : ndarray Q) (t : list Q) : result (ndarray Q) :=
  if length t =? nrows X
  then Ok (mk_ndarray (nrows X) (S (ncols X)) (append_column_rows (ncols X) (data X) t))
  else Raise ValueError.

End np.

(* ------------------------------------------------------------------ *)
(** ** Hyperparameters *)

Inductive hp_value : Type :=
| HInt (z : Z)
| HFloat (q : Q)
| HStr (s : string).

(** A grid maps a parameter name to the values to try, a candidate maps
    it to one value; both are Python dicts, kept in insertion order. *)
Definition grid : Type := list (string * list hp_value).
Definition candidate : Type := list (string * hp_value).

(** [itertools.product] of the sequences [ls]: the last one advances fastest. *)
Fixpoint product {A} (ls : list (list A)) : list (list A) :=
  match ls with
  | [] => [[]]
  | vs :: rest => flat_map (fun v => map (cons v) (product rest)) vs
  end.

Definition dict_product (hp_dict : grid) : list candidate :=
  map (fun vals => combine (map fst hp_dict) vals) (product (map snd hp_dict)).

(* ------------------------------------------------------------------ *)
(** ** Events, the generator and the computation monad *)

Inductive phase : Type := Search | Refit.

(** One record of the list [experiment] returns. *)
Record result_record : Type := mk_result {
  r_data : string;
  r_imputer : string;
  r_percent_missing : Q;
  r_missing_at_random : bool;
  r_mse : number
}.

Inductive event : Type :=
(** the validation split of lines 41-47 was drawn *)
| EvValidation (train_idx validation_idx : list nat) (validation_mask : ndarray bool)
(** [fit_transform(X_incomplete)] of the adapter built from [params] was invoked *)
| EvFit (ph : phase) (imputer : string) (params : candidate)
        (X_incomplete : ndarray number) (outcome : result (ndarray Q))
(** the line printed for a candidate, line 56 *)
| EvTrained (imputer : string) (params : candidate) (mse : number)
(** the line printed for the selected candidate, line 65 *)
| EvBest (imputer : string) (best_params : candidate) (mse_best : number)
(** the split of the columns, lines 102-106 *)
| EvColumns (cols_affected cols_unaffected : list nat)
(** the driver and the run drawn for one affected column, lines 110-114 *)
| EvDiscard (col_affected depends_on_col discard_lower_start n_values_to_discard : nat)
(** [generate_missing_mask] returned a mask, line 141, in the iteration
    of the dataset [data], the percentage and the mechanism *)
| EvMask (data : string) (percent_missing : Q) (missing_at_random : bool)
         (missing_mask : ndarray bool)
(** [imputer_fn(X, missing_mask)] was called, line 143, in that iteration *)
| EvImputer (data : string) (percent_missing : Q) (missing_at_random : bool)
            (imputer : string) (missing_mask : ndarray bool)
(** the record printed at line 151 *)
| EvResult (r : result_record).

Record rng_state : Type := mk_rng { tape : nat -> nat; cursor : nat }.

Definition M (A : Type) : Type := rng_state -> result A * rng_state * list event.

Definition ret {A} (a : A) : M A := fun r => (Ok a, r, []).

Definition raise {A} (e : exn) : M A := fun r => (Raise e, r, []).

Definition bind {A B} (m : M A) (k : A -> M B) : M B :=
  fun r =>
    match m r with
    | (Ok a, r1, ev1) =>
        match k a r1 with
        | (b, r2, ev2) => (b, r2, ev1 ++ ev2)
        end
    | (Raise e, r1, ev1) => (Raise e, r1, ev1)
    end.

Definition lift {A} (x : result A) : M A := fun r => (x, r, []).

Definition emit (e : event) : M unit := fun r => (Ok tt, r, [e]).

Declare Scope harness_scope.
Delimit Scope harness_scope with harness.
Notation "x <- m ;; k" := (bind m (fun x => k))
  (at level 61, m at next level, right associativity) : harness_scope.
Notation "m ;;; k" := (bind m (fun _ => k))
  (at level 61, right associativity) : harness_scope.
Open Scope harness_scope.

Definition outcome {A} (x : result A * rng_state * list event) : result A := fst (fst x).
Definition events {A} (x : result A * rng_state * list event) : list event := snd x.

(** The outcome of a continuation, after the events [ev1] already emitted. *)
Definition after {A} (ev1 : list event) (x : result A * rng_state * list event)
  : result A * rng_state * list event :=
  let '(b, r2, ev2) := x in (b, r2, ev1 ++ ev2).

(** [for x in l: acc = body(acc, x)] *)
Fixpoint for_each {A S} (l : list A) (body : S -> A -> M S) (acc : S) : M S :=
  match l with
  | [] => ret acc
  | x :: rest => acc' <- body acc x ;; for_each rest body acc'
  end.

(** One raw draw from the tape. *)
Definition next_raw : M nat :=
  fun r => (Ok (tape r (cursor r)), mk_rng (tape r) (S (cursor r)), []).

(** [np.random.randint(low, high)]: uniform on [low, high). *)
Definition randint (low high : Z) : M Z :=
  if (low <? high)%Z
  then raw <- next_raw ;; ret (low + Z.of_nat raw mod (high - low))%Z
  else raise ValueError.

(** A uniform position of a sequence of [n > 0] cells. *)
Definition draw_below (n : nat) : M nat :=
  raw <- next_raw ;; ret (raw mod n).

(** [np.random.choice(a)]: one cell of [a]. *)
Definition choice (a : list nat) : M nat :=
  match a with
  | [] => raise ValueError
  | _ => i <- draw_below (length a) ;; ret (nth i a 0)
  end.

Fixpoint choice_loop (a : list nat) (n : nat) : M (list nat) :=
  match n with
  | O => ret []
  | S n' => x <- choice a ;; xs <- choice_loop a n' ;; ret (x :: xs)
  end.

(** [np.random.choice(a, n)]: [n] cells of [a], with replacement; an
    empty [a] is accepted when no sample is taken. *)
Definition choice_n (a : list nat) (n : nat) : M (list nat) := choice_loop a n.

Fixpoint remove_nth {A} (i : nat) (l : list A) : list A :=
  match l, i with
  | [], _ => []
  | _ :: t, O => t
  | h :: t, S j => h :: remove_nth j t
  end.

Fixpoint shuffle (n : nat) (l : list nat) : M (list nat) :=
  match n with
  | O => ret []
  | S n' =>
      i <- draw_below (length l) ;;
      rest <- shuffle n' (remove_nth i l) ;;
      ret (nth i l 0 :: rest)
  end.

(** [np.random.permutation(l)]: the cells of [l] in a drawn order. *)
Definition permutation (l : list nat) : M (list nat) := shuffle (length l) l.

(** One float of [np.random.rand]: a multiple of 2^-53 in [0, 1). *)
Definition rand1 : M Q :=
  raw <- next_raw ;; ret (Z.of_nat raw mod 2 ^ 53 # 2 ^ 53).

Fixpoint rand_loop (n : nat) : M (list Q) :=
  match n with
  | O => ret []
  | S n' => u <- rand1 ;; us <- rand_loop n' ;; ret (u :: us)
  end.

(** [np.random.rand(r, c)] *)
Definition rand (r c : nat) : M (ndarray Q) :=
  us <- rand_loop (r * c) ;; ret (mk_ndarray r c us).

(* ------------------------------------------------------------------ *)
(** ** The hyperparameter search and evaluator (lines 27-66) *)

(** An imputer class of fancyimpute: its [__name__], and what building
    it from a candidate and calling [fit_transform] on a matrix with
    missing cells returns.  The call may consume the shared generator
    and may fail. *)
Record adapter : Type := mk_adapter {
  adapter_name : string;
  fit_transform :
    candidate -> ndarray number -> rng_state -> result (ndarray Q) * rng_state
}.

Definition fit (ph : phase) (fancyimputer : adapter) (params : candidate)
    (X_incomplete : ndarray number) : M (ndarray Q) :=
  fun r =>
    let '(out, r') := fit_transform fancyimputer params X_incomplete r in
    (out, r', [EvFit ph (adapter_name fancyimputer) params X_incomplete out]).

Definition evaluate_mse (X_imputed X : ndarray Q) (mask : ndarray bool) : result number :=
  match np.getitem_mask X_imputed mask, np.getitem_mask X mask with
  | Ok a, Ok b => Ok (np.mean (map (fun d => d ^ 2)%Q (np.map2 Qminus a b)))
  | Raise e, _ => Raise e
  | _, Raise e => Raise e
  end.

(** [l[i]] on a Python list. *)
Definition index {A} (l : list A) (i : nat) : result A :=
  match nth_error l i with
  | Some x => Ok x
  | None => Raise IndexError
  end.

(** The body of the loop of lines 53-57. *)
Definition hpo_step (fancyimputer : adapter) (X : ndarray Q)
    (X_incomplete : ndarray number) (validation_mask : ndarray bool)
    (mse_hpo : list number) (params : candidate) : M (list number) :=
  X_imputed <- fit Search fancyimputer params X_incomplete ;;
  mse <- lift (evaluate_mse X_imputed X validation_mask) ;;
  emit (EvTrained (adapter_name fancyimputer) params mse) ;;;
  ret (mse_hpo ++ [mse]).

(** Lines 41-47.  The integer [percent_validation] every caller passes
    makes [int(len(train_idx) * percent_validation/100)] a floor division. *)
Definition validation_split (X : ndarray Q) (mask : ndarray bool)
    (percent_validation : nat) : M (ndarray bool) :=
  flat_mask <- lift (np.reshape_flat mask (size X)) ;;
  let train_idx := np.nonzero (np.eq_False flat_mask) in
  let n_validation := length train_idx * percent_validation / 100 in
  validation_idx <- choice_n train_idx n_validation ;;
  flat_validation <- lift (np.setitems (repeat 0%Q (size X)) validation_idx 1%Q) ;;
  validation_arr <- lift (np.reshape_2d flat_validation (nrows X) (ncols X)) ;;
  let validation_mask := np.gt0 validation_arr in
  emit (EvValidation train_idx validation_idx validation_mask) ;;;
  ret validation_mask.

(** Lines 49-57. *)
Definition hpo_search (fancyimputer : adapter) (all_param_candidates : list candidate)
    (X : ndarray Q) (mask validation_mask : ndarray bool) : M (list number) :=
  hidden <- lift (np.logical_or mask validation_mask) ;;
  X_incomplete <- lift (np.setitem_mask (np.copy X) hidden NaN) ;;
  for_each all_param_candidates
    (hpo_step fancyimputer X X_incomplete validation_mask) [].

(** Lines 59-66. *)
Definition hpo_refit (fancyimputer : adapter) (all_param_candidates : list candidate)
    (X : ndarray Q) (mask : ndarray bool) (mse_hpo : list number) : M number :=
  best <- lift (np.argmin mse_hpo) ;;
  best_params <- lift (index all_param_candidates best) ;;
  X_incomplete <- lift (np.setitem_mask (np.copy X) mask NaN) ;;
  X_imputed <- fit Refit fancyimputer best_params X_incomplete ;;
  mse_best <- lift (evaluate_mse X_imputed X mask) ;;
  emit (EvBest (adapter_name fancyimputer) best_params mse_best) ;;;
  ret mse_best.

Definition fancyimpute_hpo (fancyimputer : adapter) (param_candidates : grid)
    (X : ndarray Q) (mask : ndarray bool) (percent_validation : nat) : M number :=
  let all_param_candidates := dict_product param_candidates in
  validation_mask <- validation_split X mask percent_validation ;;
  mse_hpo <- hpo_search fancyimputer all_param_candidates X mask validation_mask ;;
  hpo_refit fancyimputer all_param_candidates X mask mse_hpo.

Definition default_percent_validation : nat := 10.

(* ------------------------------------------------------------------ *)
(** ** The dataset provider (lines 86-94) *)

Inductive kwarg : Type :=
| n_samples (n : nat)
| n_features (n : nat)
| effective_rank (n : nat)
| random_state (n : nat)
| return_X_y (b : bool).

(** The values a loader returns and [get_data] hands on: a matrix; the
    pair of a matrix and a vector, which the loaders of sklearn return
    for [return_X_y] and for the swiss roll; and what unpacking an array
    leaves, a one-dimensional array or a scalar. *)
Inductive pyvalue : Type :=
| PyArray (X : ndarray Q)
| PyVector (v : list Q)
| PyScalar (x : Q)
| PyPair (X : ndarray Q) (t : list Q).

(** A loader: its [__name__], whether that string object is the
    interned one, and the call.  CPython interns the name of a function
    that a module defines, as it interns the literals of lines 87 and
    89; a name built at run time is an object of its own. *)
Record data_fn : Type := mk_data_fn {
  fn_name : string;
  name_interned : bool;
  call : list kwarg -> result pyvalue
}.

(** The two values of [X, t = v]: the components of a pair, or the two
    rows of a matrix, or the two cells of a one-dimensional array. *)
Inductive unpacked : Type :=
| MatrixVector (X : ndarray Q) (t : list Q)
| Rows (x t : list Q)
| Cells (x t : Q).

(** [X, t = v].  A pair gives its components.  An array is iterated
    along its first axis and must hold exactly two items; a scalar is
    not iterable. *)
Definition unpack (v : pyvalue) : result unpacked :=
  match v with
  | PyPair X t => Ok (MatrixVector X t)
  | PyArray a =>
      if nrows a =? 2 then Ok (Rows (np.row a 0) (np.row a 1)) else Raise ValueError
  | PyVector [x; t] => Ok (Cells x t)
  | PyVector _ => Raise ValueError
  | PyScalar _ => Raise TypeError
  end.

(** [np.vstack([X.T, t]).T], line 91. *)
Definition vstack_T (u : unpacked) : result (ndarray Q) :=
  match u with
  | MatrixVector X t => np.append_column X t
  | Rows x t =>
      if length x =? length t
      then Ok (mk_ndarray (length x) 2 (flat_map (fun p => [fst p; snd p]) (combine x t)))
      else Raise ValueError
  | Cells x t => Ok (mk_ndarray 1 2 [x; t])
  end.

(** The first of the two values, as line 93 keeps it. *)
Definition first_value (u : unpacked) : pyvalue :=
  match u with
  | MatrixVector X _ => PyArray X
  | Rows x _ => PyVector x
  | Cells x _ => PyScalar x
  end.

Definition name_in (s : string) (l : list string) : bool :=
  existsb (String.eqb s) l.

(** [data_fn.__name__ is lit], lines 87 and 89: the identity of two
    string objects, which holds when the name is the interned string of
    the characters of the literal. *)
Definition name_is (f : data_fn) (lit : string) : bool :=
  name_interned f && String.eqb (fn_name f) lit.

(** No branch is taken for a name that fails the three tests, and line
    94 then reads the unbound [X]. *)
Definition get_data (f : data_fn) : result pyvalue :=
  if name_is f "make_low_rank_matrix" then
    call f [n_samples 1000; n_features 10; effective_rank 5; random_state 0]
  else if name_is f "make_swiss_roll" then
    match call f [n_samples 1000; random_state 0] with
    | Ok v =>
        match unpack v with
        | Ok u =>
            match vstack_T u with
            | Ok X' => Ok (PyArray X')
            | Raise e => Raise e
            end
        | Raise e => Raise e
        end
    | Raise e => Raise e
    end
  else if name_in (fn_name f) ["load_digits"; "load_wine"; "load_diabetes"]%string then
    match call f [return_X_y true] with
    | Ok v =>
        match unpack v with
        | Ok u => Ok (first_value u)
        | Raise e => Raise e
        end
    | Raise e => Raise e
    end
  else Raise UnboundLocalError.

(** The matrix the loops of lines 140-152 work on.  The harness is
    followed on matrices: a tuple has no [shape] (line 98); a scalar
    makes the mask of line 98 a Python bool, which has no [reshape]
    (line 41); a one-dimensional array has no second extent (line 102),
    and what the imputers, called before, make of it is not followed. *)
Definition as_array (v : pyvalue) : result (ndarray Q) :=
  match v with
  | PyArray X => Ok X
  | PyVector _ => Raise IndexError
  | PyScalar _ => Raise AttributeError
  | PyPair _ _ => Raise AttributeError
  end.

(* ------------------------------------------------------------------ *)
(** ** The mask generator, the imputers and the orchestrator *)

Section Harness.

(** [v.argsort()] of numpy; the order it gives to equal values is not
    fixed by its default kind, so it is kept abstract. *)
Variable argsort : list Q -> list nat.

(** The imputer classes of fancyimpute and [SimpleImputer.complete] of
    datawig, which are not part of the harness. *)
Variable SimpleFill_fit KNN_fit MatrixFactorization_fit :
  candidate -> ndarray number -> rng_state -> result (ndarray Q) * rng_state.
Variable SimpleImputer_complete :
  ndarray Q -> rng_state -> result (ndarray Q) * rng_state.

(** The loaders of sklearn.datasets. *)
Variable sk_make_low_rank_matrix sk_load_diabetes sk_load_wine sk_make_swiss_roll :
  list kwarg -> result pyvalue.

(** [u < p] cell by cell. *)
Definition lt_scalar (u : ndarray Q) (p : Q) : ndarray bool :=
  mk_ndarray (nrows u) (ncols u) (map (fun x => Qlt_bool x p) (data u)).

(** The body of the loop of lines 108-116. *)
Definition mnar_column (X : ndarray Q) (n_cols_affected : nat)
    (cols_unaffected : list nat) (mask : ndarray Q) (col_affected : nat)
  : M (ndarray Q) :=
  depends_on_col <- choice cols_unaffected ;;
  let n_values_to_discard := nrows X / n_cols_affected in
  start <- randint 0 (Z.of_nat (nrows X) - Z.of_nat n_values_to_discard - 1) ;;
  let discard_lower_start := Z.to_nat start in
  emit (EvDiscard col_affected depends_on_col discard_lower_start n_values_to_discard) ;;;
  let discard_idx := seq discard_lower_start n_values_to_discard in
  column <- lift (np.getitem_col X depends_on_col) ;;
  values_to_discard <- lift (np.getitems (argsort column) discard_idx) ;;
  lift (np.setitem_rows_col mask values_to_discard col_affected 1%Q).

Definition generate_missing_mask (X : ndarray Q) (percent_missing : Q)
    (missing_at_random : bool) : M (ndarray bool) :=
  if missing_at_random then
    u <- rand (nrows X) (ncols X) ;;
    ret (lt_scalar u (percent_missing / 100))
  else
    let mask := np.zeros (nrows X) (ncols X) in
    k <- randint 2 (Z.of_nat (ncols X)) ;;
    let n_cols_affected := Z.to_nat k in
    cols_permuted <- permutation (seq 0 (ncols X)) ;;
    let cols_affected := firstn n_cols_affected cols_permuted in
    let cols_unaffected := skipn n_cols_affected cols_permuted in
    emit (EvColumns cols_affected cols_unaffected) ;;;
    mask <- for_each cols_affected (mnar_column X n_cols_affected cols_unaffected) mask ;;
    ret (np.gt0 mask).

Definition SimpleFill : adapter := mk_adapter "SimpleFill" SimpleFill_fit.
Definition KNN : adapter := mk_adapter "KNN" KNN_fit.
Definition MatrixFactorization : adapter :=
  mk_adapter "MatrixFactorization" MatrixFactorization_fit.

Definition impute_mean (X : ndarray Q) (mask : ndarray bool) : M number :=
  fancyimpute_hpo SimpleFill [("fill_method", [HStr "mean"])]%string X mask
    default_percent_validation.

Definition impute_knn (X : ndarray Q) (mask : ndarray bool) : M number :=
  fancyimpute_hpo KNN [("k", [HInt 2; HInt 4; HInt 6])]%string X mask
    default_percent_validation.

Definition impute_mf (X : ndarray Q) (mask : ndarray bool) : M number :=
  fancyimpute_hpo MatrixFactorization
    [("rank", [HInt 5; HInt 10; HInt 50]);
     ("l2_penalty", [HFloat (1 # 1000); HFloat (1 # 100000)])]%string X mask
    default_percent_validation.

(** The data frame handed to [SimpleImputer.complete] is built from the
    whole of [X]; the mask is used for the score only. *)
Definition impute_datawig (X : ndarray Q) (mask : ndarray bool) : M number :=
  df_values <- (fun r => let '(out, r') := SimpleImputer_complete X r in (out, r', [])) ;;
  lift (evaluate_mse df_values X mask).

Definition make_low_rank_matrix : data_fn :=
  mk_data_fn "make_low_rank_matrix" true sk_make_low_rank_matrix.
Definition load_diabetes : data_fn := mk_data_fn "load_diabetes" true sk_load_diabetes.
Definition load_wine : data_fn := mk_data_fn "load_wine" true sk_load_wine.
Definition make_swiss_roll : data_fn := mk_data_fn "make_swiss_roll" true sk_make_swiss_roll.

Definition DATA_LOADERS : list data_fn :=
  [make_low_rank_matrix; load_diabetes; load_wine; make_swiss_roll].

(** Each imputer function with its [__name__]. *)
Definition imputers : list (string * (ndarray Q -> ndarray bool -> M number)) :=
  [("impute_mean", impute_mean); ("impute_knn", impute_knn);
   ("impute_mf", impute_mf); ("impute_datawig", impute_datawig)]%string.

(** The body of the loop of line 142. *)
Definition experiment_imputer (data_name : string) (percent_missing : Q)
    (missingness_at_random : bool) (X : ndarray Q) (missing_mask : ndarray bool)
    (results : list result_record)
    (imputer_fn : string * (ndarray Q -> ndarray bool -> M number))
  : M (list result_record) :=
  emit (EvImputer data_name percent_missing missingness_at_random
          (fst imputer_fn) missing_mask) ;;;
  mse <- snd imputer_fn X missing_mask ;;
  let result :=
    mk_result data_name (fst imputer_fn) percent_missing missingness_at_random mse in
  emit (EvResult result) ;;;
  ret (results ++ [result]).

(** The body of the loop of line 140. *)
Definition experiment_mechanism (data_name : string) (percent_missing : Q)
    (Xv : pyvalue) (results : list result_record) (missingness_at_random : bool)
  : M (list result_record) :=
  X <- lift (as_array Xv) ;;
  missing_mask <- generate_missing_mask X percent_missing missingness_at_random ;;
  emit (EvMask data_name percent_missing missingness_at_random missing_mask) ;;;
  for_each imputers
    (experiment_imputer data_name percent_missing missingness_at_random X missing_mask)
    results.

(** The body of the loop of line 138. *)
Definition experiment_dataset (percent_missing : Q) (results : list result_record)
    (f : data_fn) : M (list result_record) :=
  Xv <- lift (get_data f) ;;
  for_each [true; false] (experiment_mechanism (fn_name f) percent_missing Xv) results.

Definition experiment (percent_missing_list : list Q) : M (list result_record) :=
  for_each percent_missing_list
    (fun results percent_missing =>
       for_each DATA_LOADERS (experiment_dataset percent_missing) results)
    [].

End Harness.

(* ------------------------------------------------------------------ *)
(** ** Concrete collaborators, used to run the harness on examples *)

(** A stable insertion argsort. *)
Fixpoint insert_by (v : list Q) (i : nat) (l : list nat) : list nat :=
  match l with
  | [] => [i]
  | j :: t =>
      if Qle_bool (nth i v 0%Q) (nth j v 0%Q) then i :: l else j :: insert_by v i t
  end.

Definition argsort_insertion (v : list Q) : list nat :=
  fold_right (insert_by v) [] (seq 0 (length v)).

(** The generator that replays the raw draws of [l], then zeros. *)
Definition tape_of (l : list nat) : rng_state := mk_rng (fun i => nth i l 0) 0.

Definition fill_cell (q : Q) (c : number) : Q :=
  match c with
  | Num x => x
  | NaN => q
  end.

(** An imputer that fills every missing cell with the constant [q]. *)
Definition constant_fill (q : Q) : adapter :=
  mk_adapter "ConstantFill"
    (fun _ X_incomplete r =>
       (Ok (mk_ndarray (nrows X_incomplete) (ncols X_incomplete)
              (map (fill_cell q) (data X_incomplete))), r)).

Definition param_value (params : candidate) : Q :=
  match params with
  | (_, HInt z) :: _ => inject_Z z
  | (_, HFloat q) :: _ => q
  | _ => 0%Q
  end.

(** An imputer that fills every missing cell with its first hyperparameter. *)
Definition param_fill : adapter :=
  mk_adapter "ParamFill"
    (fun params X_incomplete r =>
       (Ok (mk_ndarray (nrows X_incomplete) (ncols X_incomplete)
              (map (fill_cell (param_value params)) (data X_incomplete))), r)).

(** A loader that returns the same value for every call. *)
Definition constant_loader (name : string) (v : pyvalue) : data_fn :=
  mk_data_fn name true (fun _ => Ok v).

(** A matrix, masks and grids for the examples. *)
Definition example_X : ndarray Q := mk_ndarray 2 3 [1; 2; 3; 4; 5; 6]%Q.

Definition example_mask : ndarray bool :=
  mk_ndarray 2 3 [true; false; false; false; true; false].


(** A matrix with fewer rows than columns. *)
Definition example_wide : ndarray Q := mk_ndarray 2 4 [1; 2; 3; 4; 8; 7; 6; 5]%Q.

(** A square matrix. *)
Definition example_square : ndarray Q :=
  mk_ndarray 4 4 [1; 2; 3; 4; 8; 7; 6; 5; 0; 3; 1; 2; 9; 1; 4; 7]%Q.

Definition example_grid : grid := [("k", [HInt 1; HInt 3; HInt 2])]%string.

Definition single_grid : grid := [("fill_method", [HStr "mean"])]%string.

Definition empty_grid : grid := [("k", [])]%string.

(** Loaders and collaborators that return small fixed matrices. *)
Definition stub_fit (q : Q) :
  candidate -> ndarray number -> rng_state -> result (ndarray Q) * rng_state :=
  fit_transform (constant_fill q).

Definition stub_complete (X : ndarray Q) (r : rng_state)
  : result (ndarray Q) * rng_state := (Ok X, r).

Definition stub_array (_ : list kwarg) : result pyvalue := Ok (PyArray example_square).

Definition stub_pair (_ : list kwarg) : result pyvalue :=
  Ok (PyPair example_square [1; 2; 3; 4]%Q).

(** The orchestrator run on the stubs. *)
Definition stub_experiment (percent_missing_list : list Q) : M (list result_record) :=
  experiment argsort_insertion (stub_fit 0) (stub_fit 0) (stub_fit 0) stub_complete
    stub_array stub_pair stub_pair stub_pair percent_missing_list.

(** The mask of [example_square] with every entry true. *)
Definition full_mask : ndarray bool := mk_ndarray 4 4 (repeat true 16).

(* ------------------------------------------------------------------ *)
(** ** The error measure on one cell, in binary floating point *)

(** The arithmetic of line 35 as numpy runs it, on binary64 floats, for
    a mask with one true entry: the difference of the two selected
    cells, its square, and the mean of that one value. *)
Module binary64.

Definition float : Type := SpecFloat.spec_float.

Definition prec : Z := 53.
Definition emax : Z := 1024.

Definition sub (x y : float) : float := SpecFloat.SFsub prec emax x y.
Definition mul (x y : float) : float := SpecFloat.SFmul prec emax x y.
Definition div (x y : float) : float := SpecFloat.SFdiv prec emax x y.

(** [m * 2 ** e], for a mantissa of 53 bits. *)
Definition finite (m : positive) (e : Z) : float := SpecFloat.S754_finite false m e.

Definition zero : float := SpecFloat.S754_zero false.
Definition one : float := finite (2 ^ 52) (-52).

(** [((x_imputed - x) ** 2).mean()] over the one selected cell. *)
Definition evaluate_mse_cell (x_imputed x : float) : float :=
  div (mul (sub x_imputed x) (sub x_imputed x)) one.

End binary64.

(* ------------------------------------------------------------------ *)
(** ** Vocabulary of the properties *)

Definition count_true (l : list bool) : nat := length (filter (fun b => b) l).

Definition count_false (l : list bool) : nat := length (filter negb l).

Definition is_nan (c : number) : bool :=
  match c with
  | NaN => true
  | Num _ => false
  end.

(** The number of missing sentinels of a matrix. *)
Definition count_nan (a : ndarray number) : nat := length (filter is_nan (data a)).

(** [X] with the sentinel at the positions of [m], the other cells kept. *)
Definition hide (X : ndarray Q) (m : list bool) : ndarray number :=
  mk_ndarray (nrows X) (ncols X)
    (np.map2 (fun x (b : bool) => if b then NaN else x) (map Num (data X)) m).

Definition is_fit (e : event) : bool :=
  match e with
  | EvFit _ _ _ _ _ => true
  | _ => false
  end.

(** How many times [fit_transform] was invoked in a trace. *)
Definition count_fits (evs : list event) : nat := length (filter is_fit evs).

(** The candidates printed at line 56 with their validation errors. *)
Fixpoint trained (evs : list event) : list (candidate * number) :=
  match evs with
  | [] => []
  | EvTrained _ params mse :: rest => (params, mse) :: trained rest
  | _ :: rest => trained rest
  end.

(** Strictly smaller, between two errors that are both numbers. *)
Definition num_lt (a b : number) : Prop :=
  match a, b with
  | Num x, Num y => (x < y)%Q
  | _, _ => False
  end.

(** Two errors tie: equal numbers, or not-a-number both. *)
Definition tied (a b : number) : Prop :=
  match a, b with
  | Num x, Num y => (x == y)%Q
  | NaN, NaN => True
  | _, _ => False
  end.

(** [i] is the first position of [l] that holds its minimum: no cell is
    strictly smaller, and a cell that ties with it comes no earlier. *)
Definition first_min (l : list number) (i : nat) : Prop :=
  exists mi, nth_error l i = Some mi /\
    forall j mj, nth_error l j = Some mj -> ~ num_lt mj mi /\ (tied mj mi -> i <= j).

(** The cells of [mask] and [X_imputed] agree with [X] wherever [mask] holds. *)
Definition agrees_on (X_imputed X : ndarray Q) (mask : ndarray bool) : Prop :=
  forall i, nth i (data mask) false = true ->
            (nth i (data X_imputed) 0 == nth i (data X) 0)%Q.


(** [X[:, j]] as a list. *)
Definition column (X : ndarray Q) (j : nat) : list Q :=
  map (fun i => np.cell X i j 0%Q) (seq 0 (nrows X)).

(** The rows selected by the run of [nd] sorted positions from [s] on,
    in the order [argsort] gives to the driver column [d]. *)
Definition run_rows (argsort : list Q -> list nat) (X : ndarray Q) (d s nd : nat)
  : list nat :=
  map (fun p => nth p (argsort (column X d)) 0) (seq s nd).

(** The affected column an event of the loop of lines 108-116 is about. *)
Definition discard_col (e : event) : option nat :=
  match e with
  | EvDiscard c _ _ _ => Some c
  | _ => None
  end.

(** An event of that loop: the driver is an unaffected column, the run
    has n_samples // n_cols_affected positions and ends two positions
    before the end of the sorted order at the latest. *)
Definition discard_ok (X : ndarray Q) (k : nat) (cols_unaffected : list nat) (e : event)
  : Prop :=
  match e with
  | EvDiscard _ d s nd =>
      In d cols_unaffected /\ nd = nrows X / k /\ s + nd + 2 <= nrows X
  | _ => False
  end.

(** An event of the loop of lines 53-57 run on the matrix [Xi]. *)
Definition search_event (name : string) (Xi : ndarray number) (e : event) : Prop :=
  match e with
  | EvFit Search n _ Xin _ => n = name /\ Xin = Xi
  | EvTrained n _ _ => n = name
  | _ => False
  end.

(** What the events and the outcome of lines 59-66 are, run on the
    validation errors [mses]. *)
Definition refit_trace (F : adapter) (cands : list candidate) (X : ndarray Q)
    (M : ndarray bool) (mses : list number) (evr : list event) (o : result number)
  : Prop :=
  (evr = [] /\ exists e, o = Raise e) \/
  exists i best out r0 r1,
    np.argmin mses = Ok i /\ nth_error cands i = Some best /\
    same_shape X M = true /\
    fit_transform F best (hide X (data M)) r0 = (out, r1) /\
    ((evr = [EvFit Refit (adapter_name F) best (hide X (data M)) out] /\
      exists e, o = Raise e) \/
     exists Ximp m,
       out = Ok Ximp /\ evaluate_mse Ximp X M = Ok m /\
       evr = [EvFit Refit (adapter_name F) best (hide X (data M)) out;
              EvBest (adapter_name F) best m] /\
       o = Ok m).

(** The order of two positions by the values they hold. *)
Definition by_value (v : list Q) (a b : nat) : Prop := (nth a v 0 <= nth b v 0)%Q.

(** One iteration of the loops of lines 137-140: the dataset, the
    percentage and the mechanism. *)
Definition triple : Type := (string * Q * bool)%type.

Definition is_mask_event (e : event) : bool :=
  match e with
  | EvMask _ _ _ _ => true
  | EvImputer _ _ _ _ _ => true
  | _ => false
  end.

(** The mask draws and the imputer calls of a trace, in order. *)
Definition mask_events (evs : list event) : list event := filter is_mask_event evs.

Definition is_draw (e : event) : bool :=
  match e with
  | EvMask _ _ _ _ => true
  | _ => false
  end.

(** How many masks were drawn in a trace. *)
Definition count_draws (evs : list event) : nat := length (filter is_draw evs).

(** Every imputer call of the trace is handed the mask of the latest
    draw, made in the same iteration; [cur] is the latest draw before
    the trace. *)
Fixpoint uses_latest_draw (cur : option (triple * ndarray bool)) (evs : list event)
  : Prop :=
  match evs with
  | [] => True
  | EvMask d p mar m :: rest => uses_latest_draw (Some ((d, p, mar), m)) rest
  | EvImputer d p mar _ m :: rest =>
      cur = Some ((d, p, mar), m) /\ uses_latest_draw cur rest
  | _ :: rest => uses_latest_draw cur rest
  end.

(** The mask events of one iteration: the draw of the mask [m], then a
    call on [m] for each imputer name. *)
Definition iteration_events (names : list string) (t : triple * ndarray bool)
  : list event :=
  let '((d, p, mar), m) := t in
  EvMask d p mar m :: map (fun name => EvImputer d p mar name m) names.

(** The [__name__] of the loaders and of the imputer functions, in the
    order of the lists of lines 121-133. *)
Definition loader_names : list string :=
  ["make_low_rank_matrix"; "load_diabetes"; "load_wine"; "make_swiss_roll"]%string.

Definition imputer_names : list string :=
  ["impute_mean"; "impute_knn"; "impute_mf"; "impute_datawig"]%string.

(** The iterations of the loops of lines 137-140, in their order. *)
Definition triples_of (percent_missing_list : list Q) : list triple :=
  flat_map
    (fun p => flat_map (fun d => [(d, p, true); (d, p, false)]) loader_names)
    percent_missing_list.

(** The mask events of [evs] are those of the iterations [T], one drawn
    mask for each, handed to every imputer. *)
Definition renders (T : list triple) (evs : list event) : Prop :=
  exists ms, length ms = length T /\
             mask_events evs = flat_map (iteration_events imputer_names) (combine T ms).



(** An imputer whose every invocation raises. *)
Definition failing_fit :
  candidate -> ndarray number -> rng_state -> result (ndarray Q) * rng_state :=
  fun _ _ r => (Raise (External 7), r).

Definition failing_adapter : adapter := mk_adapter "Failing" failing_fit.

(** The orchestrator run on the stubs, the nearest-neighbour imputer failing. *)
Definition failing_experiment (percent_missing_list : list Q) : M (list result_record) :=
  experiment argsort_insertion (stub_fit 0) failing_fit (stub_fit 0) stub_complete
    stub_array stub_pair stub_pair stub_pair percent_missing_list.

(** A printed validation error, if the event is one, is not-a-number. *)
Definition trained_nan (ev : event) : Prop :=
  match ev with
  | EvTrained _ _ mse => mse = NaN
  | _ => True
  end.

(** The number of candidates of a grid: the product of the numbers of
    values of its parameters. *)
Definition grid_size (hp_dict : grid) : nat :=
  fold_right (fun kv acc => length (snd kv) * acc) 1 hp_dict.

(** A candidate of a grid: the parameters of the grid in their order,
    each with one of its listed values. *)
Definition assigns (hp_dict : grid) (params : candidate) : Prop :=
  map fst params = map fst hp_dict /\
  Forall2 (fun v vs => In v vs) (map snd params) (map snd hp_dict).

(** The event of an adapter invocation that raised [e]. *)
Definition fails_with (e : exn) (ev : event) : Prop :=
  match ev with
  | EvFit _ _ _ _ (Raise e') => e' = e
  | _ => False
  end.

(** A run in which an adapter invocation raised ends with that exception. *)
Definition propagates {A} (x : result A * rng_state * list event) : Prop :=
  forall e ev, In ev (events x) -> fails_with e ev -> outcome x = Raise e.

(** An adapter that never fails and returns a matrix of the shape of
    its input. *)
Definition adapter_total (F : adapter) : Prop :=
  forall params X_incomplete r,
    exists X_imputed r',
      fit_transform F params X_incomplete r = (Ok X_imputed, r') /\
      same_shape X_imputed X_incomplete = true.

(** [mask[:, c]] as a list. *)
Definition mask_column (mask : ndarray bool) (c : nat) : list bool :=
  map (fun i => np.cell mask i c false) (seq 0 (nrows mask)).


(* ================================================================== *)
(** * Properties *)

(** ** Lists and buffers *)

Lemma list_set_length {A} (l : list A) i v : length (np.list_set l i v) = length l.
Proof.
  revert i; induction l as [|h t IH]; intros [|j]; simpl; auto.
Qed.

Lemma nth_list_set {A} (l : list A) i j v d :
  i < length l ->
  nth j (np.list_set l i v) d = if j =? i then v else nth j l d.
Proof.
  revert i j; induction l as [|h t IH]; intros i j Hi; simpl in Hi; [lia|].
  destruct i as [|i]; destruct j as [|j]; simpl; auto.
  apply IH; lia.
Qed.

Lemma setitems_ok {A} (idx : list nat) : forall (l l' : list A) v,
  np.setitems l idx v = Ok l' ->
  length l' = length l /\
  Forall (fun i => i < length l) idx /\
  forall j d, nth j l' d = if existsb (Nat.eqb j) idx then v else nth j l d.
Proof.
  induction idx as [|i rest IH]; intros l l' v H; simpl in H.
  - inversion H; subst. repeat split; auto.
  - unfold np.setitem in H.
    destruct (i <? length l) eqn:Hi; [|discriminate].
    apply Nat.ltb_lt in Hi.
    apply IH in H. destruct H as (Hlen & Hall & Hnth).
    rewrite list_set_length in Hlen, Hall.
    repeat split; auto.
    intros j d. rewrite Hnth. simpl.
    destruct (existsb (Nat.eqb j) rest) eqn:Hex.
    + now rewrite orb_true_r.
    + rewrite orb_false_r. now apply nth_list_set.
Qed.

Lemma setitems_in_range {A} (idx : list nat) : forall (l : list A) v,
  Forall (fun i => i < length l) idx -> exists l', np.setitems l idx v = Ok l'.
Proof.
  induction idx as [|i rest IH]; intros l v H; simpl.
  - eauto.
  - inversion H; subst. unfold np.setitem.
    destruct (i <? length l) eqn:Hi.
    + apply IH. rewrite list_set_length. assumption.
    + apply Nat.ltb_ge in Hi. lia.
Qed.

Lemma existsb_eqb_In (j : nat) (l : list nat) :
  existsb (Nat.eqb j) l = true <-> In j l.
Proof.
  rewrite existsb_exists. split.
  - intros (x & Hx & Heq). apply Nat.eqb_eq in Heq. now subst.
  - intros H. exists j. split; auto. apply Nat.eqb_refl.
Qed.

Lemma nonzero_from_In (l : list bool) : forall k i,
  In i (np.nonzero_from k l) <-> k <= i /\ nth (i - k) l false = true.
Proof.
  induction l as [|b t IH]; intros k i; simpl.
  - split; [tauto|]. intros [_ H]. destruct (i - k); discriminate.
  - destruct b; simpl; rewrite IH.
    + split.
      * intros [<- | [Hk Hn]].
        -- rewrite Nat.sub_diag. auto.
        -- split; [lia|]. replace (i - k) with (S (i - S k)) by lia. assumption.
      * intros [Hk Hn]. destruct (Nat.eq_dec k i) as [->|Hne]; auto.
        right. split; [lia|].
        replace (i - k) with (S (i - S k)) in Hn by lia. assumption.
    + split.
      * intros [Hk Hn]. split; [lia|].
        replace (i - k) with (S (i - S k)) by lia. assumption.
      * intros [Hk Hn]. destruct (Nat.eq_dec k i) as [->|Hne].
        -- rewrite Nat.sub_diag in Hn. discriminate.
        -- split; [lia|].
           replace (i - k) with (S (i - S k)) in Hn by lia. assumption.
Qed.

Lemma nonzero_In (l : list bool) i :
  In i (np.nonzero l) <-> nth i l false = true.
Proof.
  unfold np.nonzero. rewrite nonzero_from_In, Nat.sub_0_r.
  split; [tauto|]. intros H; split; [lia|assumption].
Qed.

Lemma nonzero_from_length (l : list bool) : forall k,
  length (np.nonzero_from k l) = count_true l.
Proof.
  unfold count_true.
  induction l as [|b t IH]; intros k; simpl; auto.
  destruct b; simpl; rewrite IH; reflexivity.
Qed.

Lemma train_idx_length (l : list bool) :
  length (np.nonzero (np.eq_False l)) = count_false l.
Proof.
  unfold np.nonzero, np.eq_False. rewrite nonzero_from_length.
  unfold count_true, count_false.
  induction l as [|b t IH]; simpl; auto.
  destruct b; simpl; rewrite IH; reflexivity.
Qed.

Lemma train_idx_In (l : list bool) i :
  In i (np.nonzero (np.eq_False l)) <-> i < length l /\ nth i l true = false.
Proof.
  rewrite nonzero_In. unfold np.eq_False.
  destruct (Nat.lt_ge_cases i (length l)) as [Hlt|Hge].
  - rewrite (nth_indep _ false true) by (rewrite length_map; assumption).
    change true with (negb false) at 1. rewrite map_nth.
    destruct (nth i l false) eqn:E.
    + rewrite (nth_indep _ true false Hlt), E. simpl. split; [discriminate|intros [_ H]; discriminate].
    + rewrite (nth_indep _ true false Hlt), E. simpl. tauto.
  - rewrite nth_overflow by (rewrite length_map; assumption).
    split; [discriminate|]. intros [H _]. lia.
Qed.

(** ** Running computations *)

Arguments Nat.div : simpl never.
Arguments Nat.modulo : simpl never.

Lemma after_nil {A} (x : result A * rng_state * list event) : after [] x = x.
Proof. destruct x as [[b r2] ev2]. reflexivity. Qed.

Lemma events_after {A} ev1 (x : result A * rng_state * list event) :
  events (after ev1 x) = ev1 ++ events x.
Proof. destruct x as [[b r2] ev2]. reflexivity. Qed.

Lemma outcome_after {A} ev1 (x : result A * rng_state * list event) :
  outcome (after ev1 x) = outcome x.
Proof. destruct x as [[b r2] ev2]. reflexivity. Qed.

Lemma bind_ok {A B} (m : M A) (k : A -> M B) r a r1 ev1 :
  m r = (Ok a, r1, ev1) -> bind m k r = after ev1 (k a r1).
Proof. intros H. unfold bind, after. rewrite H. reflexivity. Qed.

Lemma bind_raise {A B} (m : M A) (k : A -> M B) r e r1 ev1 :
  m r = (Raise e, r1, ev1) -> bind m k r = (Raise e, r1, ev1).
Proof. intros H. unfold bind. rewrite H. reflexivity. Qed.

Lemma bind_lift_ok {A B} (a : A) (k : A -> M B) r : bind (lift (Ok a)) k r = k a r.
Proof. rewrite (bind_ok _ _ r a r []) by reflexivity. apply after_nil. Qed.

Lemma bind_lift_raise {A B} (e : exn) (k : A -> M B) r :
  bind (lift (Raise e)) k r = (Raise e, r, []).
Proof. reflexivity. Qed.

Lemma bind_ret {A B} (a : A) (k : A -> M B) r : bind (ret a) k r = k a r.
Proof. apply (bind_lift_ok a k r). Qed.

Lemma bind_emit {B} (e : event) (k : unit -> M B) r :
  bind (emit e) k r = after [e] (k tt r).
Proof. apply bind_ok. reflexivity. Qed.

Lemma events_bind {A B} (m : M A) (k : A -> M B) r :
  exists rest, events (bind m k r) = events (m r) ++ rest.
Proof.
  destruct (m r) as [[[a|e] r1] ev1] eqn:H.
  - rewrite (bind_ok _ _ _ _ _ _ H), events_after. eauto.
  - rewrite (bind_raise _ _ _ _ _ _ H). exists []. simpl. now rewrite app_nil_r.
Qed.

(** ** Draws *)

Lemma choice_run (a : list nat) (r : rng_state) :
  a <> [] ->
  choice a r =
    (Ok (nth (tape r (cursor r) mod length a) a 0), mk_rng (tape r) (S (cursor r)), []).
Proof.
  destruct a as [|x t]; [congruence|]. intros _. reflexivity.
Qed.

Lemma choice_loop_run (a : list nat) : a <> [] -> forall n r,
  exists xs r', choice_loop a n r = (Ok xs, r', []) /\
                length xs = n /\ Forall (fun x => In x a) xs.
Proof.
  intros Ha. induction n as [|n IH]; intros r.
  - exists [], r. repeat split; auto.
  - simpl. rewrite (bind_ok _ _ _ _ _ _ (choice_run a r Ha)), after_nil.
    destruct (IH (mk_rng (tape r) (S (cursor r)))) as (xs & r' & Hrun & Hlen & Hall).
    rewrite (bind_ok _ _ _ _ _ _ Hrun), after_nil.
    eexists; eexists; split; [reflexivity|]. split; [simpl; lia|].
    constructor; auto. apply nth_In. apply Nat.mod_upper_bound.
    destruct a; simpl; [congruence|lia].
Qed.

Lemma choice_n_run (a : list nat) n r :
  a <> [] \/ n = 0 ->
  exists xs r', choice_n a n r = (Ok xs, r', []) /\
                length xs = n /\ Forall (fun x => In x a) xs.
Proof.
  intros [Ha| ->].
  - now apply choice_loop_run.
  - exists [], r. repeat split; auto.
Qed.

Lemma choice_n_cases (a : list nat) : forall n r,
  (exists e r', choice_n a n r = (Raise e, r', [])) \/
  (exists xs r', choice_n a n r = (Ok xs, r', []) /\
                 length xs = n /\ Forall (fun x => In x a) xs).
Proof.
  intros n r. destruct a as [|x t].
  - destruct n as [|n].
    + right. exists [], r. repeat split; auto.
    + left. exists ValueError, r. reflexivity.
  - right. apply choice_n_run. left. discriminate.
Qed.

(** ** The validation split *)

Lemma gt0_nth_set (l l' : list Q) (idx : list nat) j :
  (forall i, nth i l 0%Q = 0%Q) ->
  np.setitems l idx 1%Q = Ok l' ->
  nth j (map (fun v => Qlt_bool 0 v) l') false = true <-> In j idx.
Proof.
  intros Hz Hset. apply setitems_ok in Hset. destruct Hset as (_ & _ & Hnth).
  change false with ((fun v => Qlt_bool 0 v) 0%Q) at 1.
  rewrite map_nth, Hnth, Hz.
  destruct (existsb (Nat.eqb j) idx) eqn:E.
  - apply existsb_eqb_In in E. split; auto.
  - split; [discriminate|]. intros H. apply existsb_eqb_In in H. congruence.
Qed.

Lemma nth_repeat_zero n i : nth i (repeat 0%Q n) 0%Q = 0%Q.
Proof.
  revert i; induction n as [|n IH]; intros [|i]; simpl; auto.
Qed.

Lemma count_true_list_set (f : Q -> bool) (l : list Q) : forall i v,
  count_true (map f (np.list_set l i v)) <= S (count_true (map f l)).
Proof.
  unfold count_true.
  induction l as [|h t IH]; intros [|i] v; simpl; auto.
  - destruct (f v), (f h); simpl; lia.
  - specialize (IH i v). destruct (f h); simpl; lia.
Qed.

Lemma count_true_setitems (f : Q -> bool) (idx : list nat) : forall l l' v,
  np.setitems l idx v = Ok l' ->
  count_true (map f l') <= count_true (map f l) + length idx.
Proof.
  induction idx as [|i rest IH]; intros l l' v H; simpl in H.
  - inversion H; subst. simpl. lia.
  - unfold np.setitem in H. destruct (i <? length l); [|discriminate].
    apply IH in H. pose proof (count_true_list_set f l i v). simpl. lia.
Qed.

Lemma count_true_gt0_zeros n :
  count_true (map (fun v => Qlt_bool 0 v) (repeat 0%Q n)) = 0.
Proof.
  unfold count_true. induction n as [|n IH]; simpl; auto.
Qed.

(** What a run of the split is: it raises before any event, or it emits
    the one event that records its draw. *)
Lemma validation_split_cases X mask pv r :
  (exists e r', validation_split X mask pv r = (Raise e, r', [])) \/
  (exists vidx l' r',
      let train_idx := np.nonzero (np.eq_False (data mask)) in
      let V := np.gt0 (mk_ndarray (nrows X) (ncols X) l') in
      validation_split X mask pv r = (Ok V, r', [EvValidation train_idx vidx V]) /\
      size mask = size X /\
      length vidx = length train_idx * pv / 100 /\
      Forall (fun x => In x train_idx) vidx /\
      np.setitems (repeat 0%Q (size X)) vidx 1%Q = Ok l').
Proof.
  unfold validation_split, np.reshape_flat.
  destruct (size mask =? size X) eqn:Hsz.
  2:{ left. exists ValueError, r. reflexivity. }
  apply Nat.eqb_eq in Hsz. rewrite bind_lift_ok.
  destruct (choice_n_cases (np.nonzero (np.eq_False (data mask)))
              (length (np.nonzero (np.eq_False (data mask))) * pv / 100) r)
    as [(e & r' & Hc) | (xs & r' & Hc & Hlen & Hall)].
  { left. exists e, r'. now rewrite (bind_raise _ _ _ _ _ _ Hc). }
  rewrite (bind_ok _ _ _ _ _ _ Hc), after_nil.
  destruct (np.setitems (repeat 0%Q (size X)) xs 1%Q) as [l'|e] eqn:Hset.
  2:{ left. exists e, r'. reflexivity. }
  rewrite bind_lift_ok. unfold np.reshape_2d.
  pose proof (setitems_ok _ _ _ _ Hset) as (Hl' & _ & _).
  rewrite repeat_length in Hl'. unfold size in Hl' at 1.
  rewrite Hl', Nat.eqb_refl, bind_lift_ok, bind_emit.
  right. exists xs, l', r'. repeat split; auto.
Qed.

(** ** The search loop and the refit *)

Lemma count_fits_app (a b : list event) : count_fits (a ++ b) = count_fits a + count_fits b.
Proof. unfold count_fits. now rewrite filter_app, length_app. Qed.

Lemma trained_app (a b : list event) : trained (a ++ b) = trained a ++ trained b.
Proof.
  induction a as [|e a IH]; simpl; auto.
  destruct e; simpl; auto. now rewrite IH.
Qed.

Lemma fit_run ph F params Xi r :
  exists out r', fit_transform F params Xi r = (out, r') /\
                 fit ph F params Xi r = (out, r', [EvFit ph (adapter_name F) params Xi out]).
Proof.
  unfold fit. destruct (fit_transform F params Xi r) as [out r'].
  exists out, r'. split; reflexivity.
Qed.

Lemma hpo_step_cases F X Xi V acc params r :
  exists out r',
    fit_transform F params Xi r = (out, r') /\
    ((exists e, hpo_step F X Xi V acc params r =
                (Raise e, r', [EvFit Search (adapter_name F) params Xi out])) \/
     (exists Ximp m,
         out = Ok Ximp /\ evaluate_mse Ximp X V = Ok m /\
         hpo_step F X Xi V acc params r =
         (Ok (acc ++ [m]), r',
          [EvFit Search (adapter_name F) params Xi out;
           EvTrained (adapter_name F) params m]))).
Proof.
  destruct (fit_run Search F params Xi r) as (out & r' & Hft & Hfit).
  exists out, r'. split; [assumption|]. unfold hpo_step.
  destruct out as [Ximp|e].
  - rewrite (bind_ok _ _ _ _ _ _ Hfit).
    destruct (evaluate_mse Ximp X V) as [m|e] eqn:Hm.
    + right. exists Ximp, m. repeat split; auto.
    + left. exists e. rewrite bind_lift_raise. reflexivity.
  - left. exists e. now rewrite (bind_raise _ _ _ _ _ _ Hfit).
Qed.

Lemma search_loop_trace F X Xi V (cands : list candidate) : forall acc r,
  let x := for_each cands (hpo_step F X Xi V) acc r in
  Forall (search_event (adapter_name F) Xi) (events x) /\
  count_fits (events x) <= length cands /\
  forall res, outcome x = Ok res ->
    count_fits (events x) = length cands /\
    res = acc ++ map snd (trained (events x)) /\
    map fst (trained (events x)) = cands.
Proof.
  induction cands as [|p rest IH]; intros acc r; simpl.
  - split; [constructor|]. split; [auto|].
    intros res H. inversion H; subst.
    split; [reflexivity|]. split; [|reflexivity]. simpl. now rewrite app_nil_r.
  - destruct (hpo_step_cases F X Xi V acc p r)
      as (out & r' & Hft & [(e & Hs) | (Ximp & m & -> & Hm & Hs)]).
    + rewrite (bind_raise _ _ _ _ _ _ Hs). simpl.
      split; [|split].
      * constructor; [simpl; auto|constructor].
      * unfold count_fits. simpl. lia.
      * intros res H. discriminate.
    + rewrite (bind_ok _ _ _ _ _ _ Hs).
      specialize (IH (acc ++ [m]) r'). simpl in IH.
      destruct IH as (Hall & Hcnt & Hok).
      rewrite events_after, outcome_after.
      split; [|split].
      * constructor; [simpl; auto|]. constructor; [simpl; auto|]. assumption.
      * rewrite count_fits_app. unfold count_fits at 1. simpl. lia.
      * intros res H. apply Hok in H. destruct H as (Hc1 & Hc2 & Hc3).
        rewrite count_fits_app, trained_app. unfold count_fits at 1. simpl.
        split; [lia|]. split.
        -- rewrite Hc2. now rewrite <- app_assoc.
        -- now rewrite Hc3.
Qed.

Lemma same_shape_dims {A B} (a : ndarray A) (b : ndarray B) :
  same_shape a b = true -> nrows a = nrows b /\ ncols a = ncols b.
Proof.
  unfold same_shape. intros H. apply andb_prop in H. destruct H as [H1 H2].
  apply Nat.eqb_eq in H1, H2. auto.
Qed.

Lemma hide_copy X (hidden : ndarray bool) :
  same_shape (np.copy X) hidden = true ->
  np.setitem_mask (np.copy X) hidden NaN = Ok (hide X (data hidden)).
Proof. intros H. unfold np.setitem_mask. rewrite H. reflexivity. Qed.

Lemma same_shape_copy X (m : ndarray bool) : same_shape (np.copy X) m = same_shape X m.
Proof. reflexivity. Qed.

Lemma map2_nil_r {A B C} (f : A -> B -> C) (l : list A) : np.map2 f l [] = [].
Proof. destruct l; reflexivity. Qed.

Lemma broadcast_to_empty {A} (a : ndarray A) (r c : nat) (d : A) :
  r * c = 0 -> np.broadcast_to a r c d = [].
Proof.
  intros H. unfold np.broadcast_to. destruct c as [|c].
  - simpl. induction (seq 0 r) as [|i l IH]; simpl; auto.
  - destruct r as [|r]; [reflexivity|]. simpl in H. lia.
Qed.

(** Operands of one size and of unequal shapes broadcast to the shape
    of the second one only when they are empty. *)
Lemma broadcast_same_size (a b n m : nat) :
  (a =? n) && (b =? m) = false -> a * b = n * m ->
  np.broadcast_dim a n = Some n -> np.broadcast_dim b m = Some m ->
  n * m = 0.
Proof.
  unfold np.broadcast_dim. intros Hsh Hsz Ha Hb.
  apply andb_false_iff in Hsh. rewrite !Nat.eqb_neq in Hsh.
  destruct (Nat.eqb_spec a n) as [Han|Han], (Nat.eqb_spec b m) as [Hbm|Hbm].
  - lia.
  - destruct (Nat.eqb_spec b 1); [nia|].
    destruct (Nat.eqb_spec m 1); inversion Hb; lia.
  - destruct (Nat.eqb_spec a 1); [nia|].
    destruct (Nat.eqb_spec n 1); inversion Ha; lia.
  - destruct (Nat.eqb_spec a 1); [|destruct (Nat.eqb_spec n 1); inversion Ha; lia].
    destruct (Nat.eqb_spec b 1); [nia|].
    destruct (Nat.eqb_spec m 1); inversion Hb; lia.
Qed.

(** What a run of lines 49-57 is, on a validation mask of the shape of
    the matrix.  The loop is entered when the evaluation mask has the
    shape of the matrix, and also when it broadcasts to it, which masks
    of the size of the matrix do on empty matrices only. *)
Lemma hpo_search_trace F cands X M V r :
  size M = size X -> same_shape X V = true -> well_formed V ->
  let x := hpo_search F cands X M V r in
  let Xi := hide X (np.map2 orb (data M) (data V)) in
  Forall (search_event (adapter_name F) Xi) (events x) /\
  count_fits (events x) <= length cands /\
  (events x <> [] -> same_shape X M = true \/ size X = 0) /\
  forall res, outcome x = Ok res ->
    count_fits (events x) = length cands /\
    res = map snd (trained (events x)) /\
    map fst (trained (events x)) = cands.
Proof.
  intros Hsz HXV HwV.
  unfold hpo_search, np.logical_or.
  destruct (same_shape M V) eqn:HMV.
  - rewrite bind_lift_ok.
    assert (HX : same_shape (np.copy X)
                   (mk_ndarray (nrows M) (ncols M) (np.map2 orb (data M) (data V)))
                 = same_shape X M) by reflexivity.
    destruct (same_shape X M) eqn:HXM.
    2:{ unfold np.setitem_mask. rewrite HX, bind_lift_raise. simpl.
        split; [constructor|]. split; [apply Nat.le_0_l|]. split; [congruence|].
        intros res H. discriminate. }
    rewrite (hide_copy _ _ HX), bind_lift_ok. simpl data.
    destruct (search_loop_trace F X (hide X (np.map2 orb (data M) (data V))) V cands [] r)
      as (Hall & Hcnt & Hok).
    split; [assumption|]. split; [assumption|]. split; [auto|].
    intros res H. apply Hok in H. tauto.
  - destruct (np.broadcast_dim (nrows M) (nrows V)) as [br|] eqn:Hbr.
    2:{ rewrite bind_lift_raise. simpl.
        split; [constructor|]. split; [apply Nat.le_0_l|]. split; [congruence|].
        intros res H. discriminate. }
    destruct (np.broadcast_dim (ncols M) (ncols V)) as [bc|] eqn:Hbc.
    2:{ rewrite bind_lift_raise. simpl.
        split; [constructor|]. split; [apply Nat.le_0_l|]. split; [congruence|].
        intros res H. discriminate. }
    rewrite bind_lift_ok. unfold np.setitem_mask.
    destruct (same_shape (np.copy X)
                (mk_ndarray br bc
                   (np.map2 orb (np.broadcast_to M br bc false)
                                (np.broadcast_to V br bc false)))) eqn:Hsh.
    2:{ rewrite bind_lift_raise. simpl.
        split; [constructor|]. split; [apply Nat.le_0_l|]. split; [congruence|].
        intros res H. discriminate. }
    rewrite bind_lift_ok.
    unfold same_shape in Hsh. simpl in Hsh. apply andb_prop in Hsh.
    destruct Hsh as [Hr Hc]. apply Nat.eqb_eq in Hr, Hc. subst br bc.
    pose proof (same_shape_dims _ _ HXV) as (HnV & HmV).
    assert (Hzero : size X = 0).
    { unfold size in *. rewrite <- HnV in Hbr. rewrite <- HmV in Hbc.
      apply (broadcast_same_size (nrows M) (ncols M)); try assumption.
      unfold same_shape in HMV. now rewrite <- HnV, <- HmV in HMV. }
    assert (HV : data V = []).
    { apply length_zero_iff_nil. unfold well_formed, size in *.
      rewrite HwV, <- HnV, <- HmV. assumption. }
    unfold size in Hzero.
    rewrite !broadcast_to_empty by assumption. simpl (np.map2 orb [] []).
    simpl nrows. simpl ncols. simpl data.
    assert (HXi : hide X (np.map2 orb (data M) (data V)) =
                  mk_ndarray (nrows X) (ncols X)
                    (np.map2 (fun (x : number) (b : bool) => if b then NaN else x)
                             (map Num (data X)) [])).
    { unfold hide. now rewrite HV, map2_nil_r. }
    rewrite HXi.
    destruct (search_loop_trace F X
                (mk_ndarray (nrows X) (ncols X)
                   (np.map2 (fun (x : number) (b : bool) => if b then NaN else x)
                            (map Num (data X)) [])) V cands [] r)
      as (Hall & Hcnt & Hok).
    split; [assumption|]. split; [assumption|]. split; [auto|].
    intros res H. apply Hok in H. tauto.
Qed.

Lemma hpo_refit_trace F cands X M mses r :
  let x := hpo_refit F cands X M mses r in
  refit_trace F cands X M mses (events x) (outcome x).
Proof.
  unfold hpo_refit, refit_trace.
  destruct (np.argmin mses) as [i|e] eqn:Hi.
  2:{ left. rewrite bind_lift_raise. cbn. eauto. }
  rewrite bind_lift_ok. unfold index.
  destruct (nth_error cands i) as [best|] eqn:Hb.
  2:{ left. rewrite bind_lift_raise. cbn. eauto. }
  rewrite bind_lift_ok.
  destruct (same_shape X M) eqn:HXM.
  2:{ left. unfold np.setitem_mask. rewrite same_shape_copy, HXM, bind_lift_raise.
      cbn. eauto. }
  rewrite hide_copy, bind_lift_ok by (now rewrite same_shape_copy).
  destruct (fit_run Refit F best (hide X (data M)) r) as (out & r' & Hft & Hfit).
  right. exists i, best, out, r, r'. repeat (split; [reflexivity || assumption|]).
  destruct out as [Ximp|e].
  - rewrite (bind_ok _ _ _ _ _ _ Hfit).
    destruct (evaluate_mse Ximp X M) as [m|e] eqn:Hm.
    + right. exists Ximp, m.
      rewrite bind_lift_ok, bind_emit. cbn. auto.
    + left. rewrite bind_lift_raise. cbn. eauto.
  - left. rewrite (bind_raise _ _ _ _ _ _ Hfit). cbn. eauto.
Qed.

(** What a run of the whole search is: the event of the split, the
    events of the loop, the events of the refit. *)
Lemma hpo_trace F g X M pv r :
  let x := fancyimpute_hpo F g X M pv r in
  let cands := dict_product g in
  let train_idx := np.nonzero (np.eq_False (data M)) in
  (events x = [] /\ exists e, outcome x = Raise e) \/
  exists vidx l' evs evr,
    let V := np.gt0 (mk_ndarray (nrows X) (ncols X) l') in
    events x = EvValidation train_idx vidx V :: evs ++ evr /\
    size M = size X /\
    length vidx = length train_idx * pv / 100 /\
    Forall (fun i => In i train_idx) vidx /\
    np.setitems (repeat 0%Q (size X)) vidx 1%Q = Ok l' /\
    Forall (search_event (adapter_name F) (hide X (np.map2 orb (data M) (data V)))) evs /\
    count_fits evs <= length cands /\
    (evs <> [] -> same_shape X M = true \/ size X = 0) /\
    ((evr = [] /\ exists e, outcome x = Raise e) \/
     (count_fits evs = length cands /\
      map fst (trained evs) = cands /\
      refit_trace F cands X M (map snd (trained evs)) evr (outcome x))).
Proof.
  unfold fancyimpute_hpo.
  destruct (validation_split_cases X M pv r)
    as [(e & r' & Hv) | (vidx & l' & r' & Hv & Hsz & Hlen & Hall & Hset)].
  { left. rewrite (bind_raise _ _ _ _ _ _ Hv). cbn. eauto. }
  right. simpl in Hv. rewrite (bind_ok _ _ _ _ _ _ Hv).
  set (V := np.gt0 (mk_ndarray (nrows X) (ncols X) l')) in *.
  assert (HXV : same_shape X V = true).
  { unfold same_shape. simpl. now rewrite !Nat.eqb_refl. }
  assert (HwV : well_formed V).
  { pose proof (setitems_ok _ _ _ _ Hset) as (Hl' & _ & _).
    rewrite repeat_length in Hl'.
    unfold well_formed, V. simpl. now rewrite length_map. }
  pose proof (hpo_search_trace F (dict_product g) X M V r' Hsz HXV HwV) as Hs.
  simpl in Hs. destruct Hs as (Hse & Hcnt & Hne & Hok).
  destruct (hpo_search F (dict_product g) X M V r') as [[[mses|e] r''] evs] eqn:Hrun.
  - rewrite (bind_ok _ _ _ _ _ _ Hrun).
    pose proof (hpo_refit_trace F (dict_product g) X M mses r'') as Hr.
    simpl in Hr.
    destruct (Hok mses eq_refl) as (Hc & Hm & Hf).
    exists vidx, l', evs, (events (hpo_refit F (dict_product g) X M mses r'')).
    rewrite !events_after, !outcome_after. simpl in *.
    repeat (split; [reflexivity || assumption|]).
    right. rewrite <- Hm. auto.
  - rewrite (bind_raise _ _ _ _ _ _ Hrun).
    exists vidx, l', evs, []. simpl in *. rewrite app_nil_r.
    repeat (split; [reflexivity || assumption|]).
    left. split; [reflexivity|]. exists e. reflexivity.
Qed.

(** ** The validation mask *)

Lemma hpo_validation_event F g X M pv r t vidx V :
  In (EvValidation t vidx V) (events (fancyimpute_hpo F g X M pv r)) ->
  t = np.nonzero (np.eq_False (data M)) /\
  Forall (fun i => In i t) vidx /\
  exists l', np.setitems (repeat 0%Q (size X)) vidx 1%Q = Ok l' /\
             V = np.gt0 (mk_ndarray (nrows X) (ncols X) l').
Proof.
  intros Hin.
  destruct (hpo_trace F g X M pv r) as [(Hnil & _) | Hrun].
  { rewrite Hnil in Hin. destruct Hin. }
  destruct Hrun as (vidx' & l' & evs & evr & Hev & _ & _ & Hall & Hset & Hse & _ & _ & Hr).
  rewrite Hev in Hin. destruct Hin as [Heq | Hin].
  - inversion Heq; subst. split; [reflexivity|]. split; [assumption|]. eauto.
  - exfalso. apply in_app_or in Hin. destruct Hin as [Hin | Hin].
    + rewrite Forall_forall in Hse. apply Hse in Hin. exact Hin.
    + destruct Hr as [(-> & _) | (_ & _ & Hr)]; [destruct Hin|].
      destruct Hr as [(-> & _) | (i & best & out & r0 & r1 & _ & _ & _ & _ & Hr)];
        [destruct Hin|].
      destruct Hr as [(-> & _) | (Ximp & m & _ & _ & -> & _)];
        simpl in Hin; intuition discriminate.
Qed.

Lemma validation_off_mask (M : ndarray bool) (n : nat) vidx l' i :
  Forall (fun j => In j (np.nonzero (np.eq_False (data M)))) vidx ->
  np.setitems (repeat 0%Q n) vidx 1%Q = Ok l' ->
  nth i (data M) false = true ->
  nth i (map (fun v => Qlt_bool 0 v) l') false = true ->
  False.
Proof.
  intros Hall Hset HM HV.
  apply (gt0_nth_set _ _ _ _ (nth_repeat_zero n) Hset) in HV.
  rewrite Forall_forall in Hall. apply Hall in HV.
  apply train_idx_In in HV. destruct HV as [Hlt HV].
  rewrite (nth_indep _ true false Hlt) in HV. congruence.
Qed.

(** C6, as amended: in every execution of the hyperparameter search the
    validation mask and the evaluation mask are disjoint in index space;
    the validation indices are drawn among the positions where the
    evaluation mask is false, so no entry is true in both masks. *)
Theorem validation_mask_disjoint F g X M pv r t vidx V :
  In (EvValidation t vidx V) (events (fancyimpute_hpo F g X M pv r)) ->
  forall i, ~ (nth i (data M) false = true /\ nth i (data V) false = true).
Proof.
  intros Hin i [HM HV].
  apply hpo_validation_event in Hin.
  destruct Hin as (-> & Hall & l' & Hset & ->).
  exact (validation_off_mask M _ vidx l' i Hall Hset HM HV).
Qed.

(** C6, as stated, fails: no execution of the search has an entry that
    is true in both masks. *)
Lemma validation_mask_overlap_impossible :
  ~ exists F g X M pv r t vidx V i,
      In (EvValidation t vidx V) (events (fancyimpute_hpo F g X M pv r)) /\
      nth i (data M) false = true /\ nth i (data V) false = true.
Proof.
  intros (F & g & X & M & pv & r & t & vidx & V & i & Hin & HM & HV).
  apply hpo_validation_event in Hin.
  destruct Hin as (-> & Hall & l' & Hset & ->).
  exact (validation_off_mask M _ vidx l' i Hall Hset HM HV).
Qed.

Lemma validation_split_ok X M pv r vidx r' :
  size M = size X ->
  well_formed M ->
  let train_idx := np.nonzero (np.eq_False (data M)) in
  choice_n train_idx (length train_idx * pv / 100) r = (Ok vidx, r', []) ->
  Forall (fun i => In i train_idx) vidx ->
  exists l',
    let V := np.gt0 (mk_ndarray (nrows X) (ncols X) l') in
    np.setitems (repeat 0%Q (size X)) vidx 1%Q = Ok l' /\
    validation_split X M pv r = (Ok V, r', [EvValidation train_idx vidx V]).
Proof.
  intros Hsz Hwf train_idx Hc Hall.
  destruct (setitems_in_range vidx (repeat 0%Q (size X)) 1%Q) as (l' & Hset).
  { rewrite repeat_length. rewrite Forall_forall in *. intros i Hi.
    apply Hall, train_idx_In in Hi. unfold well_formed in Hwf. lia. }
  exists l'. split; [assumption|].
  unfold validation_split, np.reshape_flat.
  rewrite Hsz, Nat.eqb_refl, bind_lift_ok.
  fold train_idx. rewrite (bind_ok _ _ _ _ _ _ Hc), after_nil.
  rewrite Hset, bind_lift_ok. unfold np.reshape_2d.
  pose proof (setitems_ok _ _ _ _ Hset) as (Hl' & _ & _).
  rewrite repeat_length in Hl'. unfold size in Hl' at 1.
  rewrite Hl', Nat.eqb_refl, bind_lift_ok, bind_emit. reflexivity.
Qed.

Lemma hpo_starts_with_split F g X M pv r V r' ev :
  validation_split X M pv r = (Ok V, r', [ev]) ->
  exists rest, events (fancyimpute_hpo F g X M pv r) = ev :: rest.
Proof.
  intros H. unfold fancyimpute_hpo.
  rewrite (bind_ok _ _ _ _ _ _ H), events_after. simpl. eauto.
Qed.

(** Any sequence of positions is the draw of the tape that lists it. *)
Lemma choice_loop_replay (a : list nat) (tp : nat -> nat) :
  a <> [] -> forall picks c,
  Forall (fun j => j < length a) picks ->
  (forall k, k < length picks -> tp (c + k) = nth k picks 0) ->
  choice_loop a (length picks) (mk_rng tp c) =
    (Ok (map (fun j => nth j a 0) picks), mk_rng tp (c + length picks), []).
Proof.
  intros Ha. induction picks as [|p ps IH]; intros c Hall Htp.
  - simpl. now rewrite Nat.add_0_r.
  - simpl. inversion Hall; subst.
    rewrite (bind_ok _ _ _ _ _ _ (choice_run a _ Ha)), after_nil. simpl.
    rewrite (bind_ok _ _ _ _ _ _ (IH (S c) H2 (fun k Hk =>
               eq_trans (f_equal tp (eq_sym (Nat.add_succ_r c k)))
                        (Htp (S k) (proj1 (Nat.succ_lt_mono _ _) Hk))))),
      after_nil.
    pose proof (Htp 0 (Nat.lt_0_succ _)) as H0. rewrite Nat.add_0_r in H0. simpl in H0.
    rewrite H0, Nat.mod_small by assumption.
    unfold ret. now rewrite Nat.add_succ_r.
Qed.

Lemma count_true_at_most_one (l : list bool) :
  (forall i j, nth i l false = true -> nth j l false = true -> i = j) ->
  count_true l <= 1.
Proof.
  unfold count_true. induction l as [|b t IH]; intros H; simpl; [lia|].
  destruct b; simpl.
  - assert (Hz : filter (fun b => b) t = []).
    { destruct (filter (fun b => b) t) as [|x rest] eqn:E; auto.
      assert (Hin : In x (filter (fun b => b) t)) by (rewrite E; now left).
      apply filter_In in Hin. destruct Hin as [Hin Hx]. subst x.
      destruct (In_nth _ _ false Hin) as (k & _ & Hk).
      specialize (H 0 (S k) eq_refl Hk). discriminate. }
    rewrite Hz. simpl. lia.
  - apply IH. intros i j Hi Hj. specialize (H (S i) (S j) Hi Hj). lia.
Qed.

Lemma hpo_replay F g X M pv picks :
  well_formed M -> size M = size X ->
  let train_idx := np.nonzero (np.eq_False (data M)) in
  length picks = length train_idx * pv / 100 ->
  Forall (fun j => j < length train_idx) picks ->
  exists r' l' rest,
    let vidx := map (fun j => nth j train_idx 0) picks in
    np.setitems (repeat 0%Q (size X)) vidx 1%Q = Ok l' /\
    events (fancyimpute_hpo F g X M pv r') =
      EvValidation train_idx vidx (np.gt0 (mk_ndarray (nrows X) (ncols X) l')) :: rest.
Proof.
  intros Hwf Hsz train_idx Hlen Hall.
  set (tp := fun k => nth k picks 0).
  assert (Hc : choice_n train_idx (length train_idx * pv / 100) (mk_rng tp 0) =
               (Ok (map (fun j => nth j train_idx 0) picks),
                mk_rng tp (0 + length picks), [])).
  { rewrite <- Hlen. unfold choice_n.
    destruct train_idx as [|x t] eqn:E.
    - destruct picks as [|p ps]; [reflexivity|].
      inversion Hall; subst. simpl in *. lia.
    - apply choice_loop_replay; auto. discriminate. }
  assert (Hin : Forall (fun i => In i train_idx)
                  (map (fun j => nth j train_idx 0) picks)).
  { rewrite Forall_forall in *. intros i Hi. apply in_map_iff in Hi.
    destruct Hi as (j & <- & Hj). apply nth_In. auto. }
  destruct (validation_split_ok X M pv _ _ _ Hsz Hwf Hc Hin) as (l' & Hset & Hrun).
  destruct (hpo_starts_with_split F g X M pv _ _ _ _ Hrun) as (rest & Hev).
  exists (mk_rng tp 0), l', rest. split; assumption.
Qed.

Lemma nonzero_from_NoDup (l : list bool) : forall k, NoDup (np.nonzero_from k l).
Proof.
  induction l as [|b t IH]; intros k; simpl; [constructor|].
  destruct b; [|apply IH]. constructor; [|apply IH].
  rewrite nonzero_from_In. lia.
Qed.

(** A boolean buffer that marks the positions of [idx] has as many true
    cells as [idx] has distinct positions. *)
Lemma count_true_marks (l : list bool) (idx : list nat) :
  (forall i, nth i l false = true <-> In i idx) ->
  count_true l = length (nodup Nat.eq_dec idx).
Proof.
  intros H. rewrite <- (nonzero_from_length l 0).
  apply Permutation_length, NoDup_Permutation.
  - apply nonzero_from_NoDup.
  - apply NoDup_nodup.
  - intros i. fold (np.nonzero l). rewrite nonzero_In, nodup_In. apply H.
Qed.

Lemma nodup_length_le (l : list nat) : length (nodup Nat.eq_dec l) <= length l.
Proof.
  induction l as [|x l IH]; simpl; [lia|].
  destruct (in_dec Nat.eq_dec x l); simpl; lia.
Qed.

Lemma nodup_length_lt (l : list nat) :
  length (nodup Nat.eq_dec l) < length l <-> ~ NoDup l.
Proof.
  split.
  - intros Hlt Hnd. rewrite (nodup_fixed_point Nat.eq_dec Hnd) in Hlt. lia.
  - intros Hnd. pose proof (nodup_length_le l) as Hle.
    destruct (Nat.eq_dec (length (nodup Nat.eq_dec l)) (length l)) as [E|E]; [|lia].
    exfalso. apply Hnd.
    apply NoDup_incl_NoDup with (l := nodup Nat.eq_dec l).
    + apply NoDup_nodup.
    + lia.
    + intros i Hi. now apply nodup_In in Hi.
Qed.

Lemma count_true_pos (l : list bool) i : nth i l false = true -> 0 < count_true l.
Proof.
  intros H. rewrite <- (nonzero_from_length l 0). fold (np.nonzero l).
  apply nonzero_In in H. destruct (np.nonzero l); [destruct H|simpl; lia].
Qed.

(** C7: the search draws exactly floor(percent_validation/100 times the
    number of entries outside the evaluation mask) validation indices,
    each among the entries outside the mask and each from the whole of
    them (every sequence of that many positions, repeats included, is
    the draw of some execution).  The validation mask marks exactly the
    indices drawn, so its true entries are as many as the distinct
    indices: at most the number drawn, and fewer exactly when an index
    was drawn twice, which happens in some execution as soon as two
    indices are drawn. *)
Theorem validation_draw_with_replacement F g X M pv r :
  well_formed M -> size M = size X ->
  let train_idx := np.nonzero (np.eq_False (data M)) in
  let n_validation := count_false (data M) * pv / 100 in
  (forall i, In i train_idx <-> i < length (data M) /\ nth i (data M) true = false) /\
  (exists vidx V rest,
      events (fancyimpute_hpo F g X M pv r) = EvValidation train_idx vidx V :: rest /\
      length vidx = n_validation /\
      Forall (fun i => In i train_idx) vidx /\
      (forall i, nth i (data V) false = true <-> In i vidx) /\
      count_true (data V) = length (nodup Nat.eq_dec vidx) /\
      count_true (data V) <= n_validation /\
      (count_true (data V) < n_validation <-> ~ NoDup vidx)) /\
  (forall picks,
      length picks = n_validation ->
      Forall (fun j => j < length train_idx) picks ->
      exists r' V rest,
        events (fancyimpute_hpo F g X M pv r') =
          EvValidation train_idx (map (fun j => nth j train_idx 0) picks) V :: rest /\
        (forall i, nth i (data V) false = true <->
                   In i (map (fun j => nth j train_idx 0) picks))) /\
  (2 <= n_validation ->
   exists r' vidx V rest,
     events (fancyimpute_hpo F g X M pv r') = EvValidation train_idx vidx V :: rest /\
     ~ NoDup vidx /\
     (forall i, nth i (data V) false = true <-> In i vidx) /\
     0 < count_true (data V) < n_validation).
Proof.
  intros Hwf Hsz train_idx n_validation.
  assert (Hn : n_validation = length train_idx * pv / 100).
  { unfold n_validation, train_idx. now rewrite train_idx_length. }
  split; [intros i; apply train_idx_In|]. split; [|split].
  - destruct (choice_n_run train_idx (length train_idx * pv / 100) r)
      as (vidx & r' & Hc & Hlen & Hall).
    { destruct train_idx; [right; reflexivity|left; discriminate]. }
    destruct (validation_split_ok X M pv _ _ _ Hsz Hwf Hc Hall) as (l' & Hset & Hrun).
    destruct (hpo_starts_with_split F g X M pv _ _ _ _ Hrun) as (rest & Hev).
    exists vidx, (np.gt0 (mk_ndarray (nrows X) (ncols X) l')), rest.
    assert (Hmarks : forall i,
               nth i (data (np.gt0 (mk_ndarray (nrows X) (ncols X) l'))) false = true <->
               In i vidx).
    { intros i. simpl. exact (gt0_nth_set _ _ _ _ (nth_repeat_zero _) Hset). }
    pose proof (count_true_marks _ _ Hmarks) as Hcnt.
    pose proof (nodup_length_le vidx) as Hle.
    pose proof (nodup_length_lt vidx) as Hlt.
    split; [assumption|]. split; [lia|]. split; [assumption|].
    split; [assumption|]. split; [assumption|]. split; [lia|].
    rewrite Hcnt, Hn, <- Hlen. assumption.
  - intros picks Hlen Hall. rewrite Hn in Hlen.
    destruct (hpo_replay F g X M pv picks Hwf Hsz Hlen Hall)
      as (r' & l' & rest & Hset & Hev).
    exists r'. eexists. exists rest. split; [exact Hev|].
    intros i. simpl. exact (gt0_nth_set _ _ _ _ (nth_repeat_zero _) Hset).
  - intros Hge.
    assert (Hpos : 0 < length train_idx).
    { destruct (length train_idx) eqn:E; [|lia].
      rewrite Hn in Hge. simpl in Hge. rewrite Nat.Div0.div_0_l in Hge. lia. }
    destruct (hpo_replay F g X M pv (repeat 0 n_validation) Hwf Hsz)
      as (r' & l' & rest & Hset & Hev).
    { now rewrite repeat_length. }
    { apply Forall_forall. intros j Hj. apply repeat_spec in Hj. now subst. }
    assert (Hmarks : forall i,
               nth i (data (np.gt0 (mk_ndarray (nrows X) (ncols X) l'))) false = true <->
               In i (map (fun j => nth j train_idx 0) (repeat 0 n_validation))).
    { intros i. simpl. exact (gt0_nth_set _ _ _ _ (nth_repeat_zero _) Hset). }
    exists r'. eexists. eexists. exists rest. split; [exact Hev|].
    split; [|split; [exact Hmarks|split]].
    + destruct n_validation as [|[|n]]; [lia|lia|]. simpl.
      intros Hnd. inversion Hnd as [|x l Hx _]; subst. apply Hx. now left.
    + apply (count_true_pos _ (nth 0 train_idx 0)). apply Hmarks.
      destruct n_validation as [|n]; [lia|]. simpl. now left.
    + apply Nat.le_lt_trans with 1; [|lia].
      apply count_true_at_most_one. intros i j Hi Hj.
      apply Hmarks in Hi, Hj. apply in_map_iff in Hi, Hj.
      destruct Hi as (a & <- & Ha), Hj as (b & <- & Hb).
      apply repeat_spec in Ha, Hb. now subst.
Qed.

(** ** The matrices handed to the adapter *)

Lemma same_shape_size {A B} (a : ndarray A) (b : ndarray B) :
  same_shape a b = true -> nrows a = nrows b /\ ncols a = ncols b /\ size a = size b.
Proof.
  unfold same_shape, size. intros H. apply andb_prop in H. destruct H as [H1 H2].
  apply Nat.eqb_eq in H1, H2. rewrite H1, H2. auto.
Qed.

Lemma count_nan_hide (xs : list Q) : forall m,
  length xs = length m ->
  length (filter is_nan
            (np.map2 (fun x (b : bool) => if b then NaN else x) (map Num xs) m))
  = count_true m.
Proof.
  unfold count_true.
  induction xs as [|x xs IH]; intros [|b m] H; simpl in *; try discriminate; auto.
  destruct b; simpl; rewrite IH by lia; reflexivity.
Qed.

Lemma nth_hide (xs : list Q) : forall m i,
  length xs = length m -> i < length xs ->
  is_nan (nth i (np.map2 (fun x (b : bool) => if b then NaN else x) (map Num xs) m)
            (Num 0))
  = nth i m false.
Proof.
  induction xs as [|x xs IH]; intros [|b m] i H Hi; simpl in *; try discriminate; try lia.
  destruct i as [|i].
  - destruct b; reflexivity.
  - apply IH; lia.
Qed.

Lemma count_true_orb (a : list bool) : forall b,
  length a = length b -> count_true a <= count_true (np.map2 orb a b).
Proof.
  unfold count_true.
  induction a as [|x a IH]; intros [|y b] H; simpl in *; try discriminate; auto.
  specialize (IH b ltac:(lia)).
  destruct x, y; simpl; lia.
Qed.

Lemma map2_length {A B C} (f : A -> B -> C) (a : list A) : forall b,
  length a = length b -> length (np.map2 f a b) = length a.
Proof.
  induction a as [|x a IH]; intros [|y b] H; simpl in *; try discriminate; auto.
Qed.

Lemma nth_map2_orb (a : list bool) : forall b i,
  length a = length b ->
  nth i (np.map2 orb a b) false = nth i a false || nth i b false.
Proof.
  induction a as [|x a IH]; intros [|y b] i H; simpl in *; try discriminate.
  - destruct i; reflexivity.
  - destruct i as [|i]; [reflexivity|]. apply IH. lia.
Qed.

(** C2: every matrix the search hands to the adapter holds at least as
    many missing sentinels as the evaluation mask has true entries; the
    matrix of the candidate evaluations is the ground truth with the
    sentinel exactly at the union of the evaluation and validation
    masks, the matrix of the refit with the sentinel exactly at the
    evaluation mask. *)
Theorem adapter_input_hides_mask F g X M pv r ph name params Xin out :
  well_formed X -> well_formed M ->
  In (EvFit ph name params Xin out) (events (fancyimpute_hpo F g X M pv r)) ->
  count_true (data M) <= count_nan Xin /\
  match ph with
  | Search =>
      exists t vidx V rest,
        events (fancyimpute_hpo F g X M pv r) = EvValidation t vidx V :: rest /\
        Xin = hide X (np.map2 orb (data M) (data V)) /\
        forall i, i < size X ->
          is_nan (nth i (data Xin) (Num 0)) = nth i (data M) false || nth i (data V) false
  | Refit =>
      Xin = hide X (data M) /\
      forall i, i < size X -> is_nan (nth i (data Xin) (Num 0)) = nth i (data M) false
  end.
Proof.
  intros HwX HwM Hin.
  destruct (hpo_trace F g X M pv r) as [(Hnil & _) | Hrun].
  { rewrite Hnil in Hin. destruct Hin. }
  destruct Hrun as (vidx & l' & evs & evr & Hev & Hsz & _ & _ & Hset & Hse & _ & Hne & Hr).
  rewrite Hev in Hin. destruct Hin as [Heq | Hin]; [discriminate|].
  pose proof (setitems_ok _ _ _ _ Hset) as (Hl' & _ & _).
  rewrite repeat_length in Hl'.
  unfold well_formed in HwX, HwM.
  apply in_app_or in Hin. destruct Hin as [Hin | Hin].
  - rewrite Forall_forall in Hse. apply Hse in Hin. simpl in Hin.
    destruct ph; [|destruct Hin]. destruct Hin as (_ & ->).
    assert (HlenV : length (data M) = length (map (fun v => Qlt_bool 0 v) l')).
    { rewrite length_map. lia. }
    assert (Hlen : length (data X) =
                   length (np.map2 orb (data M) (map (fun v => Qlt_bool 0 v) l'))).
    { rewrite map2_length by assumption. lia. }
    split.
    + unfold count_nan, hide. simpl data. rewrite count_nan_hide by assumption.
      now apply count_true_orb.
    + eexists. eexists. eexists. eexists. split; [exact Hev|]. split; [reflexivity|].
      intros i Hi. unfold hide. simpl data.
      rewrite nth_hide by (assumption || lia). now apply nth_map2_orb.
  - destruct Hr as [(-> & _) | (_ & _ & Hr)]; [destruct Hin|].
    destruct Hr as [(-> & _) | (i & best & o & r0 & r1 & _ & _ & HXM & _ & Hr)];
      [destruct Hin|].
    apply same_shape_size in HXM. destruct HXM as (_ & _ & HXM).
    assert (Hlen : length (data X) = length (data M)) by lia.
    assert (HXin : ph = Refit /\ Xin = hide X (data M)).
    { destruct Hr as [(-> & _) | (Ximp & m & _ & _ & -> & _)];
        simpl in Hin; destruct Hin as [Heq | Hin];
        try (inversion Heq; subst; auto; fail);
        try (destruct Hin as [Heq | []]; discriminate);
        try (destruct Hin). }
    destruct HXin as (-> & ->). split; [|split; [reflexivity|]].
    + unfold count_nan, hide. simpl data. rewrite count_nan_hide by assumption. lia.
    + intros j Hj. unfold hide. simpl data. apply nth_hide; lia.
Qed.

(** ** The number of adapter invocations *)

Lemma refit_trace_count F cands X M mses evr o :
  refit_trace F cands X M mses evr o ->
  count_fits evr <= 1 /\ (forall v, o = Ok v -> count_fits evr = 1) /\
  (mses = [] -> exists e, o = Raise e).
Proof.
  intros [(-> & e & ->) | (i & best & out & r0 & r1 & Hi & _ & _ & _ & Hr)].
  - split; [unfold count_fits; simpl; lia|]. split; [discriminate|eauto].
  - assert (Hm : mses <> []) by (intros ->; discriminate).
    destruct Hr as [(-> & e & ->) | (Ximp & m & _ & _ & -> & ->)].
    + split; [unfold count_fits; simpl; lia|]. split; [discriminate|congruence].
    + split; [unfold count_fits; simpl; lia|]. split; [reflexivity|congruence].
Qed.

(** C8, as amended: on every call the adapter's fit_transform is invoked
    at most N + 1 times, N the number of candidates of the grid, and
    exactly N + 1 times on every call that returns a value; a call on a
    grid without candidate raises and returns none. *)
Theorem fit_transform_call_count F g X M pv r :
  let x := fancyimpute_hpo F g X M pv r in
  let N := length (dict_product g) in
  count_fits (events x) <= N + 1 /\
  (forall v, outcome x = Ok v -> count_fits (events x) = N + 1) /\
  (N = 0 -> exists e, outcome x = Raise e).
Proof.
  intros x N. subst x N.
  destruct (hpo_trace F g X M pv r) as [(Hnil & e & Ho) | Hrun].
  { rewrite Hnil, Ho. split; [apply Nat.le_0_l|]. split; [discriminate|eauto]. }
  destruct Hrun as (vidx & l' & evs & evr & Hev & _ & _ & _ & _ & _ & Hcnt & _ & Hr).
  rewrite Hev. change (EvValidation ?t vidx ?V :: evs ++ evr)
    with ([EvValidation t vidx V] ++ evs ++ evr).
  rewrite !count_fits_app. change (count_fits [EvValidation ?t vidx ?V]) with 0.
  destruct Hr as [(-> & e & Ho) | (Hc & Htr & Hr)].
  - rewrite Ho. split; [unfold count_fits at 2; simpl; lia|].
    split; [discriminate|eauto].
  - apply refit_trace_count in Hr. destruct Hr as (Hle & Hok & Hnone).
    split; [lia|]. split.
    + intros v Hv. rewrite (Hok v Hv). lia.
    + intros HN. apply Hnone.
      destruct (trained evs) as [|p rest]; [reflexivity|].
      rewrite <- Htr in HN. discriminate.
Qed.

(** ** The selected candidate *)

Lemma Qlt_bool_iff (x y : Q) : Qlt_bool x y = true <-> (x < y)%Q.
Proof.
  unfold Qlt_bool. rewrite negb_true_iff. split.
  - intros H. apply Qnot_le_lt. intros Hle. apply Qle_bool_iff in Hle. congruence.
  - intros H. destruct (Qle_bool y x) eqn:E; auto.
    apply Qle_bool_iff in E. exfalso. exact (Qlt_not_le _ _ H E).
Qed.

Lemma argmin_scan_first_min (l : list number) : forall pre mp min_ind,
  nth_error pre min_ind = Some (Num mp) ->
  (forall j x, nth_error pre j = Some x ->
     exists q, x = Num q /\ (mp <= q)%Q /\ (j < min_ind -> (mp < q)%Q)) ->
  first_min (pre ++ l) (np.argmin_scan mp min_ind (length pre) l).
Proof.
  induction l as [|c rest IH]; intros pre mp min_ind Hmin Hpre.
  - simpl. rewrite app_nil_r. exists (Num mp). split; [assumption|].
    intros j mj Hj. destruct (Hpre j mj Hj) as (q & -> & Hle & Hlt). simpl. split.
    + intros H. exact (Qlt_not_le _ _ H Hle).
    + intros Ht. destruct (Nat.lt_ge_cases j min_ind) as [Hjm|Hjm]; [|assumption].
      specialize (Hlt Hjm). rewrite Ht in Hlt. exfalso. exact (Qlt_irrefl _ Hlt).
  - destruct c as [x|]; simpl.
    + assert (Happ : pre ++ Num x :: rest = (pre ++ [Num x]) ++ rest)
        by (now rewrite <- app_assoc).
      assert (Hlen : S (length pre) = length (pre ++ [Num x]))
        by (rewrite length_app; simpl; lia).
      rewrite Happ, Hlen.
      assert (Hmlt : min_ind < length pre) by (apply nth_error_Some; congruence).
      destruct (Qlt_bool x mp) eqn:Hx.
      * apply Qlt_bool_iff in Hx. apply IH.
        -- rewrite nth_error_app2 by lia. now rewrite Nat.sub_diag.
        -- intros j y Hj.
           destruct (Nat.lt_ge_cases j (length pre)) as [Hjl|Hjl].
           ++ rewrite nth_error_app1 in Hj by assumption.
              destruct (Hpre j y Hj) as (q & -> & Hle & _).
              exists q. split; [reflexivity|].
              assert (Hxq : (x < q)%Q) by (eapply Qlt_le_trans; eauto).
              split; [now apply Qlt_le_weak|auto].
           ++ rewrite nth_error_app2 in Hj by assumption.
              destruct (j - length pre) as [|k] eqn:E; simpl in Hj.
              ** inversion Hj; subst. exists x. split; [reflexivity|].
                 split; [apply Qle_refl|lia].
              ** destruct k; discriminate.
      * assert (Hge : (mp <= x)%Q).
        { apply Qnot_lt_le. intros H. apply Qlt_bool_iff in H. congruence. }
        apply IH.
        -- rewrite nth_error_app1 by assumption. assumption.
        -- intros j y Hj.
           destruct (Nat.lt_ge_cases j (length pre)) as [Hjl|Hjl].
           ++ rewrite nth_error_app1 in Hj by assumption. now apply Hpre.
           ++ rewrite nth_error_app2 in Hj by assumption.
              destruct (j - length pre) as [|k] eqn:E; simpl in Hj.
              ** inversion Hj; subst. exists x. split; [reflexivity|].
                 split; [assumption|lia].
              ** destruct k; discriminate.
    + exists NaN. split.
      * rewrite nth_error_app2 by lia. now rewrite Nat.sub_diag.
      * intros j mj Hj. split.
        -- destruct mj; simpl; auto.
        -- intros Ht. destruct (Nat.lt_ge_cases j (length pre)) as [Hjl|Hjl]; [|assumption].
           rewrite nth_error_app1 in Hj by assumption.
           destruct (Hpre j mj Hj) as (q & -> & _). destruct Ht.
Qed.

Lemma argmin_first_min (l : list number) i : np.argmin l = Ok i -> first_min l i.
Proof.
  destruct l as [|[x|] rest]; simpl; intros H; inversion H; subst.
  - apply (argmin_scan_first_min rest [Num x] x 0); [reflexivity|].
    intros j y Hj. destruct j as [|[|j]]; simpl in Hj; try discriminate.
    inversion Hj; subst. exists x. split; [reflexivity|]. split; [apply Qle_refl|lia].
  - exists NaN. split; [reflexivity|]. intros j mj Hj. split.
    + destruct mj; simpl; auto.
    + intros _. lia.
Qed.

(** C5: the candidate the search selects is the first, in the order of
    the Cartesian enumeration of the grid, that achieves the minimum
    validation error: no candidate has a strictly smaller error, and a
    candidate whose error ties with the selected one comes no earlier. *)
Theorem first_minimum_selected F g X M pv r name best_params mse_best :
  In (EvBest name best_params mse_best) (events (fancyimpute_hpo F g X M pv r)) ->
  let tr := trained (events (fancyimpute_hpo F g X M pv r)) in
  map fst tr = dict_product g /\
  exists i, nth_error (dict_product g) i = Some best_params /\
            first_min (map snd tr) i.
Proof.
  intros Hin.
  destruct (hpo_trace F g X M pv r) as [(Hnil & _) | Hrun].
  { rewrite Hnil in Hin. destruct Hin. }
  destruct Hrun as (vidx & l' & evs & evr & Hev & _ & _ & _ & _ & Hse & _ & _ & Hr).
  simpl. rewrite Hev in *. destruct Hin as [Heq | Hin]; [discriminate|].
  apply in_app_or in Hin. destruct Hin as [Hin | Hin].
  { rewrite Forall_forall in Hse. apply Hse in Hin. destruct Hin. }
  destruct Hr as [(-> & _) | (_ & Htr & Hr)]; [destruct Hin|].
  destruct Hr as [(-> & _) | (i & best & out & r0 & r1 & Hi & Hb & _ & _ & Hr)];
    [destruct Hin|].
  destruct Hr as [(-> & _) | (Ximp & m & _ & _ & -> & _)].
  { destruct Hin as [Heq | []]. discriminate. }
  destruct Hin as [Heq | [Heq | []]]; [discriminate|]. inversion Heq; subst.
  assert (Ht : forall e, trained (e :: evs ++
                 [EvFit Refit (adapter_name F) best_params (hide X (data M)) out;
                  EvBest (adapter_name F) best_params mse_best]) = trained [e] ++ trained evs).
  { intros e. change (e :: evs ++ ?l) with ([e] ++ evs ++ l).
    rewrite !trained_app. simpl (trained [_; _]). now rewrite app_nil_r. }
  rewrite Ht. simpl (trained [_] ++ _). split; [assumption|].
  exists i. split; [assumption|]. now apply argmin_first_min.
Qed.

(** ** The reported error *)

Lemma Qsum_squares_nonneg (l : list Q) : (0 <= np.Qsum (map (fun d => d ^ 2) l))%Q.
Proof.
  induction l as [|d l IH]; simpl in *; [apply Qle_refl|]. nra.
Qed.

Lemma Qsum_squares_zero (l : list Q) :
  (np.Qsum (map (fun d => d ^ 2) l) == 0)%Q <-> Forall (fun d => (d == 0)%Q) l.
Proof.
  induction l as [|d l IH]; simpl.
  - split; [constructor|reflexivity].
  - pose proof (Qsum_squares_nonneg l) as Hl. simpl in Hl. split.
    + intros H. constructor; [nra|]. apply IH. simpl. nra.
    + intros H. inversion H; subst. apply IH in H3. simpl in H3. nra.
Qed.

Lemma select_length {A} (a : list A) : forall m,
  length a = length m -> length (np.select a m) = count_true m.
Proof.
  unfold count_true.
  induction a as [|x a IH]; intros [|b m] H; simpl in *; try discriminate; auto.
  destruct b; simpl; rewrite IH by lia; reflexivity.
Qed.

Lemma select_differences (a : list Q) : forall b m,
  length a = length m -> length b = length m ->
  Forall (fun d => (d == 0)%Q) (np.map2 Qminus (np.select a m) (np.select b m)) <->
  forall i, nth i m false = true -> (nth i a 0 == nth i b 0)%Q.
Proof.
  induction a as [|x a IH]; intros [|y b] [|c m] Ha Hb; simpl in *; try discriminate.
  - split; [|constructor]. intros _ [|i]; discriminate.
  - specialize (IH b m ltac:(lia) ltac:(lia)). destruct c; simpl.
    + split.
      * intros H. inversion H; subst. intros [|i] Hi; [lra|]. now apply IH.
      * intros H. constructor.
        -- specialize (H 0 eq_refl). simpl in H. lra.
        -- apply IH. intros i Hi. exact (H (S i) Hi).
    + rewrite IH. split.
      * intros H [|i] Hi; [discriminate|auto].
      * intros H i Hi. exact (H (S i) Hi).
Qed.

Lemma mean_squares (l : list Q) :
  l <> [] ->
  exists q, np.mean (map (fun d => d ^ 2)%Q l) = Num q /\ (0 <= q)%Q /\
            ((q == 0)%Q <-> Forall (fun d => (d == 0)%Q) l).
Proof.
  intros Hl. destruct l as [|d l]; [congruence|].
  set (sq := map (fun d => (d ^ 2)%Q) (d :: l)).
  assert (Hpos : (0 < inject_Z (Z.of_nat (length sq)))%Q).
  { rewrite <- (Zlt_Qlt 0). unfold sq. simpl length. lia. }
  exists (np.Qsum sq / inject_Z (Z.of_nat (length sq)))%Q.
  split; [reflexivity|]. split.
  - apply Qle_shift_div_l; [assumption|]. rewrite Qmult_0_l.
    apply Qsum_squares_nonneg.
  - rewrite <- Qsum_squares_zero. fold sq. split.
    + intros H. rewrite <- (Qmult_div_r (np.Qsum sq) (inject_Z (Z.of_nat (length sq)))).
      * rewrite H. apply Qmult_0_r.
      * intros E. rewrite E in Hpos. exact (Qlt_irrefl _ Hpos).
    + intros H. unfold Qdiv. rewrite H. apply Qmult_0_l.
Qed.

Lemma evaluate_mse_value Ximp X M m :
  well_formed Ximp -> well_formed X -> well_formed M ->
  0 < count_true (data M) ->
  evaluate_mse Ximp X M = Ok m ->
  exists q, m = Num q /\ (0 <= q)%Q /\ ((q == 0)%Q <-> agrees_on Ximp X M).
Proof.
  unfold evaluate_mse, np.getitem_mask, well_formed.
  intros HwI HwX HwM Hcnt H.
  destruct (same_shape Ximp M) eqn:HIM; [|discriminate].
  destruct (same_shape X M) eqn:HXM; [|discriminate].
  apply same_shape_size in HIM, HXM.
  destruct HIM as (_ & _ & HIM), HXM as (_ & _ & HXM).
  assert (HlI : length (data Ximp) = length (data M)) by lia.
  assert (HlX : length (data X) = length (data M)) by lia.
  inversion H; subst m; clear H.
  destruct (mean_squares (np.map2 Qminus (np.select (data Ximp) (data M))
                                        (np.select (data X) (data M))))
    as (q & Hq & Hnn & Hz).
  { intros E. apply (f_equal (@length Q)) in E.
    rewrite map2_length in E by (rewrite !select_length; auto).
    rewrite select_length in E by assumption. simpl in E. lia. }
  exists q. split; [assumption|]. split; [assumption|].
  rewrite Hz. now apply select_differences.
Qed.


Lemma select_none {A} (l : list A) : forall m,
  Forall (fun b => b = false) m -> np.select l m = [].
Proof.
  induction l as [|x l IH]; intros [|b m] H; simpl; try reflexivity.
  inversion H; subst. now apply IH.
Qed.

Lemma evaluate_mse_no_entry Ximp X (V : ndarray bool) v :
  Forall (fun b => b = false) (data V) -> evaluate_mse Ximp X V = Ok v -> v = NaN.
Proof.
  intros HV. unfold evaluate_mse, np.getitem_mask.
  destruct (same_shape Ximp V); [|discriminate].
  destruct (same_shape X V); [|discriminate].
  rewrite !select_none by assumption. simpl. intros H. now inversion H.
Qed.




(** In binary floating point an imputed cell of 2 ** -600 against a
    ground truth of 0 differs from it, and the error of that one cell
    is 0: the square of the difference underflows. *)
Lemma binary64_square_underflows :
  let x_imputed := binary64.finite (2 ^ 52) (-652) in
  SpecFloat.SFeqb x_imputed binary64.zero = false /\
  binary64.evaluate_mse_cell x_imputed binary64.zero = binary64.zero.
Proof. split; vm_compute; reflexivity. Qed.

(** ** The dataset provider *)

(** C9: for every source identifier other than the five recognized
    names the dataset provider raises an error (the read of a variable
    that no branch has bound) and returns no matrix, empty or not. *)
Theorem get_data_unrecognized (f : data_fn) :
  ~ In (fn_name f)
       ["make_low_rank_matrix"; "make_swiss_roll"; "load_digits"; "load_wine";
        "load_diabetes"]%string ->
  get_data f = Raise UnboundLocalError.
Proof.
  intros Hn. unfold get_data, name_is, name_in.
  destruct (String.eqb (fn_name f) "make_low_rank_matrix") eqn:E1.
  { apply String.eqb_eq in E1. exfalso. apply Hn. rewrite E1. simpl. auto. }
  destruct (String.eqb (fn_name f) "make_swiss_roll") eqn:E2.
  { apply String.eqb_eq in E2. exfalso. apply Hn. rewrite E2. simpl. auto. }
  rewrite andb_false_r.
  destruct (existsb (String.eqb (fn_name f))
              ["load_digits"; "load_wine"; "load_diabetes"]%string) eqn:E3;
    [|reflexivity].
  apply existsb_exists in E3. destruct E3 as (s & Hs & Heq).
  apply String.eqb_eq in Heq. subst s. exfalso. apply Hn. simpl in *. tauto.
Qed.

Lemma get_data_unrecognized_witness :
  get_data (constant_loader "load_iris" (PyArray example_X)) = Raise UnboundLocalError.
Proof.
  apply (get_data_unrecognized (constant_loader "load_iris" (PyArray example_X))).
  simpl. intros [H|[H|[H|[H|[H|[]]]]]]; discriminate.
Defined.

(** ** Draws of the mask generator *)

Lemma randint_run (low high : Z) r :
  (low < high)%Z ->
  exists v, randint low high r = (Ok v, mk_rng (tape r) (S (cursor r)), []) /\
            (low <= v < high)%Z.
Proof.
  intros H. unfold randint. apply Z.ltb_lt in H. rewrite H. apply Z.ltb_lt in H.
  exists (low + Z.of_nat (tape r (cursor r)) mod (high - low))%Z.
  split; [reflexivity|].
  pose proof (Z.mod_pos_bound (Z.of_nat (tape r (cursor r))) (high - low)). lia.
Qed.

Lemma randint_cases (low high : Z) r :
  (randint low high r = (Raise ValueError, r, [])) \/
  (exists v r', randint low high r = (Ok v, r', []) /\ (low <= v < high)%Z).
Proof.
  destruct (Z_lt_ge_dec low high) as [H|H].
  - right. destruct (randint_run low high r H) as (v & Hr & Hv). eauto.
  - left. unfold randint. destruct (Z.ltb_spec low high); [lia|reflexivity].
Qed.

Lemma remove_nth_perm {A} (l : list A) : forall i d,
  i < length l -> Permutation (nth i l d :: remove_nth i l) l.
Proof.
  induction l as [|h t IH]; intros i d Hi; simpl in Hi; [lia|].
  destruct i as [|i]; simpl; [reflexivity|].
  eapply perm_trans; [apply perm_swap|]. constructor. apply IH. lia.
Qed.

Lemma remove_nth_length {A} (l : list A) : forall i,
  i < length l -> length (remove_nth i l) = pred (length l).
Proof.
  induction l as [|h t IH]; intros i Hi; simpl in Hi; [lia|].
  destruct i as [|i]; simpl; [reflexivity|].
  rewrite IH by lia. destruct t; simpl in *; lia.
Qed.

Lemma shuffle_run : forall n l r,
  length l = n ->
  exists p r', shuffle n l r = (Ok p, r', []) /\ Permutation p l.
Proof.
  induction n as [|n IH]; intros l r Hl.
  - destruct l; [|discriminate]. exists [], r. split; [reflexivity|constructor].
  - simpl. unfold draw_below. unfold bind at 2.
    set (i := tape r (cursor r) mod length l).
    assert (Hi : i < length l) by (apply Nat.mod_upper_bound; lia).
    destruct (IH (remove_nth i l) (mk_rng (tape r) (S (cursor r))))
      as (p & r' & Hrun & Hperm).
    { rewrite remove_nth_length by assumption. lia. }
    exists (nth i l 0 :: p), r'. split.
    + unfold bind, next_raw, ret. simpl. fold i. rewrite Hrun. reflexivity.
    + eapply perm_trans; [|apply (remove_nth_perm l i 0 Hi)]. now constructor.
Qed.

Lemma permutation_run (l : list nat) r :
  exists p r', permutation l r = (Ok p, r', []) /\ Permutation p l.
Proof. now apply shuffle_run. Qed.

Lemma getitems_ok {A} (l : list A) (d : A) : forall idx xs,
  np.getitems l idx = Ok xs ->
  xs = map (fun p => nth p l d) idx /\ Forall (fun p => p < length l) idx.
Proof.
  induction idx as [|i rest IH]; intros xs H; simpl in H.
  - inversion H. split; [reflexivity|constructor].
  - destruct (nth_error l i) as [x|] eqn:Hx; [|discriminate].
    destruct (np.getitems l rest) as [ys|e]; [|discriminate].
    inversion H; subst. destruct (IH ys eq_refl) as (-> & Hall).
    split.
    + simpl. f_equal. symmetry. now apply nth_error_nth.
    + constructor; [|assumption]. apply nth_error_Some. congruence.
Qed.

Lemma getitems_in_range {A} (l : list A) : forall idx,
  Forall (fun p => p < length l) idx -> exists xs, np.getitems l idx = Ok xs.
Proof.
  induction idx as [|i rest IH]; intros H; simpl; [eauto|].
  inversion H; subst. destruct (IH H3) as (ys & ->).
  destruct (nth_error l i) as [x|] eqn:Hx; [eauto|].
  apply nth_error_None in Hx. lia.
Qed.

(** ** Writing a column of the mask *)

Lemma cell_index_inj (m i j i' j' : nat) :
  j < m -> j' < m -> i * m + j = i' * m + j' -> i = i' /\ j = j'.
Proof.
  intros Hj Hj' H.
  assert (Hi : i = i').
  { destruct (Nat.lt_trichotomy i i') as [Hlt|[Heq|Hgt]]; [|assumption|]; nia. }
  subst. split; [reflexivity|lia].
Qed.

Lemma setitem_rows_col_ok {A} (rows : list nat) : forall (a a' : ndarray A) j v,
  well_formed a ->
  np.setitem_rows_col a rows j v = Ok a' ->
  nrows a' = nrows a /\ ncols a' = ncols a /\ well_formed a' /\
  j < ncols a /\ Forall (fun i => i < nrows a) rows /\
  forall i' j' d, i' < nrows a -> j' < ncols a ->
    np.cell a' i' j' d =
    if (j' =? j) && existsb (Nat.eqb i') rows then v else np.cell a i' j' d.
Proof.
  induction rows as [|i rest IH]; intros a a' j v Hw H; simpl in H.
  - destruct (j <? ncols a) eqn:Hj; [|discriminate]. apply Nat.ltb_lt in Hj.
    inversion H; subst. repeat split; auto.
    intros i' j' d _ _. simpl. now rewrite andb_false_r.
  - destruct ((i <? nrows a) && (j <? ncols a)) eqn:Hij; [|discriminate].
    apply andb_prop in Hij. destruct Hij as [Hi Hj].
    apply Nat.ltb_lt in Hi, Hj.
    assert (Hidx : i * ncols a + j < length (data a)).
    { unfold well_formed, size in Hw. rewrite Hw. nia. }
    apply IH in H.
    2:{ unfold well_formed, size in *. simpl. now rewrite list_set_length. }
    simpl in H. destruct H as (Hr & Hc & Hw' & _ & Hall & Hcell).
    repeat split; auto.
    intros i' j' d Hi' Hj'. rewrite (Hcell i' j' d Hi' Hj').
    assert (Hc1 : np.cell (mk_ndarray (nrows a) (ncols a)
                             (np.list_set (data a) (i * ncols a + j) v)) i' j' d =
                  if i' * ncols a + j' =? i * ncols a + j then v else np.cell a i' j' d).
    { unfold np.cell. simpl. now apply nth_list_set. }
    rewrite Hc1. simpl existsb.
    destruct (j' =? j) eqn:Ejj; simpl.
    + apply Nat.eqb_eq in Ejj. subst j'.
      destruct (existsb (Nat.eqb i') rest); [now rewrite orb_true_r|].
      rewrite orb_false_r.
      destruct (i' =? i) eqn:Eii.
      * apply Nat.eqb_eq in Eii. subst. now rewrite Nat.eqb_refl.
      * destruct (i' * ncols a + j =? i * ncols a + j) eqn:E; [|reflexivity].
        apply Nat.eqb_eq in E. apply Nat.eqb_neq in Eii.
        apply cell_index_inj in E; [|assumption|assumption]. tauto.
    + destruct (i' * ncols a + j' =? i * ncols a + j) eqn:E; [|reflexivity].
      apply Nat.eqb_eq in E. apply Nat.eqb_neq in Ejj.
      apply cell_index_inj in E; [|assumption|assumption]. tauto.
Qed.

Lemma setitem_rows_col_in_range {A} (rows : list nat) : forall (a : ndarray A) j v,
  j < ncols a -> Forall (fun i => i < nrows a) rows ->
  exists a', np.setitem_rows_col a rows j v = Ok a'.
Proof.
  induction rows as [|i rest IH]; intros a j v Hj Hall; simpl.
  - apply Nat.ltb_lt in Hj. rewrite Hj. eauto.
  - inversion Hall; subst.
    assert (Hi : (i <? nrows a) = true) by (now apply Nat.ltb_lt).
    assert (Hj' : (j <? ncols a) = true) by (now apply Nat.ltb_lt).
    rewrite Hi, Hj'. simpl. apply IH; simpl; assumption.
Qed.

Lemma cell_gt0 (a : ndarray Q) i j :
  np.cell (np.gt0 a) i j false = Qlt_bool 0 (np.cell a i j 0%Q).
Proof.
  unfold np.cell, np.gt0. simpl.
  change false with ((fun v => Qlt_bool 0 v) 0%Q) at 1. now rewrite map_nth.
Qed.

Lemma cell_zeros n m i j : np.cell (np.zeros n m) i j 0%Q = 0%Q.
Proof. unfold np.cell, np.zeros. simpl. apply nth_repeat_zero. Qed.

(** ** The missing-not-at-random mask *)

Section MaskProperties.

Variable argsort : list Q -> list nat.

(** [argsort] returns the positions of its argument, each once. *)
Hypothesis argsort_perm : forall v, Permutation (argsort v) (seq 0 (length v)).

Lemma column_length X d : length (column X d) = nrows X.
Proof. unfold column. now rewrite length_map, length_seq. Qed.

Lemma argsort_length X d : length (argsort (column X d)) = nrows X.
Proof.
  rewrite (Permutation_length (argsort_perm (column X d))), length_seq.
  apply column_length.
Qed.

Lemma argsort_NoDup X d : NoDup (argsort (column X d)).
Proof.
  apply (Permutation_NoDup (Permutation_sym (argsort_perm (column X d)))).
  apply seq_NoDup.
Qed.

Lemma argsort_row_lt X d p : p < nrows X -> nth p (argsort (column X d)) 0 < nrows X.
Proof.
  intros Hp.
  assert (Hin : In (nth p (argsort (column X d)) 0) (argsort (column X d))).
  { apply nth_In. now rewrite argsort_length. }
  apply (Permutation_in _ (argsort_perm (column X d))) in Hin.
  apply in_seq in Hin. rewrite column_length in Hin. lia.
Qed.

Lemma run_rows_lt X d s nd :
  s + nd <= nrows X -> Forall (fun i => i < nrows X) (run_rows argsort X d s nd).
Proof.
  intros H. apply Forall_forall. intros i Hi. unfold run_rows in Hi.
  apply in_map_iff in Hi. destruct Hi as (p & <- & Hp). apply in_seq in Hp.
  apply argsort_row_lt. lia.
Qed.

(** A sorted position after the run is the position of a row outside it. *)
Lemma row_after_run X d s nd p :
  s + nd <= p -> p < nrows X ->
  ~ In (nth p (argsort (column X d)) 0) (run_rows argsort X d s nd).
Proof.
  intros Hsp Hp Hin. unfold run_rows in Hin.
  apply in_map_iff in Hin. destruct Hin as (q & Heq & Hq). apply in_seq in Hq.
  pose proof (argsort_NoDup X d) as Hnd. rewrite NoDup_nth in Hnd.
  specialize (Hnd q p). rewrite argsort_length in Hnd.
  specialize (Hnd ltac:(lia) Hp Heq). lia.
Qed.

Lemma mnar_column_cases X k unaff mask c r :
  let x := mnar_column argsort X k unaff mask c r in
  (events x = [] /\ exists e, outcome x = Raise e) \/
  exists d s,
    let nd := nrows X / k in
    events x = [EvDiscard c d s nd] /\ discard_ok X k unaff (EvDiscard c d s nd) /\
    ((exists e, outcome x = Raise e) \/
     exists mask' r',
       x = (Ok mask', r', [EvDiscard c d s nd]) /\
       np.setitem_rows_col mask (run_rows argsort X d s nd) c 1%Q = Ok mask').
Proof.
  unfold mnar_column.
  destruct unaff as [|u0 unaff'] eqn:Eu.
  { left. cbn. eauto. }
  assert (Hne : unaff <> []) by (rewrite Eu; discriminate).
  rewrite <- Eu.
  rewrite (bind_ok _ _ _ _ _ _ (choice_run unaff r Hne)), after_nil.
  set (d := nth (tape r (cursor r) mod length unaff) unaff 0).
  assert (Hd : In d unaff).
  { apply nth_In. apply Nat.mod_upper_bound. rewrite Eu. discriminate. }
  set (r1 := mk_rng (tape r) (S (cursor r))).
  destruct (randint_cases 0 (Z.of_nat (nrows X) - Z.of_nat (nrows X / k) - 1) r1)
    as [Hr | (v & r2 & Hr & Hv)].
  { left. rewrite (bind_raise _ _ _ _ _ _ Hr). cbn. eauto. }
  rewrite (bind_ok _ _ _ _ _ _ Hr), after_nil, bind_emit.
  right. exists d, (Z.to_nat v).
  assert (Hok : discard_ok X k unaff (EvDiscard c d (Z.to_nat v) (nrows X / k))).
  { simpl. split; [assumption|]. split; [reflexivity|]. lia. }
  destruct (np.getitem_col X d) as [col|e] eqn:Hcol.
  2:{ rewrite bind_lift_raise. cbn. split; [reflexivity|]. split; [exact Hok|]. eauto. }
  rewrite bind_lift_ok.
  assert (Hc : col = column X d).
  { unfold np.getitem_col in Hcol. destruct (d <? ncols X); [|discriminate].
    now inversion Hcol. }
  subst col.
  destruct (np.getitems (argsort (column X d)) (seq (Z.to_nat v) (nrows X / k)))
    as [rows|e] eqn:Hrows.
  2:{ rewrite bind_lift_raise. cbn. split; [reflexivity|]. split; [exact Hok|]. eauto. }
  rewrite bind_lift_ok.
  apply (getitems_ok _ 0) in Hrows. destruct Hrows as (-> & _).
  fold (run_rows argsort X d (Z.to_nat v) (nrows X / k)).
  destruct (np.setitem_rows_col mask (run_rows argsort X d (Z.to_nat v) (nrows X / k)) c 1%Q)
    as [mask'|e] eqn:Hset.
  - cbn. split; [reflexivity|]. split; [exact Hok|]. right. eauto.
  - cbn. split; [reflexivity|]. split; [exact Hok|]. left. eauto.
Qed.

Lemma in_existsb (i : nat) (l : list nat) :
  existsb (Nat.eqb i) l = false -> ~ In i l.
Proof. intros H Hin. apply existsb_eqb_In in Hin. congruence. Qed.

(** What the loop of lines 108-116 leaves in the mask: a cell holds 1
    when the run of some event of its column covers its row, and is
    unchanged otherwise. *)
Lemma mnar_loop_trace X k unaff : forall cols mask r,
  well_formed mask -> nrows mask = nrows X -> ncols mask = ncols X ->
  let x := for_each cols (mnar_column argsort X k unaff) mask r in
  Forall (discard_ok X k unaff) (events x) /\
  forall mask', outcome x = Ok mask' ->
    map discard_col (events x) = map Some cols /\
    nrows mask' = nrows X /\ ncols mask' = ncols X /\ well_formed mask' /\
    forall i j, i < nrows X -> j < ncols X ->
      (np.cell mask' i j 0%Q = 1%Q /\
       exists d s nd, In (EvDiscard j d s nd) (events x) /\
                      In i (run_rows argsort X d s nd)) \/
      (np.cell mask' i j 0%Q = np.cell mask i j 0%Q /\
       forall d s nd, In (EvDiscard j d s nd) (events x) ->
                      ~ In i (run_rows argsort X d s nd)).
Proof.
  induction cols as [|c rest IH]; intros mask r Hw Hn Hm; simpl.
  - split; [constructor|]. intros mask' H. inversion H; subst.
    repeat (split; [reflexivity || assumption|]).
    intros i j _ _. right. split; [reflexivity|]. intros d s nd [].
  - destruct (mnar_column_cases X k unaff mask c r)
      as [(Hev & e & Ho) | (d & s & Hev & Hok & Hres)].
    + destruct (mnar_column argsort X k unaff mask c r) as [[o r1] evs] eqn:Hrun.
      cbn in Hev, Ho. subst. rewrite (bind_raise _ _ _ _ _ _ Hrun). cbn.
      split; [constructor|]. intros mask' H. discriminate.
    + destruct Hres as [(e & Ho) | (mask1 & r1 & Hrun & Hset)].
      * destruct (mnar_column argsort X k unaff mask c r) as [[o r1] evs] eqn:Hrun.
        cbn in Hev, Ho. subst. rewrite (bind_raise _ _ _ _ _ _ Hrun). cbn.
        split; [constructor; [exact Hok|constructor]|]. intros mask' H. discriminate.
      * rewrite (bind_ok _ _ _ _ _ _ Hrun), events_after, outcome_after.
        destruct (setitem_rows_col_ok _ _ _ _ _ Hw Hset)
          as (Hn1 & Hm1 & Hw1 & Hc & Hrows & Hcell).
        destruct (IH mask1 r1 Hw1 ltac:(lia) ltac:(lia)) as (Hall & Hfin).
        split; [constructor; [exact Hok|exact Hall]|].
        intros mask' Hout. destruct (Hfin mask' Hout) as (Hcols & Hn' & Hm' & Hw' & Hcells).
        split; [simpl; now rewrite Hcols|].
        repeat (split; [assumption|]).
        intros i j Hi Hj.
        destruct (Hcells i j Hi Hj) as [(H1 & d' & s' & nd' & Hin & Hcov) | (Heq & Hno)].
        -- left. split; [assumption|]. exists d', s', nd'. split; [now right|assumption].
        -- rewrite (Hcell i j 0%Q ltac:(lia) ltac:(lia)) in Heq.
           destruct ((j =? c) && existsb (Nat.eqb i) (run_rows argsort X d s (nrows X / k)))
             eqn:E.
           ++ apply andb_prop in E. destruct E as [Ej Ei].
              apply Nat.eqb_eq in Ej. apply existsb_eqb_In in Ei. subst j.
              left. split; [assumption|].
              exists d, s, (nrows X / k). split; [now left|assumption].
           ++ right. split; [assumption|].
              intros d' s' nd' [Hhd | Htl]; [|now apply Hno].
              inversion Hhd; subst. rewrite Nat.eqb_refl in E. simpl in E.
              now apply in_existsb.
Qed.

Lemma zeros_well_formed n m : well_formed (np.zeros n m).
Proof. unfold well_formed, np.zeros, size. simpl. apply repeat_length. Qed.

Lemma Qlt_bool_0_1 : Qlt_bool 0 1 = true.
Proof. reflexivity. Qed.

Lemma Qlt_bool_0_0 : Qlt_bool 0 0 = false.
Proof. reflexivity. Qed.

(** What a run of the missing-not-at-random branch is. *)
Lemma mnar_trace X pct r :
  let x := generate_missing_mask argsort X pct false r in
  (events x = [] /\ exists e, outcome x = Raise e) \/
  exists aff unaff evs,
    events x = EvColumns aff unaff :: evs /\
    Permutation (aff ++ unaff) (seq 0 (ncols X)) /\
    2 <= length aff /\ length aff < ncols X /\
    Forall (discard_ok X (length aff) unaff) evs /\
    forall mask, outcome x = Ok mask ->
      map discard_col evs = map Some aff /\
      nrows mask = nrows X /\ ncols mask = ncols X /\ well_formed mask /\
      forall i j, i < nrows X -> j < ncols X ->
        (np.cell mask i j false = true /\
         exists d s nd, In (EvDiscard j d s nd) evs /\
                        In i (run_rows argsort X d s nd)) \/
        (np.cell mask i j false = false /\
         forall d s nd, In (EvDiscard j d s nd) evs ->
                        ~ In i (run_rows argsort X d s nd)).
Proof.
  unfold generate_missing_mask.
  destruct (randint_cases 2 (Z.of_nat (ncols X)) r) as [Hr | (v & r1 & Hr & Hv)].
  { left. rewrite (bind_raise _ _ _ _ _ _ Hr). cbn. eauto. }
  rewrite (bind_ok _ _ _ _ _ _ Hr), after_nil.
  destruct (permutation_run (seq 0 (ncols X)) r1) as (p & r2 & Hp & Hperm).
  rewrite (bind_ok _ _ _ _ _ _ Hp), after_nil, bind_emit.
  set (k := Z.to_nat v).
  assert (Hlenp : length p = ncols X).
  { rewrite (Permutation_length Hperm). apply length_seq. }
  assert (Hk : length (firstn k p) = k).
  { rewrite length_firstn. unfold k. lia. }
  right. exists (firstn k p), (skipn k p).
  pose proof (mnar_loop_trace X k (skipn k p) (firstn k p) (np.zeros (nrows X) (ncols X)) r2
                (zeros_well_formed _ _) eq_refl eq_refl) as Hloop.
  cbv zeta in Hloop. destruct Hloop as (Hall & Hfin).
  destruct (for_each (firstn k p) (mnar_column argsort X k (skipn k p))
              (np.zeros (nrows X) (ncols X)) r2) as [[o r3] evs] eqn:Hrun.
  unfold events, outcome in Hall, Hfin. simpl fst in Hfin. simpl snd in Hall, Hfin.
  exists evs. rewrite Hk.
  assert (Hev : forall (y : result (ndarray bool) * rng_state * list event),
             events y = evs -> events (after [EvColumns (firstn k p) (skipn k p)] y) =
                               EvColumns (firstn k p) (skipn k p) :: evs).
  { intros y <-. now rewrite events_after. }
  destruct o as [mask1|e].
  - rewrite (bind_ok _ _ _ _ _ _ Hrun). rewrite outcome_after.
    split; [apply Hev; cbn; apply app_nil_r|].
    split; [now rewrite firstn_skipn|].
    split; [unfold k; lia|]. split; [unfold k; lia|]. split; [assumption|].
    intros mask Hout. cbn in Hout. inversion Hout; subst mask; clear Hout.
    destruct (Hfin mask1 eq_refl) as (Hcols & Hn & Hm & Hw & Hcells).
    split; [assumption|]. split; [assumption|]. split; [assumption|].
    split; [unfold well_formed, size in *; simpl; now rewrite length_map|].
    intros i j Hi Hj. rewrite cell_gt0.
    destruct (Hcells i j Hi Hj) as [(H1 & Hex) | (H0 & Hno)].
    + left. rewrite H1. split; [reflexivity|assumption].
    + right. rewrite H0, cell_zeros. split; [reflexivity|assumption].
  - rewrite (bind_raise _ _ _ _ _ _ Hrun). cbn.
    split; [reflexivity|]. split; [now rewrite firstn_skipn|].
    split; [unfold k; lia|]. split; [unfold k; lia|]. split; [assumption|].
    intros mask Hout. discriminate.
Qed.

Lemma NoDup_map_unique {A B} (f : A -> B) (l : list A) x y :
  NoDup (map f l) -> In x l -> In y l -> f x = f y -> x = y.
Proof.
  induction l as [|a l IH]; intros Hnd Hx Hy Hf; [destruct Hx|].
  simpl in Hnd. inversion Hnd; subst.
  destruct Hx as [-> | Hx], Hy as [-> | Hy]; auto.
  - exfalso. apply H1. rewrite Hf. now apply in_map.
  - exfalso. apply H1. rewrite <- Hf. now apply in_map.
Qed.

Lemma NoDup_map_Some (l : list nat) : NoDup l -> NoDup (map Some l).
Proof.
  induction 1 as [|x l Hx Hnd IH]; simpl; constructor; auto.
  intros Hin. apply in_map_iff in Hin. destruct Hin as (y & Hy & Hin).
  inversion Hy; subst. contradiction.
Qed.

Lemma column_nth X d i : i < nrows X -> nth i (column X d) 0%Q = np.cell X i d 0%Q.
Proof.
  intros Hi. unfold column.
  set (f := fun i0 => np.cell X i0 d 0%Q).
  rewrite (nth_indep _ 0%Q (f 0)) by (now rewrite length_map, length_seq).
  rewrite map_nth, seq_nth by assumption. reflexivity.
Qed.

(** The affected columns of a run are distinct columns of the matrix,
    and each has one event. *)
Lemma mnar_event_unique (X : ndarray Q) aff unaff evs c d s nd d' s' nd' :
  Permutation (aff ++ unaff) (seq 0 (ncols X)) ->
  map discard_col evs = map Some aff ->
  In (EvDiscard c d s nd) evs -> In (EvDiscard c d' s' nd') evs ->
  c < ncols X /\ In c aff /\ d = d' /\ s = s' /\ nd = nd'.
Proof.
  intros Hperm Hcols H1 H2.
  assert (Hnd : NoDup (aff ++ unaff)).
  { apply (Permutation_NoDup (Permutation_sym Hperm)). apply seq_NoDup. }
  assert (Hc : In c aff).
  { assert (Hin : In (Some c) (map discard_col evs)).
    { change (Some c) with (discard_col (EvDiscard c d s nd)). now apply in_map. }
    rewrite Hcols in Hin. apply in_map_iff in Hin.
    destruct Hin as (y & Hy & Hin). now inversion Hy; subst. }
  split.
  { assert (Hin : In c (aff ++ unaff)) by (apply in_or_app; now left).
    apply (Permutation_in _ Hperm) in Hin. apply in_seq in Hin. lia. }
  split; [assumption|].
  assert (Heq : EvDiscard c d s nd = EvDiscard c d' s' nd').
  { apply (NoDup_map_unique discard_col evs); auto.
    rewrite Hcols. apply NoDup_map_Some. now apply NoDup_app_remove_r in Hnd. }
  inversion Heq. auto.
Qed.

Lemma NoDup_app_disjoint {A} (l1 l2 : list A) x :
  NoDup (l1 ++ l2) -> In x l1 -> In x l2 -> False.
Proof.
  induction l1 as [|a l1 IH]; intros Hnd H1 H2; [destruct H1|].
  simpl in Hnd. inversion Hnd; subst. destruct H1 as [-> | H1].
  - apply H3. apply in_or_app. now right.
  - now apply IH.
Qed.

Lemma run_length_fits (n k : nat) : 2 <= k -> 3 <= n -> n / k + 2 <= n.
Proof.
  intros Hk Hn.
  assert (H : n / k <= n / 2) by (apply Nat.div_le_compat_l; lia).
  pose proof (Nat.Div0.mul_div_le n 2). lia.
Qed.

Lemma mnar_column_ok X k unaff mask c r :
  2 <= k -> 3 <= nrows X ->
  unaff <> [] -> Forall (fun d => d < ncols X) unaff ->
  well_formed mask -> nrows mask = nrows X -> ncols mask = ncols X -> c < ncols X ->
  exists mask' r' ev,
    mnar_column argsort X k unaff mask c r = (Ok mask', r', [ev]) /\
    well_formed mask' /\ nrows mask' = nrows X /\ ncols mask' = ncols X.
Proof.
  intros Hk Hn Hne Hun Hw Hr Hc Hcc. unfold mnar_column.
  rewrite (bind_ok _ _ _ _ _ _ (choice_run unaff r Hne)), after_nil.
  set (d := nth (tape r (cursor r) mod length unaff) unaff 0).
  assert (Hd : d < ncols X).
  { rewrite Forall_forall in Hun. apply Hun. apply nth_In.
    apply Nat.mod_upper_bound. destruct unaff; [congruence|discriminate]. }
  pose proof (run_length_fits (nrows X) k Hk Hn) as Hfit.
  destruct (randint_run 0 (Z.of_nat (nrows X) - Z.of_nat (nrows X / k) - 1)
              (mk_rng (tape r) (S (cursor r))) ltac:(lia)) as (v & Hv & Hvr).
  rewrite (bind_ok _ _ _ _ _ _ Hv), after_nil, bind_emit.
  unfold np.getitem_col. apply Nat.ltb_lt in Hd. rewrite Hd, bind_lift_ok.
  fold (column X d).
  destruct (getitems_in_range (argsort (column X d)) (seq (Z.to_nat v) (nrows X / k)))
    as (rows & Hrows).
  { apply Forall_forall. intros p0 Hp0. apply in_seq in Hp0.
    rewrite argsort_length. lia. }
  rewrite Hrows, bind_lift_ok.
  pose proof (getitems_ok _ 0 _ _ Hrows) as (Erows & _).
  fold (run_rows argsort X d (Z.to_nat v) (nrows X / k)) in Erows. subst rows.
  destruct (setitem_rows_col_in_range (run_rows argsort X d (Z.to_nat v) (nrows X / k))
              mask c 1%Q) as (mask' & Hset).
  { lia. }
  { rewrite Hr. apply run_rows_lt. lia. }
  destruct (setitem_rows_col_ok _ _ _ _ _ Hw Hset) as (Hr' & Hc' & Hw' & _).
  exists mask'. eexists. eexists. rewrite Hset. cbn.
  split; [reflexivity|]. split; [assumption|]. split; lia.
Qed.

Lemma mnar_loop_ok X k unaff : forall cols mask r,
  2 <= k -> 3 <= nrows X ->
  unaff <> [] -> Forall (fun d => d < ncols X) unaff ->
  Forall (fun c => c < ncols X) cols ->
  well_formed mask -> nrows mask = nrows X -> ncols mask = ncols X ->
  exists mask' r' evs,
    for_each cols (mnar_column argsort X k unaff) mask r = (Ok mask', r', evs).
Proof.
  induction cols as [|c rest IH]; intros mask r Hk Hn Hne Hun Hcols Hw Hr Hc.
  - exists mask, r, []. reflexivity.
  - inversion Hcols; subst.
    destruct (mnar_column_ok X k unaff mask c r Hk Hn Hne Hun Hw Hr Hc H1)
      as (mask1 & r1 & ev & Hrun & Hw1 & Hr1 & Hc1).
    destruct (IH mask1 r1 Hk Hn Hne Hun H2 Hw1 Hr1 Hc1) as (mask' & r' & evs & Hrest).
    simpl. rewrite (bind_ok _ _ _ _ _ _ Hrun), Hrest. cbn. eauto.
Qed.

(** With at least three columns, at least three rows and no fewer rows
    than columns but one, the missing-not-at-random branch returns. *)
Lemma mnar_returns X pct r :
  3 <= ncols X -> 3 <= nrows X -> ncols X - 1 <= nrows X ->
  exists mask, outcome (generate_missing_mask argsort X pct false r) = Ok mask.
Proof.
  intros Hm Hn Hnm. unfold generate_missing_mask.
  destruct (randint_run 2 (Z.of_nat (ncols X)) r ltac:(lia)) as (v & Hv & Hvr).
  rewrite (bind_ok _ _ _ _ _ _ Hv), after_nil.
  destruct (permutation_run (seq 0 (ncols X)) (mk_rng (tape r) (S (cursor r))))
    as (p & r2 & Hp & Hperm).
  rewrite (bind_ok _ _ _ _ _ _ Hp), after_nil, bind_emit, outcome_after.
  assert (Hlenp : length p = ncols X).
  { rewrite (Permutation_length Hperm). apply length_seq. }
  assert (Hlt : Forall (fun c => c < ncols X) p).
  { apply Forall_forall. intros c Hc. apply (Permutation_in _ Hperm) in Hc.
    apply in_seq in Hc. lia. }
  destruct (mnar_loop_ok X (Z.to_nat v) (skipn (Z.to_nat v) p) (firstn (Z.to_nat v) p)
              (np.zeros (nrows X) (ncols X)) r2) as (mask' & r' & evs & Hloop);
    try lia; try reflexivity.
  - intros E. apply (f_equal (@length nat)) in E. rewrite length_skipn in E.
    simpl in E. lia.
  - apply Forall_forall. intros c Hc. rewrite Forall_forall in Hlt.
    apply Hlt. rewrite <- (firstn_skipn (Z.to_nat v) p). apply in_or_app. now right.
  - apply Forall_forall. intros c Hc. rewrite Forall_forall in Hlt.
    apply Hlt. rewrite <- (firstn_skipn (Z.to_nat v) p). apply in_or_app. now left.
  - apply zeros_well_formed.
  - rewrite (bind_ok _ _ _ _ _ _ Hloop). cbn. eauto.
Qed.

(** C3, as amended: for every matrix with at least three columns, at
    least three rows and no fewer rows than columns but one, the
    missing-not-at-random branch returns a mask of the shape of the
    matrix in which every affected column has a true entry and a false
    entry and no unaffected column has a true entry. *)
Theorem mnar_mask_columns X pct r :
  3 <= ncols X -> 3 <= nrows X -> ncols X - 1 <= nrows X ->
  let x := generate_missing_mask argsort X pct false r in
  exists aff unaff evs mask,
    events x = EvColumns aff unaff :: evs /\ outcome x = Ok mask /\
    Permutation (aff ++ unaff) (seq 0 (ncols X)) /\
    2 <= length aff /\ length aff < ncols X /\
    nrows mask = nrows X /\ ncols mask = ncols X /\
    (forall c, In c aff ->
       (exists i, i < nrows X /\ np.cell mask i c false = true) /\
       (exists i, i < nrows X /\ np.cell mask i c false = false)) /\
    (forall c, In c unaff ->
       forall i, i < nrows X -> np.cell mask i c false = false).
Proof.
  intros Hm Hn Hnm x. subst x.
  destruct (mnar_returns X pct r Hm Hn Hnm) as (mask & Hout).
  destruct (mnar_trace X pct r) as [(_ & e & He) | Hrun]; [congruence|].
  destruct Hrun as (aff & unaff & evs & Hev & Hperm & Hk2 & Hkm & Hall & Hfin).
  destruct (Hfin mask Hout) as (Hcols & Hr & Hc & _ & Hcells).
  exists aff, unaff, evs, mask.
  repeat (split; [assumption|]).
  assert (Hnd : NoDup (aff ++ unaff)).
  { apply (Permutation_NoDup (Permutation_sym Hperm)). apply seq_NoDup. }
  split.
  - intros c Hc_aff.
    assert (Hex : exists d s nd, In (EvDiscard c d s nd) evs).
    { assert (Hin : In (Some c) (map discard_col evs))
        by (rewrite Hcols; now apply in_map).
      apply in_map_iff in Hin. destruct Hin as (ev & Hev' & Hin).
      destruct ev; try discriminate. simpl in Hev'. inversion Hev'; subst. eauto. }
    destruct Hex as (d & s & nd & Hin).
    destruct (mnar_event_unique X aff unaff evs c d s nd d s nd Hperm Hcols Hin Hin)
      as (Hcm & _).
    pose proof Hin as Hok. rewrite Forall_forall in Hall. apply Hall in Hok.
    simpl in Hok. destruct Hok as (_ & Hnd' & Hfit).
    assert (Hpos : 0 < nd).
    { subst nd. apply Nat.div_str_pos. lia. }
    split.
    + exists (nth s (argsort (column X d)) 0).
      split; [apply argsort_row_lt; lia|].
      assert (Hcov : In (nth s (argsort (column X d)) 0) (run_rows argsort X d s nd)).
      { unfold run_rows. apply in_map_iff. exists s. split; [reflexivity|].
        apply in_seq. lia. }
      destruct (Hcells (nth s (argsort (column X d)) 0) c
                  ltac:(apply argsort_row_lt; lia) Hcm) as [(H1 & _) | (_ & Hno)];
        [assumption|].
      exfalso. exact (Hno d s nd Hin Hcov).
    + exists (nth (nrows X - 1) (argsort (column X d)) 0).
      split; [apply argsort_row_lt; lia|].
      destruct (Hcells (nth (nrows X - 1) (argsort (column X d)) 0) c
                  ltac:(apply argsort_row_lt; lia) Hcm)
        as [(_ & d' & s' & nd'0 & Hin' & Hcov) | (H0 & _)]; [|assumption].
      exfalso.
      destruct (mnar_event_unique X aff unaff evs c d s nd d' s' nd'0 Hperm Hcols Hin Hin')
        as (_ & _ & <- & <- & <-).
      revert Hcov. apply row_after_run; lia.
  - intros c Hc_un i Hi.
    assert (Hcm : c < ncols X).
    { assert (Hin : In c (aff ++ unaff)) by (apply in_or_app; now right).
      apply (Permutation_in _ Hperm) in Hin. apply in_seq in Hin. lia. }
    destruct (Hcells i c Hi Hcm) as [(_ & d & s & nd & Hin & _) | (H0 & _)];
      [|assumption].
    exfalso.
    destruct (mnar_event_unique X aff unaff evs c d s nd d s nd Hperm Hcols Hin Hin)
      as (_ & Hc_aff & _).
    exact (NoDup_app_disjoint aff unaff c Hnd Hc_aff Hc_un).
Qed.

(** [argsort] lists the positions by increasing value. *)
Hypothesis argsort_sorted : forall v p q,
  p <= q -> q < length v ->
  (nth (nth p (argsort v) 0%nat) v 0 <= nth (nth q (argsort v) 0%nat) v 0)%Q.

Lemma argsort_position X d i :
  i < nrows X -> exists p, p < nrows X /\ nth p (argsort (column X d)) 0 = i.
Proof.
  intros Hi.
  assert (Hin : In i (argsort (column X d))).
  { apply (Permutation_in _ (Permutation_sym (argsort_perm (column X d)))).
    apply in_seq. rewrite column_length. lia. }
  destruct (In_nth _ _ 0 Hin) as (p & Hp & Heq).
  rewrite argsort_length in Hp. eauto.
Qed.

(** C10: under the missing-not-at-random mechanism the start of the run
    of an affected column is at most n_samples - run_length - 2, so the
    run ends no later than sorted position n_samples - 3; the cells of
    the column that are marked missing are those of the rows of the run,
    and the rows at the last two sorted positions, which hold the two
    largest values of the driver column, are never marked. *)
Theorem top_rows_never_discarded X pct r mask c d s nd :
  outcome (generate_missing_mask argsort X pct false r) = Ok mask ->
  In (EvDiscard c d s nd) (events (generate_missing_mask argsort X pct false r)) ->
  let n := nrows X in
  let top1 := nth (n - 1) (argsort (column X d)) 0 in
  let top2 := nth (n - 2) (argsort (column X d)) 0 in
  s + nd + 2 <= n /\
  (forall i, i < n ->
     (np.cell mask i c false = true <-> In i (run_rows argsort X d s nd))) /\
  top1 < n /\ top2 < n /\ top1 <> top2 /\
  np.cell mask top1 c false = false /\ np.cell mask top2 c false = false /\
  (forall i, i < n -> (np.cell X i d 0 <= np.cell X top1 d 0)%Q) /\
  (forall i, i < n -> i <> top1 -> (np.cell X i d 0 <= np.cell X top2 d 0)%Q).
Proof.
  intros Hout Hin n top1 top2.
  destruct (mnar_trace X pct r) as [(Hnil & _) | Hrun].
  { rewrite Hnil in Hin. destruct Hin. }
  destruct Hrun as (aff & unaff & evs & Hev & Hperm & _ & _ & Hall & Hfin).
  destruct (Hfin mask Hout) as (Hcols & _ & _ & _ & Hcells).
  rewrite Hev in Hin. destruct Hin as [Heq | Hin]; [discriminate|].
  assert (Hok : s + nd + 2 <= n).
  { rewrite Forall_forall in Hall. apply Hall in Hin. simpl in Hin. tauto. }
  destruct (mnar_event_unique X aff unaff evs c d s nd d s nd Hperm Hcols Hin Hin)
    as (Hc & _).
  assert (Hmark : forall i, i < n ->
            (np.cell mask i c false = true <-> In i (run_rows argsort X d s nd))).
  { intros i Hi. destruct (Hcells i c Hi Hc) as [(H1 & d' & s' & nd' & Hin' & Hcov) | (H0 & Hno)].
    - destruct (mnar_event_unique X aff unaff evs c d s nd d' s' nd' Hperm Hcols Hin Hin')
        as (_ & _ & -> & -> & ->).
      tauto.
    - split; [congruence|]. intros Hcov. exfalso. exact (Hno d s nd Hin Hcov). }
  assert (Ht1 : top1 < n) by (apply argsort_row_lt; unfold n in *; lia).
  assert (Ht2 : top2 < n) by (apply argsort_row_lt; unfold n in *; lia).
  assert (Hn1 : ~ In top1 (run_rows argsort X d s nd))
    by (apply row_after_run; unfold n in *; lia).
  assert (Hn2 : ~ In top2 (run_rows argsort X d s nd))
    by (apply row_after_run; unfold n in *; lia).
  split; [assumption|]. split; [assumption|].
  split; [assumption|]. split; [assumption|]. split.
  { intros Heq. pose proof (argsort_NoDup X d) as Hnd. rewrite NoDup_nth in Hnd.
    specialize (Hnd (n - 1) (n - 2)). rewrite argsort_length in Hnd.
    unfold n in *. specialize (Hnd ltac:(lia) ltac:(lia) Heq). lia. }
  split.
  { destruct (np.cell mask top1 c false) eqn:E; [|reflexivity].
    exfalso. apply Hn1. now apply Hmark. }
  split.
  { destruct (np.cell mask top2 c false) eqn:E; [|reflexivity].
    exfalso. apply Hn2. now apply Hmark. }
  split.
  - intros i Hi. destruct (argsort_position X d i Hi) as (p & Hp & Hpi).
    rewrite <- !column_nth by assumption. rewrite <- Hpi.
    apply argsort_sorted; rewrite ?column_length; unfold n in *; lia.
  - intros i Hi Hne. destruct (argsort_position X d i Hi) as (p & Hp & Hpi).
    rewrite <- !column_nth by assumption. rewrite <- Hpi.
    assert (Hpn : p <> n - 1) by (intros ->; apply Hne; now rewrite <- Hpi).
    apply argsort_sorted; rewrite ?column_length; unfold n in *; lia.
Qed.

End MaskProperties.

(** ** The insertion argsort is an argsort *)

Lemma insert_by_perm v i (l : list nat) : Permutation (insert_by v i l) (i :: l).
Proof.
  induction l as [|j t IH]; simpl; [reflexivity|].
  destruct (Qle_bool (nth i v 0%Q) (nth j v 0%Q)); [reflexivity|].
  eapply perm_trans; [apply perm_skip, IH|apply perm_swap].
Qed.

Lemma argsort_insertion_perm v : Permutation (argsort_insertion v) (seq 0 (length v)).
Proof.
  unfold argsort_insertion. generalize (seq 0 (length v)) as l.
  induction l as [|i l IH]; simpl; [constructor|].
  eapply perm_trans; [apply insert_by_perm|]. now constructor.
Qed.

Lemma insert_by_sorted v i (l : list nat) :
  StronglySorted (by_value v) l -> StronglySorted (by_value v) (insert_by v i l).
Proof.
  induction l as [|j t IH]; intros Hs; simpl.
  - constructor; constructor.
  - inversion Hs; subst.
    destruct (Qle_bool (nth i v 0%Q) (nth j v 0%Q)) eqn:E.
    + apply Qle_bool_iff in E. constructor; [assumption|].
      constructor; [exact E|].
      rewrite Forall_forall in *. intros x Hx. unfold by_value in *.
      eapply Qle_trans; [exact E|]. now apply H2.
    + constructor; [now apply IH|].
      rewrite Forall_forall in *. intros x Hx.
      apply (Permutation_in _ (insert_by_perm v i t)) in Hx.
      destruct Hx as [<- | Hx]; [|now apply H2].
      unfold by_value. apply Qlt_le_weak, Qnot_le_lt.
      intros Hle. apply Qle_bool_iff in Hle. congruence.
Qed.

Lemma argsort_insertion_strongly_sorted v :
  StronglySorted (by_value v) (argsort_insertion v).
Proof.
  unfold argsort_insertion. generalize (seq 0 (length v)) as l.
  induction l as [|i l IH]; simpl; [constructor|]. now apply insert_by_sorted.
Qed.

Lemma StronglySorted_nth v (l : list nat) :
  StronglySorted (by_value v) l ->
  forall p q, p <= q -> q < length l -> by_value v (nth p l 0) (nth q l 0).
Proof.
  induction 1 as [|a l Hs IH Hall]; intros p q Hpq Hq; simpl in Hq; [lia|].
  destruct p as [|p], q as [|q]; simpl; try lia.
  - unfold by_value. apply Qle_refl.
  - rewrite Forall_forall in Hall. apply Hall. apply nth_In. lia.
  - apply IH; lia.
Qed.

Lemma argsort_insertion_sorted v p q :
  p <= q -> q < length v ->
  (nth (nth p (argsort_insertion v) 0%nat) v 0 <=
   nth (nth q (argsort_insertion v) 0%nat) v 0)%Q.
Proof.
  intros Hpq Hq.
  apply (StronglySorted_nth v _ (argsort_insertion_strongly_sorted v)); [assumption|].
  rewrite (Permutation_length (argsort_insertion_perm v)), length_seq. assumption.
Qed.

(** ** The orchestrator *)

Lemma mask_events_app (a b : list event) :
  mask_events (a ++ b) = mask_events a ++ mask_events b.
Proof. apply filter_app. Qed.

Lemma mask_events_none (evs : list event) :
  Forall (fun e => is_mask_event e = false) evs -> mask_events evs = [].
Proof.
  induction 1 as [|e l He Hl IH]; simpl; [reflexivity|]. now rewrite He.
Qed.

Lemma uses_latest_draw_mask_events (evs : list event) : forall cur,
  uses_latest_draw cur evs <-> uses_latest_draw cur (mask_events evs).
Proof.
  induction evs as [|e rest IH]; intros cur; simpl; [tauto|].
  destruct e; simpl; try apply IH. now rewrite IH.
Qed.

Lemma uses_latest_draw_app (a b : list event) : forall cur,
  uses_latest_draw cur a -> (forall c, uses_latest_draw c b) ->
  uses_latest_draw cur (a ++ b).
Proof.
  induction a as [|e rest IH]; intros cur Ha Hb; simpl; [apply Hb|].
  destruct e; simpl in *; try (apply IH; assumption).
  destruct Ha as [Hc Ha]. split; [assumption|]. now apply IH.
Qed.

Lemma uses_latest_draw_iteration names t n : forall cur,
  uses_latest_draw cur (iteration_events (firstn n names) t).
Proof.
  intros cur. destruct t as [[[d p] mar] m]. simpl.
  induction (firstn n names) as [|name l IH]; simpl; auto.
Qed.

(** The events of a loop are made of the events of its body. *)
Lemma for_each_closed {A S} (body : S -> A -> M S) (Q : list event -> Prop) :
  Q [] -> (forall a b, Q a -> Q b -> Q (a ++ b)) ->
  (forall acc x r, Q (events (body acc x r))) ->
  forall l acc r, Q (events (for_each l body acc r)).
Proof.
  intros Hnil Happ Hbody. induction l as [|x l IH]; intros acc r; simpl; [exact Hnil|].
  pose proof (Hbody acc x r) as Hx.
  destruct (body acc x r) as [[[acc1|e] r1] ev1] eqn:Hrun.
  - rewrite (bind_ok _ _ _ _ _ _ Hrun), events_after. apply Happ; [exact Hx|apply IH].
  - rewrite (bind_raise _ _ _ _ _ _ Hrun). exact Hx.
Qed.

Lemma for_each_cons_ok {A S} (body : S -> A -> M S) x l acc r res r' evs :
  for_each (x :: l) body acc r = (Ok res, r', evs) ->
  exists acc1 r1 ev1 ev2,
    body acc x r = (Ok acc1, r1, ev1) /\
    for_each l body acc1 r1 = (Ok res, r', ev2) /\ evs = ev1 ++ ev2.
Proof.
  simpl. intros H.
  destruct (body acc x r) as [[[acc1|e] r1] ev1] eqn:Hrun.
  - rewrite (bind_ok _ _ _ _ _ _ Hrun) in H.
    destruct (for_each l body acc1 r1) as [[o r2] ev2] eqn:Hrest.
    cbn in H. inversion H; subst. exists acc1, r1, ev1, ev2. auto.
  - rewrite (bind_raise _ _ _ _ _ _ Hrun) in H. discriminate.
Qed.

Lemma renders_app T1 T2 e1 e2 :
  renders T1 e1 -> renders T2 e2 -> renders (T1 ++ T2) (e1 ++ e2).
Proof.
  intros (ms1 & Hl1 & H1) (ms2 & Hl2 & H2). exists (ms1 ++ ms2). split.
  - rewrite !length_app. lia.
  - rewrite mask_events_app, H1, H2.
    assert (Hc : combine (T1 ++ T2) (ms1 ++ ms2) = combine T1 ms1 ++ combine T2 ms2).
    { clear H1. revert ms1 Hl1. induction T1 as [|t T1 IH]; intros [|m ms1] Hl1;
        simpl in *; try discriminate; [reflexivity|].
      f_equal. apply IH. lia. }
    rewrite Hc. now rewrite flat_map_app.
Qed.

Lemma for_each_renders {A S} (body : S -> A -> M S) (tr : A -> list triple) :
  (forall acc x r res r' evs, body acc x r = (Ok res, r', evs) -> renders (tr x) evs) ->
  forall l acc r res r' evs,
    for_each l body acc r = (Ok res, r', evs) -> renders (flat_map tr l) evs.
Proof.
  intros Hbody. induction l as [|x l IH]; intros acc r res r' evs H.
  - inversion H; subst. exists []. split; reflexivity.
  - apply for_each_cons_ok in H.
    destruct H as (acc1 & r1 & ev1 & ev2 & Hx & Hrest & ->).
    simpl. apply renders_app; [eapply Hbody; eauto|eapply IH; eauto].
Qed.

Lemma hpo_no_mask_events F g X M pv r :
  mask_events (events (fancyimpute_hpo F g X M pv r)) = [].
Proof.
  destruct (hpo_trace F g X M pv r) as [(-> & _) | Hrun]; [reflexivity|].
  destruct Hrun as (vidx & l' & evs & evr & -> & _ & _ & _ & _ & Hse & _ & _ & Hr).
  simpl. rewrite mask_events_app.
  assert (Hs : mask_events evs = []).
  { apply mask_events_none. rewrite Forall_forall in *. intros e He.
    apply Hse in He. destruct e; simpl in *; auto; contradiction. }
  rewrite Hs. simpl.
  destruct Hr as [(-> & _) | (_ & _ & Hr)]; [reflexivity|].
  destruct Hr as [(-> & _) | (i & best & out & r0 & r1 & _ & _ & _ & _ & Hr)];
    [reflexivity|].
  destruct Hr as [(-> & _) | (Ximp & m & _ & _ & -> & _)]; reflexivity.
Qed.

Lemma rand_loop_run : forall n r, exists us r', rand_loop n r = (Ok us, r', []).
Proof.
  induction n as [|n IH]; intros r; [exists [], r; reflexivity|].
  cbn [rand_loop].
  assert (H1 : rand1 r = (Ok (Z.of_nat (tape r (cursor r)) mod 2 ^ 53 # 2 ^ 53),
                          mk_rng (tape r) (S (cursor r)), [])) by reflexivity.
  rewrite (bind_ok _ _ _ _ _ _ H1), after_nil.
  destruct (IH (mk_rng (tape r) (S (cursor r)))) as (us & r' & Hrun).
  rewrite (bind_ok _ _ _ _ _ _ Hrun), after_nil. unfold ret. eauto.
Qed.

Lemma rand_run n m r : exists u r', rand n m r = (Ok u, r', []).
Proof.
  unfold rand. destruct (rand_loop_run (n * m) r) as (us & r' & Hrun).
  rewrite (bind_ok _ _ _ _ _ _ Hrun), after_nil. unfold ret. eauto.
Qed.

Section ExperimentProperties.

Variable argsort : list Q -> list nat.
Variable SimpleFill_fit KNN_fit MatrixFactorization_fit :
  candidate -> ndarray number -> rng_state -> result (ndarray Q) * rng_state.
Variable SimpleImputer_complete :
  ndarray Q -> rng_state -> result (ndarray Q) * rng_state.
Variable sk_make_low_rank_matrix sk_load_diabetes sk_load_wine sk_make_swiss_roll :
  list kwarg -> result pyvalue.

Local Abbreviation the_imputers :=
  (imputers SimpleFill_fit KNN_fit MatrixFactorization_fit SimpleImputer_complete).
Local Abbreviation the_mechanism :=
  (experiment_mechanism argsort SimpleFill_fit KNN_fit MatrixFactorization_fit
     SimpleImputer_complete).
Local Abbreviation the_dataset :=
  (experiment_dataset argsort SimpleFill_fit KNN_fit MatrixFactorization_fit
     SimpleImputer_complete).
Local Abbreviation the_loaders :=
  (DATA_LOADERS sk_make_low_rank_matrix sk_load_diabetes sk_load_wine
     sk_make_swiss_roll).
Local Abbreviation the_experiment :=
  (experiment argsort SimpleFill_fit KNN_fit MatrixFactorization_fit
     SimpleImputer_complete sk_make_low_rank_matrix sk_load_diabetes sk_load_wine
     sk_make_swiss_roll).

Lemma generate_no_mask_events X pct mar r :
  mask_events (events (generate_missing_mask argsort X pct mar r)) = [].
Proof.
  destruct mar.
  - unfold generate_missing_mask.
    destruct (rand_run (nrows X) (ncols X) r) as (u & r' & Hrun).
    rewrite (bind_ok _ _ _ _ _ _ Hrun), after_nil. reflexivity.
  - destruct (mnar_trace argsort X pct r) as [(-> & _) | Hrun]; [reflexivity|].
    destruct Hrun as (aff & unaff & evs & -> & _ & _ & _ & Hall & _).
    simpl. apply mask_events_none. rewrite Forall_forall in *. intros e He.
    apply Hall in He. destruct e; simpl in *; auto; contradiction.
Qed.

Lemma imputers_quiet X m :
  Forall (fun imp : string * (ndarray Q -> ndarray bool -> M number) =>
            forall r, mask_events (events (snd imp X m r)) = [])
         the_imputers.
Proof.
  unfold imputers.
  repeat constructor; simpl; intros r; try apply hpo_no_mask_events.
  unfold impute_datawig.
  destruct (SimpleImputer_complete X r) as [[df|e] r'] eqn:Hc.
  - rewrite (bind_ok _ _ r df r' []) by (now rewrite Hc). rewrite after_nil.
    unfold lift. reflexivity.
  - rewrite (bind_raise _ _ r e r' []) by (now rewrite Hc). reflexivity.
Qed.

Lemma imputer_step_events d p mar X m acc
    (imp : string * (ndarray Q -> ndarray bool -> M number)) r :
  (forall r', mask_events (events (snd imp X m r')) = []) ->
  mask_events (events (experiment_imputer d p mar X m acc imp r)) =
    [EvImputer d p mar (fst imp) m].
Proof.
  intros Hq. unfold experiment_imputer.
  rewrite bind_emit, events_after, mask_events_app.
  specialize (Hq r).
  destruct (snd imp X m r) as [[[mse|e] r1] ev1] eqn:Hrun.
  - rewrite (bind_ok _ _ _ _ _ _ Hrun), events_after, bind_emit, events_after.
    rewrite !mask_events_app. unfold events in Hq. simpl snd in Hq.
    rewrite Hq. reflexivity.
  - rewrite (bind_raise _ _ _ _ _ _ Hrun). unfold events in *. simpl snd in *.
    rewrite Hq. reflexivity.
Qed.

Lemma imputer_loop_events d p mar X m :
  forall (imps : list (string * (ndarray Q -> ndarray bool -> M number))),
  Forall (fun imp => forall r, mask_events (events (snd imp X m r)) = []) imps ->
  forall acc r,
    let x := for_each imps (experiment_imputer d p mar X m) acc r in
    exists n,
      mask_events (events x) =
        map (fun name => EvImputer d p mar name m) (firstn n (map fst imps)) /\
      (forall res, outcome x = Ok res -> n = length imps).
Proof.
  induction imps as [|imp imps IH]; intros Hq acc r; simpl.
  - exists 0. split; reflexivity.
  - inversion Hq; subst.
    pose proof (imputer_step_events d p mar X m acc imp r H1) as Hstep.
    destruct (experiment_imputer d p mar X m acc imp r) as [[[acc1|e] r1] ev1] eqn:Hrun.
    + rewrite (bind_ok _ _ _ _ _ _ Hrun), events_after, outcome_after.
      destruct (IH H2 acc1 r1) as (n & Hn & Hok).
      unfold events in Hstep. simpl snd in Hstep.
      exists (S n). rewrite mask_events_app, Hstep, Hn.
      split; [reflexivity|]. intros res Hres. f_equal. eauto.
    + rewrite (bind_raise _ _ _ _ _ _ Hrun). exists 1.
      split; [rewrite Hstep; now destruct imps|discriminate].
Qed.

(** The mask events of one iteration of the loop of line 140: none when
    it fails before the mask is drawn; else the draw, then the calls of
    the imputers reached, all on the drawn mask. *)
Lemma mechanism_events d p Xv acc mar r :
  let x := the_mechanism d p Xv acc mar r in
  (mask_events (events x) = [] /\ exists e, outcome x = Raise e) \/
  exists m n,
    mask_events (events x) = iteration_events (firstn n imputer_names) ((d, p, mar), m) /\
    (forall res, outcome x = Ok res -> n = length imputer_names).
Proof.
  unfold experiment_mechanism.
  destruct (as_array Xv) as [X|e] eqn:HX.
  2:{ left. rewrite bind_lift_raise. cbn. eauto. }
  rewrite bind_lift_ok.
  pose proof (generate_no_mask_events X p mar r) as Hgen.
  destruct (generate_missing_mask argsort X p mar r) as [[[m|e] r1] ev1] eqn:Hrun.
  2:{ left. rewrite (bind_raise _ _ _ _ _ _ Hrun).
      split; [exact Hgen|]. exists e. reflexivity. }
  right. rewrite (bind_ok _ _ _ _ _ _ Hrun), bind_emit.
  rewrite !events_after, !outcome_after.
  destruct (imputer_loop_events d p mar X m the_imputers (imputers_quiet X m) acc r1)
    as (n & Hn & Hok).
  exists m, n. rewrite !mask_events_app.
  unfold events in Hgen. simpl snd in Hgen. rewrite Hgen.
  rewrite Hn. split; [reflexivity|exact Hok].
Qed.

Lemma mechanism_uses_latest_draw d p Xv acc mar r :
  forall cur, uses_latest_draw cur (events (the_mechanism d p Xv acc mar r)).
Proof.
  intros cur. apply uses_latest_draw_mask_events.
  destruct (mechanism_events d p Xv acc mar r) as [(-> & _) | (m & n & -> & _)].
  - exact I.
  - apply uses_latest_draw_iteration.
Qed.

Lemma mechanism_renders d p Xv acc mar r res r' evs :
  the_mechanism d p Xv acc mar r = (Ok res, r', evs) -> renders [(d, p, mar)] evs.
Proof.
  intros Hrun. pose proof (mechanism_events d p Xv acc mar r) as H.
  rewrite Hrun in H. unfold events, outcome in H. simpl fst in H. simpl snd in H.
  destruct H as [(_ & e & He) | (m & n & Hev & Hn)]; [discriminate|].
  rewrite (Hn res eq_refl) in Hev. exists [m]. split; [reflexivity|].
  rewrite Hev. reflexivity.
Qed.

Lemma dataset_uses_latest_draw p acc f r :
  forall cur, uses_latest_draw cur (events (the_dataset p acc f r)).
Proof.
  unfold experiment_dataset. destruct (get_data f) as [Xv|e].
  - rewrite bind_lift_ok.
    apply (for_each_closed _ (fun evs => forall cur, uses_latest_draw cur evs)).
    + intros cur. exact I.
    + intros a b Ha Hb cur. now apply uses_latest_draw_app.
    + intros acc' mar r'. apply mechanism_uses_latest_draw.
  - rewrite bind_lift_raise. intros cur. exact I.
Qed.

Lemma dataset_renders p acc f r res r' evs :
  the_dataset p acc f r = (Ok res, r', evs) ->
  renders [(fn_name f, p, true); (fn_name f, p, false)] evs.
Proof.
  unfold experiment_dataset. destruct (get_data f) as [Xv|e].
  - rewrite bind_lift_ok. intros Hrun.
    apply (for_each_renders _ (fun mar => [(fn_name f, p, mar)])) in Hrun; [exact Hrun|].
    intros acc' mar r0 res0 r0' evs0. apply mechanism_renders.
  - rewrite bind_lift_raise. discriminate.
Qed.

(** C4, as amended: in every run of experiment each imputer is called
    on the mask of the latest draw, made in its own (percent_missing,
    dataset, mechanism) iteration; and in every run that returns, the
    mask is drawn once per such triple, in the order of the loops, and
    that one mask is handed to each of the four imputers evaluated
    within the triple. *)
Theorem mask_shared_within_triple percent_missing_list r :
  let x := the_experiment percent_missing_list r in
  (forall cur, uses_latest_draw cur (events x)) /\
  (forall res, outcome x = Ok res ->
     exists ms,
       length ms = length (triples_of percent_missing_list) /\
       mask_events (events x) =
         flat_map (iteration_events imputer_names)
                  (combine (triples_of percent_missing_list) ms)).
Proof.
  unfold experiment. split.
  - apply (for_each_closed _ (fun evs => forall cur, uses_latest_draw cur evs)).
    + intros cur. exact I.
    + intros a b Ha Hb cur. now apply uses_latest_draw_app.
    + intros acc p r0.
      apply (for_each_closed _ (fun evs => forall cur, uses_latest_draw cur evs)).
      * intros cur. exact I.
      * intros a b Ha Hb cur. now apply uses_latest_draw_app.
      * intros acc' f r1. apply dataset_uses_latest_draw.
  - intros res Hout.
    destruct (for_each percent_missing_list
                (fun results p => for_each the_loaders (the_dataset p) results) [] r)
      as [[o r'] evs] eqn:Hrun.
    unfold outcome in Hout. simpl in Hout. subst o.
    change (renders (triples_of percent_missing_list) evs).
    apply (for_each_renders _
             (fun p => flat_map (fun d => [(d, p, true); (d, p, false)]) loader_names))
      in Hrun; [exact Hrun|].
    intros acc p r0 res0 r0' evs0 Hp.
    apply (for_each_renders _
             (fun f => [(fn_name f, p, true); (fn_name f, p, false)])) in Hp;
      [exact Hp|].
    intros acc' f r1 res1 r1' evs1. apply dataset_renders.
Qed.

End ExperimentProperties.

(** ** Runs of the harness on the examples *)



Lemma adapter_input_hides_mask_witness :
  count_true (data example_mask) <=
    count_nan (mk_ndarray 2 3 [NaN; NaN; Num 3; Num 4; NaN; Num 6]) /\
  exists t vidx V rest,
    events (fancyimpute_hpo (constant_fill 0) single_grid example_X example_mask 50
              (tape_of [0; 0])) = EvValidation t vidx V :: rest /\
    mk_ndarray 2 3 [NaN; NaN; Num 3; Num 4; NaN; Num 6] =
      hide example_X (np.map2 orb (data example_mask) (data V)) /\
    forall i, i < size example_X ->
      is_nan (nth i [NaN; NaN; Num 3; Num 4; NaN; Num 6] (Num 0)) =
      nth i (data example_mask) false || nth i (data V) false.
Proof.
  apply (adapter_input_hides_mask (constant_fill 0) single_grid example_X example_mask
           50 (tape_of [0; 0]) Search "ConstantFill"
           [("fill_method"%string, HStr "mean")]
           (mk_ndarray 2 3 [NaN; NaN; Num 3; Num 4; NaN; Num 6])
           (Ok (mk_ndarray 2 3 [0; 0; 3; 4; 0; 6]%Q))).
  - reflexivity.
  - reflexivity.
  - simpl. right. left. reflexivity.
Defined.

Lemma mnar_mask_columns_witness :
  exists aff unaff evs mask,
    events (generate_missing_mask argsort_insertion example_square 10 false
              (tape_of [1; 0; 0; 0; 0; 0; 1])) = EvColumns aff unaff :: evs /\
    outcome (generate_missing_mask argsort_insertion example_square 10 false
               (tape_of [1; 0; 0; 0; 0; 0; 1])) = Ok mask /\
    Permutation (aff ++ unaff) (seq 0 (ncols example_square)) /\
    2 <= length aff /\ length aff < ncols example_square /\
    nrows mask = nrows example_square /\ ncols mask = ncols example_square /\
    (forall c, In c aff ->
       (exists i, i < nrows example_square /\ np.cell mask i c false = true) /\
       (exists i, i < nrows example_square /\ np.cell mask i c false = false)) /\
    (forall c, In c unaff ->
       forall i, i < nrows example_square -> np.cell mask i c false = false).
Proof.
  apply (mnar_mask_columns argsort_insertion argsort_insertion_perm example_square 10
           (tape_of [1; 0; 0; 0; 0; 0; 1])); simpl; lia.
Defined.

Lemma first_minimum_selected_witness :
  map fst (trained (events (fancyimpute_hpo param_fill example_grid example_X
                              example_mask 50 (tape_of [0; 1]))))
  = dict_product example_grid /\
  exists i, nth_error (dict_product example_grid) i = Some [("k"%string, HInt 3)] /\
            first_min
              (map snd (trained (events (fancyimpute_hpo param_fill example_grid
                                           example_X example_mask 50 (tape_of [0; 1])))))
              i.
Proof.
  apply (first_minimum_selected param_fill example_grid example_X example_mask 50
           (tape_of [0; 1]) "ParamFill" [("k"%string, HInt 3)] (Num (8 # 2))).
  simpl. do 8 right. left. reflexivity.
Defined.

Lemma validation_mask_disjoint_witness :
  ~ (nth 1 (data example_mask) false = true /\
     nth 1 [false; true; false; false; false; false] false = true).
Proof.
  apply (validation_mask_disjoint (constant_fill 0) single_grid example_X example_mask
           50 (tape_of [0; 0]) [1; 2; 3; 5] [1; 1]
           (mk_ndarray 2 3 [false; true; false; false; false; false])).
  simpl. left. reflexivity.
Defined.

Lemma validation_draw_with_replacement_witness :
  let train_idx := np.nonzero (np.eq_False (data example_mask)) in
  let n_validation := count_false (data example_mask) * 50 / 100 in
  (forall i, In i train_idx <->
             i < length (data example_mask) /\ nth i (data example_mask) true = false) /\
  (exists vidx V rest,
      events (fancyimpute_hpo (constant_fill 0) single_grid example_X example_mask 50
                (tape_of [0; 0])) = EvValidation train_idx vidx V :: rest /\
      length vidx = n_validation /\
      Forall (fun i => In i train_idx) vidx /\
      (forall i, nth i (data V) false = true <-> In i vidx) /\
      count_true (data V) = length (nodup Nat.eq_dec vidx) /\
      count_true (data V) <= n_validation /\
      (count_true (data V) < n_validation <-> ~ NoDup vidx)) /\
  (forall picks,
      length picks = n_validation ->
      Forall (fun j => j < length train_idx) picks ->
      exists r' V rest,
        events (fancyimpute_hpo (constant_fill 0) single_grid example_X example_mask 50
                  r') =
          EvValidation train_idx (map (fun j => nth j train_idx 0) picks) V :: rest /\
        (forall i, nth i (data V) false = true <->
                   In i (map (fun j => nth j train_idx 0) picks))) /\
  (2 <= n_validation ->
   exists r' vidx V rest,
     events (fancyimpute_hpo (constant_fill 0) single_grid example_X example_mask 50 r')
       = EvValidation train_idx vidx V :: rest /\
     ~ NoDup vidx /\
     (forall i, nth i (data V) false = true <-> In i vidx) /\
     0 < count_true (data V) < n_validation).
Proof.
  apply (validation_draw_with_replacement (constant_fill 0) single_grid example_X
           example_mask 50 (tape_of [0; 0])); reflexivity.
Defined.

Lemma top_rows_never_discarded_witness :
  let mask := mk_ndarray 4 4
                [true; false; false; false; false; false; false; false;
                 false; true; true; false; false; false; false; false] in
  let top1 := nth 3 (argsort_insertion (column example_square 3)) 0 in
  let top2 := nth 2 (argsort_insertion (column example_square 3)) 0 in
  1 + 1 + 2 <= 4 /\
  (forall i, i < 4 ->
     (np.cell mask i 0 false = true <->
      In i (run_rows argsort_insertion example_square 3 1 1))) /\
  top1 < 4 /\ top2 < 4 /\ top1 <> top2 /\
  np.cell mask top1 0 false = false /\ np.cell mask top2 0 false = false /\
  (forall i, i < 4 -> (np.cell example_square i 3 0 <= np.cell example_square top1 3 0)%Q) /\
  (forall i, i < 4 -> i <> top1 ->
     (np.cell example_square i 3 0 <= np.cell example_square top2 3 0)%Q).
Proof.
  apply (top_rows_never_discarded argsort_insertion argsort_insertion_perm
           argsort_insertion_sorted example_square 10 (tape_of [1; 0; 0; 0; 0; 0; 1])
           (mk_ndarray 4 4
              [true; false; false; false; false; false; false; false;
               false; true; true; false; false; false; false; false])
           0 3 1 1).
  - reflexivity.
  - simpl. right. left. reflexivity.
Defined.

(** C3, as stated, fails on a matrix of two rows and four columns: when
    three columns are drawn as affected the run has 2 // 3 = 0 rows, the
    mask is returned, and the affected column 0 has no true entry. *)
Lemma mnar_wide_matrix_unmarked :
  let x := generate_missing_mask argsort_insertion example_wide 10 false (tape_of [1]) in
  3 <= ncols example_wide /\
  events x = [EvColumns [0; 1; 2] [3]; EvDiscard 0 3 0 0; EvDiscard 1 3 0 0;
              EvDiscard 2 3 0 0] /\
  exists mask, outcome x = Ok mask /\
    ~ (exists i, i < nrows example_wide /\ np.cell mask i 0 false = true).
Proof.
  split; [simpl; lia|]. split; [reflexivity|].
  exists (mk_ndarray 2 4 (repeat false 8)). split; [reflexivity|].
  intros (i & Hi & Hc). simpl in Hi.
  destruct i as [|[|i]]; [discriminate|discriminate|lia].
Qed.

(** C4, as stated, fails: in a run of experiment that returns, eight
    masks are drawn for thirty-two imputer calls, and the mask drawn for
    the first triple is the mask handed to impute_mean, then to
    impute_knn, with no draw in between. *)
Lemma mask_reused_across_imputers :
  let x := stub_experiment [10%Q] (tape_of []) in
  (exists res, outcome x = Ok res /\ length res = 32) /\
  count_draws (events x) = 8 /\
  length (mask_events (events x)) = 8 + 32 /\
  firstn 3 (mask_events (events x)) =
    [EvMask "make_low_rank_matrix" 10 true full_mask;
     EvImputer "make_low_rank_matrix" 10 true "impute_mean" full_mask;
     EvImputer "make_low_rank_matrix" 10 true "impute_knn" full_mask].
Proof.
  split; [|split; [|split]].
  - eexists. split; [vm_compute; reflexivity|reflexivity].
  - vm_compute. reflexivity.
  - vm_compute. reflexivity.
  - vm_compute. reflexivity.
Qed.

(** C8, as stated, fails on a grid without candidate: N = 0, the search
    raises at the selection and fit_transform was invoked 0 times, not
    N + 1 = 1 time. *)
Lemma no_candidate_no_fit :
  let x := fancyimpute_hpo (constant_fill 0) empty_grid example_X example_mask 10
             (tape_of []) in
  length (dict_product empty_grid) = 0 /\
  outcome x = Raise ValueError /\
  count_fits (events x) = 0 /\
  count_fits (events x) <> length (dict_product empty_grid) + 1.
Proof.
  split; [reflexivity|]. split; [reflexivity|]. split; [reflexivity|].
  simpl. discriminate.
Qed.

(** ** Every outcome of a draw is the outcome of some tape *)

Lemma randint_reaches (low high v : Z) (c : nat) :
  (low <= v < high)%Z ->
  exists tp, randint low high (mk_rng tp c) = (Ok v, mk_rng tp (S c), []).
Proof.
  intros Hv. exists (fun _ => Z.to_nat (v - low)).
  unfold randint. destruct (Z.ltb_spec low high) as [Hlt|Hge]; [|lia].
  rewrite (bind_ok _ _ _ (Z.to_nat (v - low)) (mk_rng (fun _ => Z.to_nat (v - low)) (S c)) [])
    by reflexivity.
  rewrite after_nil. unfold ret. simpl.
  rewrite Z2Nat.id by lia. rewrite Z.mod_small by lia.
  replace (low + (v - low))%Z with v by lia. reflexivity.
Qed.

Lemma shuffle_replay : forall p l,
  Permutation p l ->
  exists picks, length picks = length l /\
    forall tp c,
      (forall k, k < length picks -> tp (c + k) = nth k picks 0) ->
      shuffle (length l) l (mk_rng tp c) = (Ok p, mk_rng tp (c + length l), []).
Proof.
  induction p as [|x p IH]; intros l Hperm.
  - apply Permutation_nil in Hperm. subst l. exists []. split; [reflexivity|].
    intros tp c _. simpl. now rewrite Nat.add_0_r.
  - assert (Hin : In x l) by (apply (Permutation_in _ Hperm); now left).
    destruct (In_nth _ _ 0 Hin) as (i & Hi & Hx).
    assert (Hrest : Permutation p (remove_nth i l)).
    { apply Permutation_cons_inv with x. eapply perm_trans; [exact Hperm|].
      rewrite <- Hx. apply Permutation_sym, remove_nth_perm. assumption. }
    destruct (IH _ Hrest) as (picks & Hlen & Hrun).
    rewrite remove_nth_length in Hlen by assumption.
    exists (i :: picks). split; [simpl; lia|].
    intros tp c Htp.
    destruct (length l) as [|n] eqn:Hl; [lia|]. simpl in Hlen.
    cbn [shuffle]. rewrite Hl.
    assert (H0 : draw_below (S n) (mk_rng tp c) = (Ok i, mk_rng tp (S c), [])).
    { unfold draw_below.
      rewrite (bind_ok _ _ _ (tp c) (mk_rng tp (S c)) []) by reflexivity.
      rewrite after_nil. unfold ret.
      specialize (Htp 0 ltac:(simpl; lia)). rewrite Nat.add_0_r in Htp. simpl in Htp.
      rewrite Htp, Nat.mod_small by lia. reflexivity. }
    rewrite (bind_ok _ _ _ _ _ _ H0), after_nil.
    specialize (Hrun tp (S c)).
    rewrite remove_nth_length, Hl in Hrun by lia. simpl in Hrun.
    rewrite (bind_ok _ _ _ _ _ _ (Hrun (fun k Hk =>
               eq_trans (f_equal tp (eq_sym (Nat.add_succ_r c k)))
                        (Htp (S k) ltac:(simpl; lia))))), after_nil.
    unfold ret. rewrite Hx, Nat.add_succ_r. reflexivity.
Qed.

Lemma permutation_reaches (l p : list nat) :
  Permutation p l -> exists r r', permutation l r = (Ok p, r', []).
Proof.
  intros Hperm. destruct (shuffle_replay p l Hperm) as (picks & _ & Hrun).
  exists (mk_rng (fun k => nth k picks 0) 0). eexists. apply Hrun. reflexivity.
Qed.

(* ================================================================== *)
(** * Further properties of the harness *)

(** ** The enumeration of a grid (lines 27-32) *)

Lemma product_In {A} (ls : list (list A)) : forall vals,
  In vals (product ls) <-> Forall2 (fun v vs => In v vs) vals ls.
Proof.
  induction ls as [|vs rest IH]; intros vals; simpl.
  - split.
    + intros [<- | []]. constructor.
    + intros H. inversion H. now left.
  - rewrite in_flat_map. split.
    + intros (v & Hv & Hin). apply in_map_iff in Hin.
      destruct Hin as (tl & <- & Htl). constructor; [assumption|]. now apply IH.
    + intros H. inversion H as [|v vs' tl rest' Hv Htl]; subst.
      exists v. split; [assumption|]. apply in_map. now apply IH.
Qed.

Lemma product_length {A} (ls : list (list A)) :
  length (product ls) = fold_right (fun vs acc => length vs * acc) 1 ls.
Proof.
  induction ls as [|vs rest IH]; simpl; [reflexivity|].
  rewrite <- IH. clear IH.
  induction vs as [|v vs IHv]; simpl; [reflexivity|].
  now rewrite length_app, length_map, IHv.
Qed.

Lemma combine_split_eq {A B} (l : list (A * B)) : combine (map fst l) (map snd l) = l.
Proof.
  induction l as [|[a b] l IH]; simpl; [reflexivity|]. now rewrite IH.
Qed.

Lemma combine_fst_snd {A B} (ks : list A) : forall (vs : list B),
  length ks = length vs ->
  map fst (combine ks vs) = ks /\ map snd (combine ks vs) = vs.
Proof.
  induction ks as [|k ks IH]; intros [|v vs] H; simpl in *; try discriminate; auto.
  destruct (IH vs ltac:(lia)) as [-> ->]. auto.
Qed.

(** X1: the candidates of a grid are exactly the assignments of one
    listed value to each parameter, in the order of the grid, and there
    are as many as the product of the numbers of values; a parameter
    with no value leaves no candidate, a grid with no parameter leaves
    the one empty candidate. *)
Theorem dict_product_enumerates (hp_dict : grid) :
  length (dict_product hp_dict) = grid_size hp_dict /\
  forall params, In params (dict_product hp_dict) <-> assigns hp_dict params.
Proof.
  unfold dict_product, grid_size, assigns. split.
  - rewrite length_map, product_length.
    induction hp_dict as [|[k vs] rest IH]; simpl; [reflexivity|]. now rewrite IH.
  - intros params. rewrite in_map_iff. split.
    + intros (vals & <- & Hin). apply product_In in Hin.
      assert (Hlen : length (map fst hp_dict) = length vals).
      { apply Forall2_length in Hin. now rewrite !length_map in *. }
      destruct (combine_fst_snd _ _ Hlen) as [-> ->]. auto.
    + intros [Hk Hv]. exists (map snd params). split.
      * rewrite <- Hk. apply combine_split_eq.
      * now apply product_In.
Qed.

(** ** The error measure (lines 34-35) *)




(** ** Failures of the search (lines 37-66) *)



(** On an empty matrix a mask of one row broadcasts to the shape of the
    matrix at line 51: the candidates are then fitted, and the search
    raises at line 62 only. *)
Lemma hpo_broadcast_on_empty :
  let x := fancyimpute_hpo (constant_fill 0) single_grid (mk_ndarray 0 0 [])
             (mk_ndarray 1 0 []) 10 (tape_of []) in
  count_fits (events x) = 1 /\ outcome x = Raise IndexError.
Proof. split; reflexivity. Qed.

Lemma propagates_bind {A B} (m : M A) (k : A -> M B) r :
  propagates (m r) -> (forall a r1, propagates (k a r1)) -> propagates (bind m k r).
Proof.
  intros Hm Hk e ev Hin Hf.
  destruct (m r) as [[[a|e0] r1] ev1] eqn:Hrun.
  - rewrite (bind_ok _ _ _ _ _ _ Hrun) in *.
    rewrite events_after in Hin. rewrite outcome_after.
    apply in_app_or in Hin. destruct Hin as [Hin | Hin].
    + specialize (Hm e ev Hin Hf). discriminate.
    + exact (Hk a r1 e ev Hin Hf).
  - rewrite (bind_raise _ _ _ _ _ _ Hrun) in *.
    specialize (Hm e ev Hin Hf). unfold outcome in *. simpl in *. congruence.
Qed.

Lemma propagates_quiet {A} (x : result A * rng_state * list event) :
  (forall e ev, In ev (events x) -> ~ fails_with e ev) -> propagates x.
Proof. intros H e ev Hin Hf. exfalso. exact (H e ev Hin Hf). Qed.

Lemma propagates_lift {A} (x : result A) r : propagates (lift x r).
Proof. apply propagates_quiet. intros e ev []. Qed.

Lemma propagates_ret {A} (a : A) r : propagates (ret a r).
Proof. apply propagates_quiet. intros e ev []. Qed.

Lemma propagates_emit (ev0 : event) r :
  (forall e, ~ fails_with e ev0) -> propagates (emit ev0 r).
Proof.
  intros H. apply propagates_quiet. intros e ev [<- | []]. apply H.
Qed.

Lemma propagates_fit ph F params Xi r : propagates (fit ph F params Xi r).
Proof.
  destruct (fit_run ph F params Xi r) as (out & r' & _ & ->).
  intros e ev [<- | []] Hf. simpl in Hf. destruct out; [destruct Hf|]. now subst.
Qed.

Lemma propagates_for_each {A S} (body : S -> A -> M S) :
  (forall acc x r, propagates (body acc x r)) ->
  forall l acc r, propagates (for_each l body acc r).
Proof.
  intros Hbody. induction l as [|x l IH]; intros acc r; simpl.
  - apply propagates_ret.
  - apply propagates_bind; [apply Hbody|]. intros a r1. apply IH.
Qed.

Lemma propagates_validation_split X M pv r : propagates (validation_split X M pv r).
Proof.
  apply propagates_quiet. intros e ev Hin.
  destruct (validation_split_cases X M pv r) as [(e0 & r' & H) | (vidx & l' & r' & H & _)].
  - rewrite H in Hin. destruct Hin.
  - simpl in H. rewrite H in Hin. destruct Hin as [<- | []]. simpl. tauto.
Qed.

Lemma propagates_hpo F g X M pv r : propagates (fancyimpute_hpo F g X M pv r).
Proof.
  unfold fancyimpute_hpo.
  apply propagates_bind; [apply propagates_validation_split|]. intros V r1.
  apply propagates_bind.
  - unfold hpo_search.
    apply propagates_bind; [apply propagates_lift|]. intros hidden r2.
    apply propagates_bind; [apply propagates_lift|]. intros Xi r3.
    apply propagates_for_each. intros acc params r4. unfold hpo_step.
    apply propagates_bind; [apply propagates_fit|]. intros Ximp r5.
    apply propagates_bind; [apply propagates_lift|]. intros mse r6.
    apply propagates_bind; [apply propagates_emit; simpl; tauto|]. intros _ r7.
    apply propagates_ret.
  - intros mses r2. unfold hpo_refit.
    apply propagates_bind; [apply propagates_lift|]. intros best r3.
    apply propagates_bind; [apply propagates_lift|]. intros bp r4.
    apply propagates_bind; [apply propagates_lift|]. intros Xi r5.
    apply propagates_bind; [apply propagates_fit|]. intros Ximp r6.
    apply propagates_bind; [apply propagates_lift|]. intros mse r7.
    apply propagates_bind; [apply propagates_emit; simpl; tauto|]. intros _ r8.
    apply propagates_ret.
Qed.

(** X4: the search catches nothing: when an invocation of the adapter
    raises, the search ends with that very exception. *)
Theorem adapter_failure_propagates F g X M pv r ph name params Xin e :
  In (EvFit ph name params Xin (Raise e)) (events (fancyimpute_hpo F g X M pv r)) ->
  outcome (fancyimpute_hpo F g X M pv r) = Raise e.
Proof.
  intros Hin. apply (propagates_hpo F g X M pv r e _ Hin). reflexivity.
Qed.

Lemma adapter_failure_propagates_witness :
  outcome (fancyimpute_hpo failing_adapter example_grid example_X example_mask 50
             (tape_of [0; 1])) = Raise (External 7).
Proof.
  apply (adapter_failure_propagates failing_adapter example_grid example_X example_mask
           50 (tape_of [0; 1]) Search "Failing" [("k"%string, HInt 1)]
           (mk_ndarray 2 3 [NaN; NaN; NaN; Num 4; NaN; Num 6]) (External 7)).
  simpl. right. left. reflexivity.
Defined.

(** ** Failures of the orchestrator (lines 120-153) *)

Section ExperimentFailures.

Variable argsort : list Q -> list nat.
Variable SimpleFill_fit KNN_fit MatrixFactorization_fit :
  candidate -> ndarray number -> rng_state -> result (ndarray Q) * rng_state.
Variable SimpleImputer_complete :
  ndarray Q -> rng_state -> result (ndarray Q) * rng_state.
Variable sk_make_low_rank_matrix sk_load_diabetes sk_load_wine sk_make_swiss_roll :
  list kwarg -> result pyvalue.

Lemma propagates_generate X pct mar r :
  propagates (generate_missing_mask argsort X pct mar r).
Proof.
  apply propagates_quiet. intros e ev Hin. destruct mar.
  - unfold generate_missing_mask in Hin.
    destruct (rand_run (nrows X) (ncols X) r) as (u & r' & Hrun).
    rewrite (bind_ok _ _ _ _ _ _ Hrun), after_nil in Hin. destruct Hin.
  - destruct (mnar_trace argsort X pct r) as [(Hnil & _) | Hrun].
    { rewrite Hnil in Hin. destruct Hin. }
    destruct Hrun as (aff & unaff & evs & Hev & _ & _ & _ & Hall & _).
    rewrite Hev in Hin. destruct Hin as [<- | Hin]; [simpl; tauto|].
    rewrite Forall_forall in Hall. apply Hall in Hin.
    destruct ev; simpl in *; tauto.
Qed.

Lemma propagates_imputers X m :
  Forall (fun imp : string * (ndarray Q -> ndarray bool -> M number) =>
            forall r, propagates (snd imp X m r))
         (imputers SimpleFill_fit KNN_fit MatrixFactorization_fit SimpleImputer_complete).
Proof.
  unfold imputers. repeat constructor; simpl; intros r; try apply propagates_hpo.
  unfold impute_datawig. apply propagates_bind; [|intros; apply propagates_lift].
  apply propagates_quiet. intros e ev Hin. unfold events in Hin.
  destruct (SimpleImputer_complete X r); destruct Hin.
Qed.

Lemma propagates_experiment percent_missing_list r :
  propagates (experiment argsort SimpleFill_fit KNN_fit MatrixFactorization_fit
                SimpleImputer_complete sk_make_low_rank_matrix sk_load_diabetes
                sk_load_wine sk_make_swiss_roll percent_missing_list r).
Proof.
  unfold experiment. apply propagates_for_each. intros acc p r0.
  apply propagates_for_each. intros acc1 f r1. unfold experiment_dataset.
  apply propagates_bind; [apply propagates_lift|]. intros Xv r2.
  apply propagates_for_each. intros acc2 mar r3. unfold experiment_mechanism.
  apply propagates_bind; [apply propagates_lift|]. intros X r4.
  apply propagates_bind; [apply propagates_generate|]. intros m r5.
  apply propagates_bind; [apply propagates_emit; simpl; tauto|]. intros _ r6.
  pose proof (propagates_imputers X m) as Himp.
  revert Himp.
  generalize (imputers SimpleFill_fit KNN_fit MatrixFactorization_fit
                SimpleImputer_complete) as imps.
  intros imps Himp. revert acc2 r6.
  induction Himp as [|imp imps Hi Himps IH]; intros acc2 r6; simpl.
  - apply propagates_ret.
  - apply propagates_bind; [|intros a r7; apply IH].
    unfold experiment_imputer.
    apply propagates_bind; [apply propagates_emit; simpl; tauto|]. intros _ r7.
    apply propagates_bind; [apply Hi|]. intros mse r8.
    apply propagates_bind; [apply propagates_emit; simpl; tauto|]. intros _ r9.
    apply propagates_ret.
Qed.

(** X5: the orchestrator catches nothing either: when an invocation of
    an imputer adapter raises anywhere in the sweep, the whole run ends
    with that very exception and returns no record. *)
Theorem experiment_halts_on_failure percent_missing_list r ph name params Xin e :
  In (EvFit ph name params Xin (Raise e))
     (events (experiment argsort SimpleFill_fit KNN_fit MatrixFactorization_fit
                SimpleImputer_complete sk_make_low_rank_matrix sk_load_diabetes
                sk_load_wine sk_make_swiss_roll percent_missing_list r)) ->
  outcome (experiment argsort SimpleFill_fit KNN_fit MatrixFactorization_fit
             SimpleImputer_complete sk_make_low_rank_matrix sk_load_diabetes
             sk_load_wine sk_make_swiss_roll percent_missing_list r) = Raise e.
Proof.
  intros Hin. apply (propagates_experiment percent_missing_list r e _ Hin). reflexivity.
Qed.

End ExperimentFailures.

Lemma experiment_halts_on_failure_witness :
  outcome (failing_experiment [10%Q] (tape_of [])) = Raise (External 7).
Proof.
  apply (experiment_halts_on_failure argsort_insertion (stub_fit 0) failing_fit
           (stub_fit 0) stub_complete stub_array stub_pair stub_pair stub_pair
           [10%Q] (tape_of []) Search "KNN" [("k"%string, HInt 2)]
           (mk_ndarray 4 4 (repeat NaN 16)) (External 7)).
  vm_compute. do 10 right. left. reflexivity.
Defined.

(** ** Runs of the search that return (lines 37-66) *)

Lemma same_shape_iff {A B} (a : ndarray A) (b : ndarray B) :
  same_shape a b = true <-> nrows a = nrows b /\ ncols a = ncols b.
Proof.
  unfold same_shape. rewrite andb_true_iff, !Nat.eqb_eq. tauto.
Qed.

Lemma evaluate_mse_ok Ximp X (m : ndarray bool) :
  same_shape Ximp m = true -> same_shape X m = true ->
  exists v, evaluate_mse Ximp X m = Ok v.
Proof.
  intros H1 H2. unfold evaluate_mse, np.getitem_mask. rewrite H1, H2. eauto.
Qed.

Lemma search_loop_ok F X Xi V :
  adapter_total F -> same_shape X V = true -> same_shape Xi V = true ->
  forall cands acc r,
    exists mses r' evs,
      for_each cands (hpo_step F X Xi V) acc r = (Ok mses, r', evs) /\
      length mses = length acc + length cands.
Proof.
  intros HF HXV HiV. induction cands as [|p cands IH]; intros acc r.
  - exists acc, r, []. split; [reflexivity|simpl; lia].
  - destruct (HF p Xi r) as (Ximp & r1 & Hft & Hsh).
    assert (HIV : same_shape Ximp V = true).
    { apply same_shape_iff in Hsh, HiV. apply same_shape_iff. lia. }
    destruct (evaluate_mse_ok Ximp X V HIV HXV) as (v & Hv).
    destruct (hpo_step_cases F X Xi V acc p r)
      as (out & r1' & Hft' & [(e & Hs) | (Ximp' & m & -> & Hm & Hs)]).
    + exfalso. rewrite Hft in Hft'. inversion Hft'; subst.
      unfold hpo_step in Hs.
      destruct (fit_run Search F p Xi r) as (out & r2 & Hft2 & Hfit).
      rewrite Hft in Hft2. inversion Hft2; subst.
      rewrite (bind_ok _ _ _ _ _ _ Hfit), Hv, bind_lift_ok, bind_emit in Hs.
      discriminate.
    + destruct (IH (acc ++ [m]) r1') as (mses & r' & evs & Hrest & Hlen).
      simpl. rewrite (bind_ok _ _ _ _ _ _ Hs), Hrest. cbn.
      eexists. eexists. eexists. split; [reflexivity|].
      rewrite Hlen, length_app. simpl. lia.
Qed.

Lemma argmin_ok (l : list number) :
  l <> [] -> exists i, np.argmin l = Ok i /\ i < length l.
Proof.
  intros Hl. destruct (np.argmin l) as [i|e] eqn:Hi.
  - exists i. split; [reflexivity|].
    destruct (argmin_first_min l i Hi) as (mi & Hn & _).
    apply nth_error_Some. congruence.
  - destruct l as [|[x|] rest]; [congruence|discriminate|discriminate].
Qed.

(** X6: with an adapter that never fails and keeps the shape of its
    input, a well-formed matrix and mask of the same shape and a grid
    that has a candidate, the search returns a value. *)
Theorem hpo_returns F g X M pv r :
  adapter_total F -> well_formed X -> well_formed M ->
  same_shape X M = true -> dict_product g <> [] ->
  exists v, outcome (fancyimpute_hpo F g X M pv r) = Ok v.
Proof.
  intros HF HwX HwM HXM Hg.
  pose proof (same_shape_size _ _ HXM) as (Hn & Hm & Hsz).
  set (train_idx := np.nonzero (np.eq_False (data M))).
  destruct (choice_n_run train_idx (length train_idx * pv / 100) r)
    as (vidx & r1 & Hc & _ & Hall).
  { destruct train_idx; [right; reflexivity|left; discriminate]. }
  destruct (validation_split_ok X M pv _ _ _ (eq_sym Hsz) HwM Hc Hall)
    as (l' & Hset & Hrun).
  simpl in Hrun. set (V := np.gt0 (mk_ndarray (nrows X) (ncols X) l')) in *.
  unfold fancyimpute_hpo. rewrite (bind_ok _ _ _ _ _ _ Hrun), outcome_after.
  assert (HMV : same_shape M V = true) by (apply same_shape_iff; simpl; lia).
  assert (HXV : same_shape X V = true) by (apply same_shape_iff; simpl; lia).
  assert (Hs : exists mses r2 evs,
             hpo_search F (dict_product g) X M V r1 = (Ok mses, r2, evs) /\
             length mses = length (dict_product g)).
  { unfold hpo_search, np.logical_or. rewrite HMV, bind_lift_ok.
    rewrite hide_copy by (rewrite same_shape_copy; exact HXM).
    rewrite bind_lift_ok.
    destruct (search_loop_ok F X (hide X (np.map2 orb (data M) (data V))) V HF HXV
                ltac:(apply same_shape_iff; simpl; lia) (dict_product g) [] r1)
      as (mses & r2 & evs & Hloop & Hlen).
    exists mses, r2, evs. split; [exact Hloop|exact Hlen]. }
  destruct Hs as (mses & r2 & evs & Hsearch & Hlen).
  rewrite (bind_ok _ _ _ _ _ _ Hsearch), outcome_after.
  unfold hpo_refit.
  destruct (argmin_ok mses) as (i & Hi & Hilt).
  { intros ->. destruct (dict_product g); [congruence|discriminate]. }
  rewrite Hi, bind_lift_ok. unfold index.
  destruct (nth_error (dict_product g) i) as [best|] eqn:Hb.
  2:{ apply nth_error_None in Hb. lia. }
  rewrite bind_lift_ok.
  rewrite hide_copy by (rewrite same_shape_copy; exact HXM).
  rewrite bind_lift_ok.
  destruct (HF best (hide X (data M)) r2) as (Ximp & r3 & Hft & Hsh).
  destruct (fit_run Refit F best (hide X (data M)) r2) as (out & r3' & Hft' & Hfit).
  rewrite Hft in Hft'. inversion Hft'; subst out r3'.
  rewrite (bind_ok _ _ _ _ _ _ Hfit), outcome_after.
  destruct (evaluate_mse_ok Ximp X M) as (v & Hv).
  { apply same_shape_iff in Hsh. apply same_shape_iff. simpl in Hsh. lia. }
  { exact HXM. }
  rewrite Hv, bind_lift_ok, bind_emit, outcome_after. exists v. reflexivity.
Qed.

Lemma constant_fill_total q : adapter_total (constant_fill q).
Proof.
  intros params Xi r. eexists. eexists. split; [reflexivity|].
  apply same_shape_iff. simpl. auto.
Qed.

Lemma hpo_returns_witness :
  exists v, outcome (fancyimpute_hpo (constant_fill 0) example_grid example_X
                       example_mask 50 (tape_of [0; 1])) = Ok v.
Proof.
  apply (hpo_returns (constant_fill 0) example_grid example_X example_mask 50
           (tape_of [0; 1])).
  - apply constant_fill_total.
  - reflexivity.
  - reflexivity.
  - reflexivity.
  - discriminate.
Defined.

(** ** The search without validation entry (lines 43-59) *)

Lemma events_bind_Forall {A B} (P : event -> Prop) (m : M A) (k : A -> M B) r :
  Forall P (events (m r)) ->
  (forall a r1 ev1, m r = (Ok a, r1, ev1) -> Forall P (events (k a r1))) ->
  Forall P (events (bind m k r)).
Proof.
  intros Hm Hk. destruct (m r) as [[[a|e] r1] ev1] eqn:Hrun.
  - rewrite (bind_ok _ _ _ _ _ _ Hrun), events_after. apply Forall_app.
    split; [exact Hm|]. eapply Hk. reflexivity.
  - rewrite (bind_raise _ _ _ _ _ _ Hrun). exact Hm.
Qed.

Lemma search_loop_nan F X Xi V :
  Forall (fun b => b = false) (data V) ->
  forall cands acc r,
    Forall trained_nan (events (for_each cands (hpo_step F X Xi V) acc r)).
Proof.
  intros HV. induction cands as [|p cands IH]; intros acc r; simpl; [constructor|].
  destruct (hpo_step_cases F X Xi V acc p r)
    as (out & r' & _ & [(e & Hs) | (Ximp & m & -> & Hm & Hs)]).
  - rewrite (bind_raise _ _ _ _ _ _ Hs). repeat constructor.
  - rewrite (bind_ok _ _ _ _ _ _ Hs), events_after.
    constructor; [exact I|]. constructor; [|apply IH].
    simpl. exact (evaluate_mse_no_entry _ _ _ _ HV Hm).
Qed.

Lemma trained_nan_all (evs : list event) :
  Forall trained_nan evs -> Forall (fun t => snd t = NaN) (trained evs).
Proof.
  induction 1 as [|ev evs Hev Hevs IH]; simpl; [constructor|].
  destruct ev; simpl in *; auto.
Qed.

Lemma hpo_without_validation F g X M pv r :
  count_false (data M) * pv < 100 ->
  Forall trained_nan (events (fancyimpute_hpo F g X M pv r)).
Proof.
  intros Hsmall. unfold fancyimpute_hpo.
  destruct (validation_split_cases X M pv r)
    as [(e & r' & Hv) | (vidx & l' & r' & Hv & _ & Hlen & _ & Hset)].
  { rewrite (bind_raise _ _ _ _ _ _ Hv). constructor. }
  simpl in Hv. rewrite (bind_ok _ _ _ _ _ _ Hv), events_after.
  constructor; [exact I|].
  assert (HV : Forall (fun b => b = false) (map (fun v => Qlt_bool 0 v) l')).
  { rewrite train_idx_length, Nat.div_small in Hlen by assumption.
    destruct vidx; [|discriminate]. simpl in Hset. inversion Hset; subst.
    apply Forall_forall. intros b Hb. apply in_map_iff in Hb.
    destruct Hb as (q & <- & Hq). apply repeat_spec in Hq. now subst. }
  apply events_bind_Forall.
  - unfold hpo_search.
    apply events_bind_Forall; [constructor|]. intros hidden r1 ev1 _.
    apply events_bind_Forall; [constructor|]. intros Xi r2 ev2 _.
    now apply search_loop_nan.
  - intros mses r1 ev1 _.
    pose proof (hpo_refit_trace F (dict_product g) X M mses r1) as Hr. simpl in Hr.
    destruct Hr as [(-> & _) | (i & best & out & r0 & r2 & _ & _ & _ & _ & Hr)];
      [constructor|].
    destruct Hr as [(-> & _) | (Ximp & m & _ & _ & -> & _)]; repeat constructor.
Qed.

(** X7: when the training-eligible entries are too few for one
    validation index to be drawn (fewer than 100 / percent_validation),
    every validation error is not-a-number and the search selects the
    first candidate of the enumeration, whatever the adapter returns. *)
Theorem no_validation_selects_first F g X M pv r name best_params mse_best :
  count_false (data M) * pv < 100 ->
  In (EvBest name best_params mse_best) (events (fancyimpute_hpo F g X M pv r)) ->
  Forall (fun t => snd t = NaN) (trained (events (fancyimpute_hpo F g X M pv r))) /\
  nth_error (dict_product g) 0 = Some best_params.
Proof.
  intros Hsmall Hin.
  pose proof (trained_nan_all _ (hpo_without_validation F g X M pv r Hsmall)) as Hnan.
  split; [exact Hnan|].
  destruct (hpo_trace F g X M pv r) as [(Hnil & _) | Hrun].
  { rewrite Hnil in Hin. destruct Hin. }
  destruct Hrun as (vidx & l' & evs & evr & Hev & _ & _ & _ & _ & Hse & _ & _ & Hr).
  rewrite Hev in Hin, Hnan. destruct Hin as [Heq | Hin]; [discriminate|].
  apply in_app_or in Hin. destruct Hin as [Hin | Hin].
  { rewrite Forall_forall in Hse. apply Hse in Hin. destruct Hin. }
  destruct Hr as [(-> & _) | (_ & _ & Hr)]; [destruct Hin|].
  destruct Hr as [(-> & _) | (i & best & out & r0 & r1 & Hi & Hb & _ & _ & Hr)];
    [destruct Hin|].
  assert (Hbest : best = best_params).
  { destruct Hr as [(-> & _) | (Ximp & m & _ & _ & -> & _)].
    - destruct Hin as [Heq | []]. discriminate.
    - destruct Hin as [Heq | [Heq | []]]; [discriminate|]. now inversion Heq. }
  subst best.
  assert (Ht : Forall (fun t => snd t = NaN) (trained evs)).
  { change (EvValidation ?t vidx ?V :: evs ++ evr)
      with ([EvValidation t vidx V] ++ evs ++ evr) in Hnan.
    rewrite !trained_app in Hnan. simpl in Hnan.
    apply Forall_app in Hnan. tauto. }
  destruct (trained evs) as [|[p m] rest]; simpl in Hi; [discriminate|].
  inversion Ht; subst. simpl in H1. subst m. simpl in Hi. inversion Hi; subst.
  exact Hb.
Qed.

Lemma no_validation_selects_first_witness :
  Forall (fun t => snd t = NaN)
    (trained (events (fancyimpute_hpo param_fill example_grid example_X example_mask 10
                        (tape_of [])))) /\
  nth_error (dict_product example_grid) 0 = Some [("k"%string, HInt 1)].
Proof.
  apply (no_validation_selects_first param_fill example_grid example_X example_mask 10
           (tape_of []) "ParamFill" [("k"%string, HInt 1)] (Num (16 # 2))).
  - unfold count_false. simpl. lia.
  - simpl. do 8 right. left. reflexivity.
Defined.

(** X8: the validation mask has the shape of the matrix, and its true
    entries are exactly the flat indices that were drawn. *)
Theorem validation_mask_marks_draws F g X M pv r t vidx V :
  In (EvValidation t vidx V) (events (fancyimpute_hpo F g X M pv r)) ->
  nrows V = nrows X /\ ncols V = ncols X /\ well_formed V /\
  forall i, nth i (data V) false = true <-> In i vidx.
Proof.
  intros Hin. apply hpo_validation_event in Hin.
  destruct Hin as (_ & _ & l' & Hset & ->).
  split; [reflexivity|]. split; [reflexivity|]. split.
  - unfold well_formed, size. simpl. rewrite length_map.
    apply setitems_ok in Hset. destruct Hset as (Hlen & _).
    rewrite Hlen. apply repeat_length.
  - intros i. simpl. exact (gt0_nth_set _ _ _ _ (nth_repeat_zero _) Hset).
Qed.

Lemma validation_mask_marks_draws_witness :
  nrows (mk_ndarray 2 3 [false; true; false; false; false; false]) = nrows example_X /\
  ncols (mk_ndarray 2 3 [false; true; false; false; false; false]) = ncols example_X /\
  well_formed (mk_ndarray 2 3 [false; true; false; false; false; false]) /\
  forall i, nth i [false; true; false; false; false; false] false = true <-> In i [1; 1].
Proof.
  apply (validation_mask_marks_draws (constant_fill 0) single_grid example_X example_mask
           50 (tape_of [0; 0]) [1; 2; 3; 5] [1; 1]
           (mk_ndarray 2 3 [false; true; false; false; false; false])).
  simpl. left. reflexivity.
Defined.

(** ** Further properties of the mask generator (lines 96-117) *)

Lemma rand1_unit (z : Z) :
  (0 <= (z mod 2 ^ 53 # 2 ^ 53) /\ (z mod 2 ^ 53 # 2 ^ 53) < 1)%Q.
Proof.
  pose proof (Z.mod_pos_bound z (2 ^ 53) ltac:(reflexivity)) as H.
  unfold Qle, Qlt. cbn [Qnum Qden].
  change (Z.pos (2 ^ 53)) with (2 ^ 53)%Z. lia.
Qed.

Lemma rand_loop_unit : forall n r,
  exists us r', rand_loop n r = (Ok us, r', []) /\ length us = n /\
                Forall (fun u => (0 <= u /\ u < 1)%Q) us.
Proof.
  induction n as [|n IH]; intros r.
  - exists [], r. repeat split; constructor.
  - cbn [rand_loop].
    assert (H1 : rand1 r = (Ok (Z.of_nat (tape r (cursor r)) mod 2 ^ 53 # 2 ^ 53),
                            mk_rng (tape r) (S (cursor r)), [])) by reflexivity.
    rewrite (bind_ok _ _ _ _ _ _ H1), after_nil.
    destruct (IH (mk_rng (tape r) (S (cursor r)))) as (us & r' & Hrun & Hlen & Hall).
    rewrite (bind_ok _ _ _ _ _ _ Hrun), after_nil. unfold ret.
    eexists. eexists. split; [reflexivity|]. split; [simpl; lia|].
    constructor; [apply rand1_unit|assumption].
Qed.

Lemma count_true_map_filter {A} (f : A -> bool) (l : list A) :
  count_true (map f l) = length (filter f l).
Proof.
  unfold count_true. induction l as [|x l IH]; simpl; [reflexivity|].
  destruct (f x); simpl; now rewrite IH.
Qed.

Lemma count_false_map_filter {A} (f : A -> bool) (l : list A) :
  count_false (map f l) = length (filter (fun x => negb (f x)) l).
Proof.
  unfold count_false. induction l as [|x l IH]; simpl; [reflexivity|].
  destruct (f x); simpl; now rewrite IH.
Qed.

Lemma filter_none {A} (f : A -> bool) (l : list A) :
  Forall (fun x => f x = false) l -> filter f l = [].
Proof.
  induction 1 as [|x l Hx Hl IH]; simpl; [reflexivity|]. now rewrite Hx.
Qed.

Section MaskMore.

Variable argsort : list Q -> list nat.

Lemma mar_mask_extremes_shape X pct r :
  exists mask r',
    generate_missing_mask argsort X pct true r = (Ok mask, r', []) /\
    nrows mask = nrows X /\ ncols mask = ncols X /\ well_formed mask.
Proof.
  unfold generate_missing_mask, rand.
  destruct (rand_loop_unit (nrows X * ncols X) r) as (us & r' & Hrun & Hlen & _).
  assert (Hr : (us0 <- rand_loop (nrows X * ncols X);;
                ret (mk_ndarray (nrows X) (ncols X) us0)) r =
               (Ok (mk_ndarray (nrows X) (ncols X) us), r', [])).
  { rewrite (bind_ok _ _ _ _ _ _ Hrun), after_nil. reflexivity. }
  rewrite (bind_ok _ _ _ _ _ _ Hr), after_nil.
  eexists. eexists. split; [reflexivity|].
  split; [reflexivity|]. split; [reflexivity|].
  unfold well_formed, size, lt_scalar. simpl. now rewrite length_map.
Qed.

(** X9: the missing-at-random branch never fails and emits no event;
    its mask has the shape of the matrix; a percentage of 0 or less
    marks no entry, a percentage of 100 or more marks every entry. *)
Theorem mar_mask_extremes X pct r :
  exists mask r',
    generate_missing_mask argsort X pct true r = (Ok mask, r', []) /\
    nrows mask = nrows X /\ ncols mask = ncols X /\ well_formed mask /\
    ((pct <= 0)%Q -> count_true (data mask) = 0) /\
    ((100 <= pct)%Q -> count_false (data mask) = 0).
Proof.
  unfold generate_missing_mask, rand.
  destruct (rand_loop_unit (nrows X * ncols X) r) as (us & r' & Hrun & Hlen & Hall).
  assert (Hr : (us0 <- rand_loop (nrows X * ncols X);;
                ret (mk_ndarray (nrows X) (ncols X) us0)) r =
               (Ok (mk_ndarray (nrows X) (ncols X) us), r', [])).
  { rewrite (bind_ok _ _ _ _ _ _ Hrun), after_nil. reflexivity. }
  rewrite (bind_ok _ _ _ _ _ _ Hr), after_nil.
  eexists. eexists. split; [reflexivity|].
  split; [reflexivity|]. split; [reflexivity|]. split.
  { unfold well_formed, size, lt_scalar. simpl. now rewrite length_map. }
  unfold lt_scalar. simpl. split.
  - intros Hp. rewrite count_true_map_filter, filter_none; [reflexivity|].
    rewrite Forall_forall in *. intros u Hu. apply Hall in Hu.
    destruct (Qlt_bool u (pct / 100)) eqn:E; [|reflexivity].
    apply Qlt_bool_iff in E. exfalso.
    assert (Hd : (pct / 100 <= 0)%Q) by (apply Qle_shift_div_r; [reflexivity|lra]).
    lra.
  - intros Hp. rewrite count_false_map_filter, filter_none; [reflexivity|].
    rewrite Forall_forall in *. intros u Hu. apply Hall in Hu.
    assert (Hd : (1 <= pct / 100)%Q) by (apply Qle_shift_div_l; [reflexivity|lra]).
    assert (E : Qlt_bool u (pct / 100) = true) by (apply Qlt_bool_iff; lra).
    now rewrite E.
Qed.

(** X10: the missing-not-at-random branch raises ValueError on a matrix
    with fewer than three columns (no count of affected columns can be
    drawn in [2, n_features)) and on a matrix with fewer than two rows
    (no start of a run can be drawn). *)
Theorem mnar_too_small X pct r :
  ncols X < 3 \/ nrows X < 2 ->
  outcome (generate_missing_mask argsort X pct false r) = Raise ValueError.
Proof.
  intros Hsmall. unfold generate_missing_mask.
  destruct (randint_cases 2 (Z.of_nat (ncols X)) r) as [Hr | (v & r1 & Hr & Hv)].
  { rewrite (bind_raise _ _ _ _ _ _ Hr). reflexivity. }
  destruct Hsmall as [Hm | Hn]; [lia|].
  rewrite (bind_ok _ _ _ _ _ _ Hr), after_nil.
  destruct (permutation_run (seq 0 (ncols X)) r1) as (p & r2 & Hp & Hperm).
  rewrite (bind_ok _ _ _ _ _ _ Hp), after_nil, bind_emit, outcome_after.
  assert (Hlenp : length p = ncols X).
  { rewrite (Permutation_length Hperm). apply length_seq. }
  set (k := Z.to_nat v).
  destruct (firstn k p) as [|c rest] eqn:Haff.
  { apply (f_equal (@length nat)) in Haff. rewrite length_firstn in Haff.
    simpl in Haff. unfold k in Haff. lia. }
  assert (Hun : skipn k p <> []).
  { intros E. apply (f_equal (@length nat)) in E. rewrite length_skipn in E.
    simpl in E. unfold k in E. lia. }
  assert (Hcol : exists r3 evs,
             mnar_column argsort X k (skipn k p) (np.zeros (nrows X) (ncols X)) c r2 =
             (Raise ValueError, r3, evs)).
  { unfold mnar_column.
    rewrite (bind_ok _ _ _ _ _ _ (choice_run (skipn k p) r2 Hun)), after_nil.
    assert (Hk : nrows X / k = 0) by (apply Nat.div_small; unfold k; lia).
    rewrite Hk. unfold randint.
    destruct (Z.ltb_spec 0 (Z.of_nat (nrows X) - Z.of_nat 0 - 1)) as [Hlt|Hge]; [lia|].
    eexists. eexists. reflexivity. }
  destruct Hcol as (r3 & evs & Hcol).
  cbn [for_each].
  rewrite (bind_raise _ _ _ ValueError r3 evs)
    by (apply bind_raise; exact Hcol).
  reflexivity.
Qed.

(** The cells of an affected column that a run that returns has marked
    are those of the rows of the run of its event. *)
Lemma mnar_marked_cells X pct r mask c d s nd :
  outcome (generate_missing_mask argsort X pct false r) = Ok mask ->
  In (EvDiscard c d s nd) (events (generate_missing_mask argsort X pct false r)) ->
  s + nd + 2 <= nrows X /\ c < ncols X /\
  forall i, i < nrows X ->
    (np.cell mask i c false = true <-> In i (run_rows argsort X d s nd)).
Proof.
  intros Hout Hin.
  destruct (mnar_trace argsort X pct r) as [(Hnil & _) | Hrun].
  { rewrite Hnil in Hin. destruct Hin. }
  destruct Hrun as (aff & unaff & evs & Hev & Hperm & _ & _ & Hall & Hfin).
  destruct (Hfin mask Hout) as (Hcols & _ & _ & _ & Hcells).
  rewrite Hev in Hin. destruct Hin as [Heq | Hin]; [discriminate|].
  destruct (mnar_event_unique X aff unaff evs c d s nd d s nd Hperm Hcols Hin Hin)
    as (Hc & _).
  split.
  { rewrite Forall_forall in Hall. apply Hall in Hin. simpl in Hin. tauto. }
  split; [exact Hc|].
  intros i Hi.
  destruct (Hcells i c Hi Hc) as [(H1 & d' & s' & nd' & Hin' & Hcov) | (H0 & Hno)].
  - destruct (mnar_event_unique X aff unaff evs c d s nd d' s' nd' Hperm Hcols Hin Hin')
      as (_ & _ & -> & -> & ->).
    tauto.
  - split; [congruence|]. intros Hcov. exfalso. exact (Hno d s nd Hin Hcov).
Qed.

(** X11: in a mask the missing-not-at-random branch returns, the driver
    column of every affected column is another column, and it is fully
    observed: none of its entries is marked. *)
Theorem mnar_driver_observed X pct r mask c d s nd :
  outcome (generate_missing_mask argsort X pct false r) = Ok mask ->
  In (EvDiscard c d s nd) (events (generate_missing_mask argsort X pct false r)) ->
  d <> c /\ d < ncols X /\
  forall i, i < nrows X -> np.cell mask i d false = false.
Proof.
  intros Hout Hin.
  destruct (mnar_trace argsort X pct r) as [(Hnil & _) | Hrun].
  { rewrite Hnil in Hin. destruct Hin. }
  destruct Hrun as (aff & unaff & evs & Hev & Hperm & _ & _ & Hall & Hfin).
  destruct (Hfin mask Hout) as (Hcols & _ & _ & _ & Hcells).
  rewrite Hev in Hin. destruct Hin as [Heq | Hin]; [discriminate|].
  destruct (mnar_event_unique X aff unaff evs c d s nd d s nd Hperm Hcols Hin Hin)
    as (_ & Hc_aff & _).
  assert (Hd_un : In d unaff).
  { rewrite Forall_forall in Hall. apply Hall in Hin. simpl in Hin. tauto. }
  assert (Hnd : NoDup (aff ++ unaff)).
  { apply (Permutation_NoDup (Permutation_sym Hperm)). apply seq_NoDup. }
  assert (Hdm : d < ncols X).
  { assert (Hin' : In d (aff ++ unaff)) by (apply in_or_app; now right).
    apply (Permutation_in _ Hperm) in Hin'. apply in_seq in Hin'. lia. }
  split.
  { intros ->. exact (NoDup_app_disjoint aff unaff c Hnd Hc_aff Hd_un). }
  split; [exact Hdm|].
  intros i Hi.
  destruct (Hcells i d Hi Hdm) as [(_ & d' & s' & nd' & Hin' & _) | (H0 & _)];
    [|exact H0].
  exfalso.
  destruct (mnar_event_unique X aff unaff evs d d' s' nd' d' s' nd' Hperm Hcols Hin' Hin')
    as (_ & Hd_aff & _).
  exact (NoDup_app_disjoint aff unaff d Hnd Hd_aff Hd_un).
Qed.

(** X12: whichever the mechanism, a mask that [generate_missing_mask]
    returns is a well-formed array of the shape of the matrix. *)
Theorem generated_mask_shape X pct mar r mask :
  outcome (generate_missing_mask argsort X pct mar r) = Ok mask ->
  nrows mask = nrows X /\ ncols mask = ncols X /\ well_formed mask.
Proof.
  intros Hout. destruct mar.
  - destruct (mar_mask_extremes_shape X pct r) as (m & r' & Hrun & Hn & Hm & Hw).
    rewrite Hrun in Hout. inversion Hout; subst. auto.
  - destruct (mnar_trace argsort X pct r) as [(_ & e & He) | Hrun]; [congruence|].
    destruct Hrun as (aff & unaff & evs & _ & _ & _ & _ & _ & Hfin).
    destruct (Hfin mask Hout) as (_ & Hn & Hm & Hw & _). auto.
Qed.

Hypothesis argsort_perm : forall v, Permutation (argsort v) (seq 0 (length v)).

Lemma run_rows_NoDup X d s nd :
  s + nd <= nrows X -> NoDup (run_rows argsort X d s nd).
Proof.
  intros Hfit. unfold run_rows.
  apply Finite.Injective_map_NoDup_in; [|apply seq_NoDup].
  intros p q Hp Hq Heq. apply in_seq in Hp, Hq.
  pose proof (argsort_NoDup argsort argsort_perm X d) as Hnd.
  rewrite (NoDup_nth _ 0) in Hnd.
  apply Hnd; rewrite ?(argsort_length argsort argsort_perm); [lia|lia|exact Heq].
Qed.

Lemma count_marked (f : nat -> bool) (n : nat) (rows : list nat) :
  (forall i, i < n -> (f i = true <-> In i rows)) ->
  NoDup rows -> Forall (fun i => i < n) rows ->
  count_true (map f (seq 0 n)) = length rows.
Proof.
  intros Hf Hnd Hlt. rewrite count_true_map_filter.
  apply Permutation_length, NoDup_Permutation.
  - apply NoDup_filter, seq_NoDup.
  - exact Hnd.
  - intros i. rewrite filter_In, in_seq. rewrite Forall_forall in Hlt. split.
    + intros [Hi Hfi]. apply Hf; [lia|exact Hfi].
    + intros Hi. pose proof (Hlt i Hi). split; [lia|]. now apply Hf.
Qed.

(** X13: in a mask the missing-not-at-random branch returns, every
    affected column has exactly n_samples // n_cols_affected entries
    marked, whatever the value of percent_missing. *)
Theorem mnar_column_count X pct r mask aff unaff rest c :
  outcome (generate_missing_mask argsort X pct false r) = Ok mask ->
  events (generate_missing_mask argsort X pct false r) = EvColumns aff unaff :: rest ->
  In c aff ->
  count_true (mask_column mask c) = nrows X / length aff.
Proof.
  intros Hout Hev Hc.
  destruct (mnar_trace argsort X pct r) as [(Hnil & _) | Hrun]; [congruence|].
  destruct Hrun as (aff' & unaff' & evs & Hev' & Hperm & _ & _ & Hall & Hfin).
  rewrite Hev in Hev'. inversion Hev'; subst aff' unaff' evs. clear Hev'.
  destruct (Hfin mask Hout) as (Hcols & Hn & _ & _ & _).
  assert (Hex : exists d s nd, In (EvDiscard c d s nd) rest).
  { assert (Hin : In (Some c) (map discard_col rest))
      by (rewrite Hcols; now apply in_map).
    apply in_map_iff in Hin. destruct Hin as (ev & Hev' & Hin).
    destruct ev; try discriminate. simpl in Hev'. inversion Hev'; subst. eauto. }
  destruct Hex as (d & s & nd & Hin).
  assert (Hnd : nd = nrows X / length aff).
  { rewrite Forall_forall in Hall. apply Hall in Hin. simpl in Hin. tauto. }
  destruct (mnar_marked_cells X pct r mask c d s nd Hout) as (Hfit & _ & Hmark).
  { rewrite Hev. now right. }
  unfold mask_column. rewrite Hn.
  rewrite (count_marked _ (nrows X) (run_rows argsort X d s nd) Hmark).
  - unfold run_rows. now rewrite length_map, length_seq.
  - apply run_rows_NoDup. lia.
  - apply (run_rows_lt argsort argsort_perm). lia.
Qed.

End MaskMore.

Lemma mnar_too_small_witness :
  outcome (generate_missing_mask argsort_insertion (mk_ndarray 1 4 [1; 2; 3; 4]%Q) 10
             false (tape_of [])) = Raise ValueError.
Proof.
  apply (mnar_too_small argsort_insertion (mk_ndarray 1 4 [1; 2; 3; 4]%Q) 10
           (tape_of [])).
  right. simpl. lia.
Defined.

Lemma mnar_driver_observed_witness :
  3 <> 0 /\ 3 < ncols example_square /\
  forall i, i < nrows example_square ->
    np.cell (mk_ndarray 4 4
               [true; false; false; false; false; false; false; false;
                false; true; true; false; false; false; false; false])
            i 3 false = false.
Proof.
  apply (mnar_driver_observed argsort_insertion example_square 10
           (tape_of [1; 0; 0; 0; 0; 0; 1])
           (mk_ndarray 4 4
              [true; false; false; false; false; false; false; false;
               false; true; true; false; false; false; false; false])
           0 3 1 1).
  - reflexivity.
  - simpl. right. left. reflexivity.
Defined.

Lemma generated_mask_shape_witness :
  nrows full_mask = nrows example_square /\ ncols full_mask = ncols example_square /\
  well_formed full_mask.
Proof.
  apply (generated_mask_shape argsort_insertion example_square 10 true (tape_of [])).
  reflexivity.
Defined.

Lemma mnar_column_count_witness :
  count_true
    (mask_column
       (mk_ndarray 4 4
          [true; false; false; false; false; false; false; false;
           false; true; true; false; false; false; false; false]) 1)
  = nrows example_square / length [0; 1; 2].
Proof.
  apply (mnar_column_count argsort_insertion argsort_insertion_perm example_square 10
           (tape_of [1; 0; 0; 0; 0; 0; 1])
           (mk_ndarray 4 4
              [true; false; false; false; false; false; false; false;
               false; true; true; false; false; false; false; false])
           [0; 1; 2] [3] [EvDiscard 0 3 1 1; EvDiscard 1 3 0 1; EvDiscard 2 3 0 1] 1).
  - reflexivity.
  - reflexivity.
  - simpl. right. left. reflexivity.
Defined.

(** ** The swiss-roll branch of the dataset provider (lines 89-91) *)

Lemma append_column_rows_spec (c : nat) : forall (t buf : list Q),
  length buf = length t * c ->
  length (np.append_column_rows c buf t) = length t * S c /\
  forall i d, i < length t ->
    (forall j, j < c ->
       nth (i * S c + j) (np.append_column_rows c buf t) d = nth (i * c + j) buf d) /\
    nth (i * S c + c) (np.append_column_rows c buf t) d = nth i t d.
Proof.
  induction t as [|x rest IH]; intros buf Hlen; simpl in *.
  - split; [reflexivity|]. intros i d Hi. lia.
  - assert (Hf : length (firstn c buf) = c) by (rewrite length_firstn; lia).
    destruct (IH (skipn c buf)) as (Hl & Hcells).
    { rewrite length_skipn. lia. }
    split.
    { rewrite length_app. simpl. rewrite Hf, Hl. lia. }
    intros i d Hi. destruct i as [|i].
    + simpl. split.
      * intros j Hj. rewrite app_nth1 by lia. rewrite nth_firstn.
        apply Nat.ltb_lt in Hj. now rewrite Hj.
      * rewrite app_nth2 by lia. rewrite Hf, Nat.sub_diag. reflexivity.
    + destruct (Hcells i d ltac:(lia)) as (Hrow & Hlast). split.
      * intros j Hj.
        rewrite app_nth2 by lia. rewrite Hf.
        replace (S i * S c + j - c) with (S (i * S c + j)) by lia.
        simpl. rewrite (Hrow j Hj), nth_skipn. f_equal. lia.
      * rewrite app_nth2 by lia. rewrite Hf.
        replace (S i * S c + c - c) with (S (i * S c + c)) by lia.
        simpl. exact Hlast.
Qed.

(** X14: the branch of the swiss roll is taken on the identity of the
    name.  When the name of the loader is the interned string
    make_swiss_roll and the loader returns a matrix and a vector with
    one value per row, the dataset provider returns the matrix with the
    vector appended as one more column: the same rows, one column more,
    the former cells unchanged and the vector in the last column.  When
    the name has these characters and is another string object, no
    branch is taken and the provider raises UnboundLocalError. *)
Theorem get_data_swiss_roll (f : data_fn) X t :
  fn_name f = "make_swiss_roll"%string ->
  well_formed X -> length t = nrows X ->
  call f [n_samples 1000; random_state 0] = Ok (PyPair X t) ->
  if name_interned f
  then
    exists X',
      get_data f = Ok (PyArray X') /\
      nrows X' = nrows X /\ ncols X' = S (ncols X) /\ well_formed X' /\
      forall i, i < nrows X ->
        (forall j, j < ncols X -> np.cell X' i j 0%Q = np.cell X i j 0%Q) /\
        np.cell X' i (ncols X) 0%Q = nth i t 0%Q
  else get_data f = Raise UnboundLocalError.
Proof.
  intros Hn Hw Hlen Hsk. unfold get_data, name_is. rewrite Hn.
  destruct (name_interned f); [|reflexivity].
  simpl. rewrite Hsk. simpl.
  unfold np.append_column. apply Nat.eqb_eq in Hlen. rewrite Hlen.
  apply Nat.eqb_eq in Hlen.
  destruct (append_column_rows_spec (ncols X) t (data X)) as (Hl & Hcells).
  { unfold well_formed, size in Hw. lia. }
  eexists. split; [reflexivity|]. split; [reflexivity|]. split; [reflexivity|].
  split; [unfold well_formed, size; simpl; lia|].
  intros i Hi. unfold np.cell. simpl. apply Hcells. lia.
Qed.

Lemma get_data_swiss_roll_witness :
  exists X',
    get_data (mk_data_fn "make_swiss_roll" true stub_pair) = Ok (PyArray X') /\
    nrows X' = nrows example_square /\ ncols X' = S (ncols example_square) /\
    well_formed X' /\
    forall i, i < nrows example_square ->
      (forall j, j < ncols example_square ->
         np.cell X' i j 0%Q = np.cell example_square i j 0%Q) /\
      np.cell X' i (ncols example_square) 0%Q = nth i [1; 2; 3; 4]%Q 0%Q.
Proof.
  apply (get_data_swiss_roll (mk_data_fn "make_swiss_roll" true stub_pair)
           example_square [1; 2; 3; 4]%Q); reflexivity.
Defined.

(** ** The datawig imputer (lines 79-84) *)

(** X15: the data frame handed to SimpleImputer.complete is built from
    the whole matrix, the mask being used for the score only; so when
    complete returns the values it was given, the reported error is 0
    for every mask of the shape of the matrix that has a true entry. *)
Theorem impute_datawig_scores_zero
    (complete : ndarray Q -> rng_state -> result (ndarray Q) * rng_state)
    X mask r r' :
  complete X r = (Ok X, r') ->
  well_formed X -> well_formed mask -> same_shape X mask = true ->
  0 < count_true (data mask) ->
  exists q, impute_datawig complete X mask r = (Ok (Num q), r', []) /\ (q == 0)%Q.
Proof.
  intros Hc HwX HwM Hsh Hcnt. unfold impute_datawig.
  rewrite (bind_ok _ _ r X r' []) by (now rewrite Hc). rewrite after_nil.
  destruct (evaluate_mse X X mask) as [v|e] eqn:Hv.
  2:{ unfold evaluate_mse, np.getitem_mask in Hv. rewrite Hsh in Hv. discriminate. }
  destruct (evaluate_mse_value X X mask v HwX HwX HwM Hcnt Hv) as (q & -> & _ & Hz).
  exists q. split; [reflexivity|]. apply Hz. intros i _. reflexivity.
Qed.

Lemma impute_datawig_scores_zero_witness :
  exists q, impute_datawig stub_complete example_X example_mask (tape_of []) =
            (Ok (Num q), tape_of [], []) /\ (q == 0)%Q.
Proof.
  apply (impute_datawig_scores_zero stub_complete example_X example_mask (tape_of [])
           (tape_of [])).
  - reflexivity.
  - reflexivity.
  - reflexivity.
  - reflexivity.
  - unfold count_true. simpl. lia.
Defined.

(** ** The records of the orchestrator (lines 135-153) *)





Section ExperimentRecords.

Variable argsort : list Q -> list nat.
Variable SimpleFill_fit KNN_fit MatrixFactorization_fit :
  candidate -> ndarray number -> rng_state -> result (ndarray Q) * rng_state.
Variable SimpleImputer_complete :
  ndarray Q -> rng_state -> result (ndarray Q) * rng_state.
Variable sk_make_low_rank_matrix sk_load_diabetes sk_load_wine sk_make_swiss_roll :
  list kwarg -> result pyvalue.





End ExperimentRecords.

